(** * SeriousCast: the upstream client (sirius.py) and the stream handlers
    (server.py), embedded as Rocq functions.

    Python values are modelled as follows.
    - [str] is a list of Unicode code points ([N]); a literal is written
      [u "..."].
    - [bytes] and [bytearray] are lists of [Byte.byte].
    - [int] is [Z].
    - A raised exception is the [Raise] outcome of a [result]; state
      changes made before the raise stay, as in Python.
    - A [dict] keyed by strings or integers is a [gmap]; the parsed JSON
      documents of the upstream service are values of [json]. *)

From Stdlib Require Import ZArith NArith List Lia String Ascii Bool.
From Stdlib Require Import Strings.Byte.
From stdpp Require Import base decidable option list gmap.
Import ListNotations.

Local Open Scope N_scope.
Local Open Scope list_scope.

(** ** Exceptions and results *)

Inductive exn : Type :=
| SiriusException (value : string)
| IndexError
| KeyError
| TypeError
| ValueError
| AttributeError
| UnicodeError
| StructError
| RecursionError
| ConnectionResetError
| ConnectionAbortedError
| RequestException (what : string).

Inductive result (A : Type) : Type :=
| Ok (a : A)
| Raise (e : exn).
Arguments Ok {A} a.
Arguments Raise {A} e.

Definition rbind {A B} (m : result A) (k : A -> result B) : result B :=
  match m with
  | Ok a => k a
  | Raise e => Raise e
  end.

Notation "'let+' x ':=' m 'in' k" := (rbind m (fun x => k))
  (at level 10, x pattern, m at level 200, k at level 200).

(** ** Strings *)

Abbreviation str := (list N) (only parsing).
Abbreviation bytes := (list byte) (only parsing).

Definition u (s : string) : str :=
  map N_of_ascii (list_ascii_of_string s).

Definition str_eqb (a b : str) : bool := bool_decide (a = b).

(** Line boundaries of [str.splitlines]: LF, VT, FF, CR, FS, GS, RS, NEL,
    LINE SEPARATOR and PARAGRAPH SEPARATOR; CR LF counts as one. *)
Definition is_linebreak (c : N) : bool :=
  (10 <=? c) && (c <=? 13) || (28 <=? c) && (c <=? 30)
  || (c =? 133) || (c =? 8232) || (c =? 8233).

Fixpoint splitlines_from (cur : str) (s : str) : list str :=
  match s with
  | [] => match cur with [] => [] | _ => [cur] end
  | c :: s' =>
      if is_linebreak c then
        cur :: match s' with
               | d :: s'' =>
                   if (c =? 13) && (d =? 10) then splitlines_from [] s''
                   else splitlines_from [] s'
               | [] => splitlines_from [] s'
               end
      else splitlines_from (cur ++ [c]) s'
  end.

Definition splitlines (s : str) : list str := splitlines_from [] s.

(** Whitespace of [str.strip] with no argument ([str.isspace]). *)
Definition is_space (c : N) : bool :=
  (9 <=? c) && (c <=? 13) || (28 <=? c) && (c <=? 32)
  || (c =? 133) || (c =? 160) || (c =? 5760)
  || (8192 <=? c) && (c <=? 8202)
  || (c =? 8232) || (c =? 8233) || (c =? 8239) || (c =? 8287) || (c =? 12288).

Fixpoint lstrip (s : str) : str :=
  match s with
  | [] => []
  | c :: s' => if is_space c then lstrip s' else s
  end.

Definition strip (s : str) : str := rev (lstrip (rev (lstrip s))).

(** ** Lists: [in], [index] and slices *)

Definition py_in (x : str) (l : list str) : bool := existsb (str_eqb x) l.

(** [l.index(x)]: position of the first element equal to [x]. *)
Fixpoint py_index (x : str) (l : list str) : result nat :=
  match l with
  | [] => Raise ValueError
  | y :: l' =>
      if str_eqb y x then Ok O
      else let+ i := py_index x l' in Ok (S i)
  end.

(** [l[start:]] for any integer [start]: a negative start counts from the
    end, and both ends are clamped. *)
Definition slice_from {A} (start : Z) (l : list A) : list A :=
  let len := Z.of_nat (length l) in
  let start := if (start <? 0)%Z then Z.max 0 (len + start) else Z.min start len in
  drop (Z.to_nat start) l.

(** ** sirius.py: [Sirius._filter_playlist] *)

Definition hash : N := 35.

(** [x[0]] on a string. *)
Definition first_char (x : str) : result N :=
  match x with
  | [] => Raise IndexError
  | c :: _ => Ok c
  end.

(** [[x.strip() for x in lines if not x[0] == '#']] *)
Fixpoint playlist_entries (lines : list str) : result (list str) :=
  match lines with
  | [] => Ok []
  | x :: rest =>
      let+ c := first_char x in
      if negb (c =? hash) then
        let+ tl := playlist_entries rest in Ok (strip x :: tl)
      else playlist_entries rest
  end.

(** Truth value of the [last] argument: [None] and the empty string are
    false. *)
Definition truthy (last : option str) : bool :=
  match last with
  | None => false
  | Some [] => false
  | Some _ => true
  end.

Definition _filter_playlist (playlist : str) (last : option str) (rewind : Z)
  : result (list str) :=
  let+ playlist := playlist_entries (splitlines playlist) in
  match last with
  | Some m =>
      if truthy last && py_in m playlist then
        let+ i := py_index m playlist in
        Ok (slice_from (Z.of_nat i + 1) playlist)
      else Ok (slice_from (- (10 + 3 * rewind)) playlist)
  | None => Ok (slice_from (- (10 + 3 * rewind)) playlist)
  end.

(** The entries of a playlist as the specification words them: split into
    lines, drop the lines with a leading [#], trim. *)
Definition is_comment (x : str) : bool :=
  match x with
  | c :: _ => c =? hash
  | [] => false
  end.

Definition spec_entries (playlist : str) : list str :=
  map strip (List.filter (fun x => negb (is_comment x)) (splitlines playlist)).

(** The last [n] elements of a list, all of them when it is shorter. *)
Definition last_n {A} (n : nat) (l : list A) : list A := rev (take n (rev l)).


(** ** Bytes, UTF-8 and hexadecimal text *)

Definition byte_of (n : N) : byte :=
  match Byte.of_N (n mod 256) with
  | Some b => b
  | None => x00
  end.

(** [c.encode('utf-8')] for one code point; the surrogates cannot be
    encoded. *)
Definition utf8_char (c : N) : result bytes :=
  if c <? 128 then Ok [byte_of c]
  else if c <? 2048 then
    Ok [byte_of (192 + c / 64); byte_of (128 + c mod 64)]
  else if c <? 65536 then
    if (55296 <=? c) && (c <=? 57343) then Raise UnicodeError
    else Ok [byte_of (224 + c / 4096); byte_of (128 + (c / 64) mod 64);
             byte_of (128 + c mod 64)]
  else if c <? 1114112 then
    Ok [byte_of (240 + c / 262144); byte_of (128 + (c / 4096) mod 64);
        byte_of (128 + (c / 64) mod 64); byte_of (128 + c mod 64)]
  else Raise UnicodeError.

Fixpoint encode (s : str) : result bytes :=
  match s with
  | [] => Ok []
  | c :: s' =>
      let+ b := utf8_char c in
      let+ r := encode s' in
      Ok (b ++ r)
  end.

(** [s.replace(c, '')] for a one-character [c]. *)
Definition remove_char (c : N) (s : str) : str :=
  List.filter (fun d => negb (d =? c)) s.

(** [math.ceil(n / d)] on non-negative integers. *)
Definition ceil_div (n d : N) : N :=
  if n mod d =? 0 then n / d else n / d + 1.

(** [bytes((n,))]: one byte, or [ValueError] outside [range(256)]. *)
Definition bytes_of_int (n : N) : result bytes :=
  match Byte.of_N n with
  | Some b => Ok [b]
  | None => Raise ValueError
  end.

(** ** JSON documents

    The value [json.loads] returns.  Numbers are the integers: the
    service's documents carry no fractional number in the fields the
    client reads. *)

Unset Elimination Schemes.
Inductive json : Type :=
| JNull
| JBool (b : bool)
| JInt (n : Z)
| JStr (s : list N)
| JArr (items : list json)
| JObj (fields : list (list N * json)).
Set Elimination Schemes.

Fixpoint assoc {V} (k : str) (d : list (list N * V)) : option V :=
  match d with
  | [] => None
  | (k', v) :: d' => if str_eqb k' k then Some v else assoc k d'
  end.

(** [j[k]] with a string key. *)
Definition subscript (j : json) (k : str) : result json :=
  match j with
  | JObj d => match assoc k d with Some v => Ok v | None => Raise KeyError end
  | _ => Raise TypeError
  end.

Fixpoint is_prefix (a s : str) : bool :=
  match a, s with
  | [], _ => true
  | x :: a', y :: s' => (x =? y) && is_prefix a' s'
  | _ :: _, [] => false
  end.

Fixpoint is_substring (a s : str) : bool :=
  is_prefix a s || match s with [] => false | _ :: s' => is_substring a s' end.

Definition is_the_string (k : str) (j : json) : bool :=
  match j with
  | JStr s => str_eqb s k
  | _ => false
  end.

(** [k in j] with a string [k]: a key of a dict, an element of a list, a
    substring of a string; the other values are not iterable. *)
Definition contains (k : str) (j : json) : result bool :=
  match j with
  | JObj d => Ok (match assoc k d with Some _ => true | None => false end)
  | JArr l => Ok (existsb (is_the_string k) l)
  | JStr s => Ok (is_substring k s)
  | _ => Raise TypeError
  end.

(** [j == n] for an integer literal [n]; [False == 0] and [True == 1]. *)
Definition eq_int (j : json) (n : Z) : bool :=
  match j with
  | JInt m => (m =? n)%Z
  | JBool b => ((if b then 1 else 0) =? n)%Z
  | _ => false
  end.

(** A value used where a [str] is required. *)
Definition as_str (j : json) : result (list N) :=
  match j with
  | JStr s => Ok s
  | _ => Raise TypeError
  end.

(** A value used where an [int] is required ([bool] is an [int]). *)
Definition as_int (j : json) : result Z :=
  match j with
  | JInt n => Ok n
  | JBool b => Ok (if b then 1 else 0)%Z
  | _ => Raise TypeError
  end.

(** ** Hexadecimal text: [bytes.fromhex], [binascii.hexlify], [hexdigest] *)

Definition hex_value (c : N) : option N :=
  if (48 <=? c) && (c <=? 57) then Some (c - 48)
  else if (97 <=? c) && (c <=? 102) then Some (c - 87)
  else if (65 <=? c) && (c <=? 70) then Some (c - 55)
  else None.

Definition is_ascii_space (c : N) : bool :=
  (9 <=? c) && (c <=? 13) || (c =? 32).

(** Whitespace may stand between two bytes, never inside one. *)
Fixpoint fromhex (s : str) : result bytes :=
  match s with
  | [] => Ok []
  | c :: s' =>
      if is_ascii_space c then fromhex s'
      else
        match hex_value c, s' with
        | Some hi, d :: s'' =>
            match hex_value d with
            | Some lo =>
                let+ r := fromhex s'' in Ok (byte_of (16 * hi + lo) :: r)
            | None => Raise ValueError
            end
        | _, _ => Raise ValueError
        end
  end.

Definition hex_digit (n : N) : N := if n <? 10 then 48 + n else 87 + n.

Definition hexlify (b : bytes) : str :=
  flat_map (fun x => [hex_digit (Byte.to_N x / 16); hex_digit (Byte.to_N x mod 16)]) b.

(** ** The cryptographic primitives

    [hashlib] and the [cryptography] package, as the client calls them.
    [aes_new] stands for building the [Cipher] object, which checks the
    sizes of key and IV; the two [aes_cbc] functions stand for
    [update(data) + finalize()], which refuse data that is not a whole
    number of blocks. *)

Class Crypto : Type := {
  sha256 : list byte -> list byte;
  md5 : list byte -> list byte;
  pbkdf2_hmac_sha256 : list byte -> list byte -> Z -> nat -> result (list byte);
  aes_new : list byte -> list byte -> result unit;
  aes_cbc_encrypt : list byte -> list byte -> list byte -> result (list byte);
  aes_cbc_decrypt : list byte -> list byte -> list byte -> result (list byte);
}.

(** ** The primitives themselves

    SHA-256, MD5, HMAC, PBKDF2 and AES in CBC mode, written out so that the
    client can be run on concrete inputs.  Inside, a byte or a 32-bit word
    is a number in [N]. *)

Module Word.

Definition mask : N := 4294967295.

(** Addition modulo 2^32. *)
Definition add (a b : N) : N := N.land (a + b) mask.

Definition rotl (n x : N) : N :=
  N.lor (N.land (N.shiftl x n) mask) (N.shiftr x (32 - n)).

Definition rotr (n x : N) : N := rotl (32 - n) x.

Definition neg (x : N) : N := N.lxor x mask.

(** The [k] low bytes of [x], lowest first. *)
Fixpoint to_le (k : nat) (x : N) : list N :=
  match k with
  | O => []
  | S k' => N.land x 255 :: to_le k' (N.shiftr x 8)
  end.

Definition to_be (k : nat) (x : N) : list N := rev (to_le k x).

Definition of_be (b : list N) : N := fold_left (fun acc x => acc * 256 + x) b 0.

Definition of_le (b : list N) : N := of_be (rev b).

(** A list cut into blocks of [n] elements. *)
Fixpoint blocks {A} (fuel n : nat) (l : list A) : list (list A) :=
  match fuel, l with
  | S fuel', _ :: _ => take n l :: blocks fuel' n (drop n l)
  | _, _ => []
  end.

Definition chunks {A} (n : nat) (l : list A) : list (list A) :=
  blocks (length l) n l.

Definition xor_bytes (a b : list N) : list N := zip_with N.lxor a b.

(** Message, a 1 bit, zeros, and the length in bits on eight bytes. *)
Definition pad (length_bytes : N -> list N) (msg : list N) : list N :=
  let l := length msg in
  msg ++ [128] ++ repeat 0 ((64 - (l + 9) mod 64) mod 64)%nat
      ++ length_bytes (8 * N.of_nat l).

End Word.

Module SHA256.
Import Word.

Definition K : list N :=
  [
    1116352408; 1899447441; 3049323471; 3921009573; 961987163; 1508970993;
    2453635748; 2870763221; 3624381080; 310598401; 607225278; 1426881987;
    1925078388; 2162078206; 2614888103; 3248222580; 3835390401; 4022224774;
    264347078; 604807628; 770255983; 1249150122; 1555081692; 1996064986;
    2554220882; 2821834349; 2952996808; 3210313671; 3336571891; 3584528711;
    113926993; 338241895; 666307205; 773529912; 1294757372; 1396182291;
    1695183700; 1986661051; 2177026350; 2456956037; 2730485921; 2820302411;
    3259730800; 3345764771; 3516065817; 3600352804; 4094571909; 275423344;
    430227734; 506948616; 659060556; 883997877; 958139571; 1322822218;
    1537002063; 1747873779; 1955562222; 2024104815; 2227730452; 2361852424;
    2428436474; 2756734187; 3204031479; 3329325298
  ].

Definition H0 : list N :=
  [
    1779033703; 3144134277; 1013904242; 2773480762;
    1359893119; 2600822924; 528734635; 1541459225
  ].

Definition Ch (x y z : N) : N := N.lxor (N.land x y) (N.land (neg x) z).
Definition Maj (x y z : N) : N :=
  N.lxor (N.land x y) (N.lxor (N.land x z) (N.land y z)).
Definition S0 (x : N) : N := N.lxor (rotr 2 x) (N.lxor (rotr 13 x) (rotr 22 x)).
Definition S1 (x : N) : N := N.lxor (rotr 6 x) (N.lxor (rotr 11 x) (rotr 25 x)).
Definition s0 (x : N) : N := N.lxor (rotr 7 x) (N.lxor (rotr 18 x) (N.shiftr x 3)).
Definition s1 (x : N) : N := N.lxor (rotr 17 x) (N.lxor (rotr 19 x) (N.shiftr x 10)).

(** The message schedule, [n] more words after those of [w]. *)
Fixpoint schedule (n : nat) (w : list N) : list N :=
  match n with
  | O => w
  | S n' =>
      let t := length w in
      let at_ i := nth (t - i) w 0 in
      schedule n'
        (w ++ [add (add (s1 (at_ 2%nat)) (at_ 7%nat))
                   (add (s0 (at_ 15%nat)) (at_ 16%nat))])
  end.

Definition round (v : list N) (kw : N * N) : list N :=
  match v with
  | [a; b; c; d; e; f; g; h] =>
      let t1 := add (add (add h (S1 e)) (add (Ch e f g) (fst kw))) (snd kw) in
      let t2 := add (S0 a) (Maj a b c) in
      [add t1 t2; a; b; c; add d t1; e; f; g]
  | _ => v
  end.

Definition compress (h : list N) (block : list N) : list N :=
  let w := schedule 48 (map of_be (chunks 4 block)) in
  zip_with add h (fold_left round (combine K w) h).

Definition digest_N (msg : list N) : list N :=
  flat_map (to_be 4) (fold_left compress (chunks 64 (pad (to_be 8) msg)) H0).

Definition digest (msg : list byte) : list byte :=
  map byte_of (digest_N (map Byte.to_N msg)).

End SHA256.

Module MD5.
Import Word.

Definition T : list N :=
  [
    3614090360; 3905402710; 606105819; 3250441966; 4118548399; 1200080426;
    2821735955; 4249261313; 1770035416; 2336552879; 4294925233; 2304563134;
    1804603682; 4254626195; 2792965006; 1236535329; 4129170786; 3225465664;
    643717713; 3921069994; 3593408605; 38016083; 3634488961; 3889429448;
    568446438; 3275163606; 4107603335; 1163531501; 2850285829; 4243563512;
    1735328473; 2368359562; 4294588738; 2272392833; 1839030562; 4259657740;
    2763975236; 1272893353; 4139469664; 3200236656; 681279174; 3936430074;
    3572445317; 76029189; 3654602809; 3873151461; 530742520; 3299628645;
    4096336452; 1126891415; 2878612391; 4237533241; 1700485571; 2399980690;
    4293915773; 2240044497; 1873313359; 4264355552; 2734768916; 1309151649;
    4149444226; 3174756917; 718787259; 3951481745
  ].

Definition shifts : list N :=
  concat (map (fun r => r ++ r ++ r ++ r)
            [[7; 12; 17; 22]; [5; 9; 14; 20]; [4; 11; 16; 23]; [6; 10; 15; 21]]).

Definition A0 : list N := [1732584193; 4023233417; 2562383102; 271733878].

Definition step (m : list N) (v : list N) (i : nat) : list N :=
  match v with
  | [a; b; c; d] =>
      let '(f, g) :=
        if (i <? 16)%nat then
          (N.lor (N.land b c) (N.land (neg b) d), i)
        else if (i <? 32)%nat then
          (N.lor (N.land d b) (N.land (neg d) c), ((5 * i + 1) mod 16)%nat)
        else if (i <? 48)%nat then
          (N.lxor b (N.lxor c d), ((3 * i + 5) mod 16)%nat)
        else
          (N.lxor c (N.lor b (neg d)), ((7 * i) mod 16)%nat) in
      let f := add (add f a) (add (nth i T 0) (nth g m 0)) in
      [d; add b (rotl (nth i shifts 0) f); b; c]
  | _ => v
  end.

Definition compress (h : list N) (block : list N) : list N :=
  let m := map of_le (chunks 4 block) in
  zip_with add h (fold_left (step m) (seq 0 64) h).

Definition digest_N (msg : list N) : list N :=
  flat_map (to_le 4) (fold_left compress (chunks 64 (pad (to_le 8) msg)) A0).

Definition digest (msg : list byte) : list byte :=
  map byte_of (digest_N (map Byte.to_N msg)).

End MD5.

Module PBKDF2.
Import Word.

Definition hmac (key msg : list N) : list N :=
  let key := if (64 <? length key)%nat then SHA256.digest_N key else key in
  let key := key ++ repeat 0 (64 - length key)%nat in
  SHA256.digest_N
    (map (N.lxor 92) key ++ SHA256.digest_N (map (N.lxor 54) key ++ msg)).

(** [U_1 xor ... xor U_c], given [U_j] in [u] and the sum so far in [acc]. *)
Fixpoint iterate (c : nat) (key u acc : list N) : list N :=
  match c with
  | O => acc
  | S c' => let u' := hmac key u in iterate c' key u' (xor_bytes acc u')
  end.

Definition block (key salt : list N) (c : nat) (i : nat) : list N :=
  let u1 := hmac key (salt ++ to_be 4 (N.of_nat i)) in
  iterate (c - 1) key u1 u1.

(** The library refuses an iteration count below 1. *)
Definition derive (key salt : list byte) (iterations : Z) (len : nat)
  : result (list byte) :=
  if (iterations <? 1)%Z then Raise ValueError
  else
    let key := map Byte.to_N key in
    let salt := map Byte.to_N salt in
    Ok (map byte_of
          (take len
             (flat_map (block key salt (Z.to_nat iterations))
                (seq 1 ((len + 31) / 32))))).

End PBKDF2.

Module AES.
Import Word.

Definition sbox : list N :=
  [
    99; 124; 119; 123; 242; 107; 111; 197; 48; 1; 103; 43; 254; 215; 171; 118;
    202; 130; 201; 125; 250; 89; 71; 240; 173; 212; 162; 175; 156; 164; 114; 192;
    183; 253; 147; 38; 54; 63; 247; 204; 52; 165; 229; 241; 113; 216; 49; 21;
    4; 199; 35; 195; 24; 150; 5; 154; 7; 18; 128; 226; 235; 39; 178; 117;
    9; 131; 44; 26; 27; 110; 90; 160; 82; 59; 214; 179; 41; 227; 47; 132;
    83; 209; 0; 237; 32; 252; 177; 91; 106; 203; 190; 57; 74; 76; 88; 207;
    208; 239; 170; 251; 67; 77; 51; 133; 69; 249; 2; 127; 80; 60; 159; 168;
    81; 163; 64; 143; 146; 157; 56; 245; 188; 182; 218; 33; 16; 255; 243; 210;
    205; 12; 19; 236; 95; 151; 68; 23; 196; 167; 126; 61; 100; 93; 25; 115;
    96; 129; 79; 220; 34; 42; 144; 136; 70; 238; 184; 20; 222; 94; 11; 219;
    224; 50; 58; 10; 73; 6; 36; 92; 194; 211; 172; 98; 145; 149; 228; 121;
    231; 200; 55; 109; 141; 213; 78; 169; 108; 86; 244; 234; 101; 122; 174; 8;
    186; 120; 37; 46; 28; 166; 180; 198; 232; 221; 116; 31; 75; 189; 139; 138;
    112; 62; 181; 102; 72; 3; 246; 14; 97; 53; 87; 185; 134; 193; 29; 158;
    225; 248; 152; 17; 105; 217; 142; 148; 155; 30; 135; 233; 206; 85; 40; 223;
    140; 161; 137; 13; 191; 230; 66; 104; 65; 153; 45; 15; 176; 84; 187; 22
  ].

Definition inv_sbox : list N :=
  [
    82; 9; 106; 213; 48; 54; 165; 56; 191; 64; 163; 158; 129; 243; 215; 251;
    124; 227; 57; 130; 155; 47; 255; 135; 52; 142; 67; 68; 196; 222; 233; 203;
    84; 123; 148; 50; 166; 194; 35; 61; 238; 76; 149; 11; 66; 250; 195; 78;
    8; 46; 161; 102; 40; 217; 36; 178; 118; 91; 162; 73; 109; 139; 209; 37;
    114; 248; 246; 100; 134; 104; 152; 22; 212; 164; 92; 204; 93; 101; 182; 146;
    108; 112; 72; 80; 253; 237; 185; 218; 94; 21; 70; 87; 167; 141; 157; 132;
    144; 216; 171; 0; 140; 188; 211; 10; 247; 228; 88; 5; 184; 179; 69; 6;
    208; 44; 30; 143; 202; 63; 15; 2; 193; 175; 189; 3; 1; 19; 138; 107;
    58; 145; 17; 65; 79; 103; 220; 234; 151; 242; 207; 206; 240; 180; 230; 115;
    150; 172; 116; 34; 231; 173; 53; 133; 226; 249; 55; 232; 28; 117; 223; 110;
    71; 241; 26; 113; 29; 41; 197; 137; 111; 183; 98; 14; 170; 24; 190; 27;
    252; 86; 62; 75; 198; 210; 121; 32; 154; 219; 192; 254; 120; 205; 90; 244;
    31; 221; 168; 51; 136; 7; 199; 49; 177; 18; 16; 89; 39; 128; 236; 95;
    96; 81; 127; 169; 25; 181; 74; 13; 45; 229; 122; 159; 147; 201; 156; 239;
    160; 224; 59; 77; 174; 42; 245; 176; 200; 235; 187; 60; 131; 83; 153; 97;
    23; 43; 4; 126; 186; 119; 214; 38; 225; 105; 20; 99; 85; 33; 12; 125
  ].

Definition sub (x : N) : N := nth (N.to_nat x) sbox 0.
Definition inv_sub (x : N) : N := nth (N.to_nat x) inv_sbox 0.

(** Multiplication by x in GF(2^8). *)
Definition xtime (x : N) : N :=
  let y := 2 * x in if y <? 256 then y else N.lxor (y - 256) 27.

Definition mul3 (x : N) : N := N.lxor (xtime x) x.
Definition mul9 (x : N) : N := N.lxor (xtime (xtime (xtime x))) x.
Definition mul11 (x : N) : N :=
  N.lxor (xtime (xtime (xtime x))) (N.lxor (xtime x) x).
Definition mul13 (x : N) : N :=
  N.lxor (xtime (xtime (xtime x))) (N.lxor (xtime (xtime x)) x).
Definition mul14 (x : N) : N :=
  N.lxor (xtime (xtime (xtime x))) (N.lxor (xtime (xtime x)) (xtime x)).

Definition xor4 (a b c d : N) : N := N.lxor a (N.lxor b (N.lxor c d)).

Definition mix_column (col : list N) : list N :=
  match col with
  | [a; b; c; d] =>
      [xor4 (xtime a) (mul3 b) c d; xor4 a (xtime b) (mul3 c) d;
       xor4 a b (xtime c) (mul3 d); xor4 (mul3 a) b c (xtime d)]
  | _ => col
  end.

Definition inv_mix_column (col : list N) : list N :=
  match col with
  | [a; b; c; d] =>
      [xor4 (mul14 a) (mul11 b) (mul13 c) (mul9 d);
       xor4 (mul9 a) (mul14 b) (mul11 c) (mul13 d);
       xor4 (mul13 a) (mul9 b) (mul14 c) (mul11 d);
       xor4 (mul11 a) (mul13 b) (mul9 c) (mul14 d)]
  | _ => col
  end.

(** The state is held column by column, as the block's bytes come. *)
Definition permute (idx : list nat) (s : list N) : list N :=
  map (fun i => nth i s 0) idx.

Definition shift_rows : list N -> list N :=
  permute [0; 5; 10; 15; 4; 9; 14; 3; 8; 13; 2; 7; 12; 1; 6; 11]%nat.

Definition inv_shift_rows : list N -> list N :=
  permute [0; 13; 10; 7; 4; 1; 14; 11; 8; 5; 2; 15; 12; 9; 6; 3]%nat.

Definition mix_columns (s : list N) : list N :=
  flat_map mix_column (chunks 4 s).

Definition inv_mix_columns (s : list N) : list N :=
  flat_map inv_mix_column (chunks 4 s).

Definition rot_word (w : list N) : list N :=
  match w with
  | a :: r => r ++ [a]
  | [] => []
  end.

(** [n] more words of the key schedule after those of [w]; [rcon] is the
    round constant to use next. *)
Fixpoint expand (n nk : nat) (rcon : N) (w : list (list N)) : list (list N) :=
  match n with
  | O => w
  | S n' =>
      let i := length w in
      let prev := nth (i - 1) w [] in
      let '(temp, rcon') :=
        if (i mod nk =? 0)%nat then
          (xor_bytes (map sub (rot_word prev)) [rcon; 0; 0; 0], xtime rcon)
        else if (6 <? nk)%nat && (i mod nk =? 4)%nat then (map sub prev, rcon)
        else (prev, rcon) in
      expand n' nk rcon' (w ++ [xor_bytes (nth (i - nk) w []) temp])
  end.

(** The round keys, one block each. *)
Definition round_keys (key : list N) : list (list N) :=
  let nk := (length key / 4)%nat in
  map (@concat N)
    (chunks 4 (expand (4 * (nk + 7) - nk) nk 1 (chunks 4 key))).

Definition encrypt_round (s rk : list N) : list N :=
  xor_bytes (mix_columns (shift_rows (map sub s))) rk.

Definition encrypt_block (rks : list (list N)) (block : list N) : list N :=
  match rks with
  | rk0 :: rest =>
      let s := fold_left encrypt_round (removelast rest) (xor_bytes block rk0) in
      xor_bytes (shift_rows (map sub s)) (List.last rest [])
  | [] => block
  end.

Definition decrypt_round (s rk : list N) : list N :=
  inv_mix_columns (xor_bytes (map inv_sub (inv_shift_rows s)) rk).

Definition decrypt_block (rks : list (list N)) (block : list N) : list N :=
  match rev rks with
  | rk_last :: rest =>
      let s := fold_left decrypt_round (removelast rest) (xor_bytes block rk_last) in
      xor_bytes (map inv_sub (inv_shift_rows s)) (List.last rest [])
  | [] => block
  end.

Fixpoint cbc_encrypt_blocks (rks : list (list N)) (prev : list N)
    (blocks : list (list N)) : list N :=
  match blocks with
  | [] => []
  | b :: rest =>
      let c := encrypt_block rks (xor_bytes b prev) in
      c ++ cbc_encrypt_blocks rks c rest
  end.

Fixpoint cbc_decrypt_blocks (rks : list (list N)) (prev : list N)
    (blocks : list (list N)) : list N :=
  match blocks with
  | [] => []
  | c :: rest =>
      xor_bytes (decrypt_block rks c) prev ++ cbc_decrypt_blocks rks c rest
  end.

(** [Cipher(algorithms.AES(key), modes.CBC(iv))] *)
Definition new (key iv : list byte) : result unit :=
  if negb (existsb (Nat.eqb (length key)) [16; 24; 32]%nat) then Raise ValueError
  else if negb (length iv =? 16)%nat then Raise ValueError
  else Ok tt.

(** [update(data) + finalize()]: there is no padding, the data must be
    whole blocks. *)
Definition cbc (run : list (list N) -> list N -> list (list N) -> list N)
    (key iv data : list byte) : result (list byte) :=
  if negb (length data mod 16 =? 0)%nat then Raise ValueError
  else
    Ok (map byte_of
          (run (round_keys (map Byte.to_N key)) (map Byte.to_N iv)
             (chunks 16 (map Byte.to_N data)))).

Definition cbc_encrypt : list byte -> list byte -> list byte -> result (list byte) :=
  cbc cbc_encrypt_blocks.

Definition cbc_decrypt : list byte -> list byte -> list byte -> result (list byte) :=
  cbc cbc_decrypt_blocks.

End AES.

Definition primitives : Crypto := {|
  sha256 := SHA256.digest;
  md5 := MD5.digest;
  pbkdf2_hmac_sha256 := PBKDF2.derive;
  aes_new := AES.new;
  aes_cbc_encrypt := AES.cbc_encrypt;
  aes_cbc_decrypt := AES.cbc_decrypt;
|}.

(** ** HTTP *)

Inductive request : Type :=
| POST (url : list N) (data : json)
| GET (url : list N) (params : list (list N * json)).

Record response : Type := {
  status_code : Z;
  text : list N;
  content : list byte;
}.

(** ** mpegutils: the records of the transport-stream parser *)

Record pes_packet : Type := {
  pid : Z;
  payload : option (list byte);
}.

(** ** The Sirius object and the process around it *)

Record channel : Type := {
  channelKey : list N;
  name : list N;
  genre : list N;
}.

Record sirius : Type := {
  config : list (list N * option (list N));
  lineup : gmap Z channel;
  token_cache : gmap (list N) (list N * list N);
  username : option (list N);
  password : option (list N);
  key : option (list byte);
  session_id : option json;
}.

(** What a connection and the clock show from outside: a write with the
    time it happened, a write that raised with the part of its data that
    had gone out before, a sleep with the time it started. *)
Inductive event : Type :=
| Wrote (t : Z) (data : list byte)
| Failed (t : Z) (part : list byte)
| Slept (t : Z) (secs : Z).

(** The loop goes on with a new state, or the handler has returned. *)
Inductive flow (A : Type) : Type :=
| Next (a : A)
| Return.
Arguments Next {A} a.
Arguments Return {A}.

(** State of one [channel_stream] call. *)
Record stream : Type := {
  audio : list byte;
  track_title : list N;
  new_meta : bool;
  start_time : option Z;
}.

(** ** [bytes.decode()]: strict UTF-8 *)

Definition cont (b : byte) : option N :=
  let n := Byte.to_N b in
  if (128 <=? n) && (n <=? 191) then Some (n - 128) else None.

Definition in_range (lo hi : N) (b : byte) : bool :=
  (lo <=? Byte.to_N b) && (Byte.to_N b <=? hi).

Fixpoint decode (b : bytes) : result str :=
  match b with
  | [] => Ok []
  | b0 :: r0 =>
      let n0 := Byte.to_N b0 in
      if n0 <? 128 then let+ s := decode r0 in Ok (n0 :: s)
      else if in_range 194 223 b0 then
        match r0 with
        | b1 :: r1 =>
            match cont b1 with
            | Some c1 => let+ s := decode r1 in Ok ((n0 - 192) * 64 + c1 :: s)
            | None => Raise UnicodeError
            end
        | _ => Raise UnicodeError
        end
      else if in_range 224 239 b0 then
        match r0 with
        | b1 :: b2 :: r2 =>
            match cont b1, cont b2 with
            | Some c1, Some c2 =>
                let c := (n0 - 224) * 4096 + c1 * 64 + c2 in
                if (c <? 2048) || (55296 <=? c) && (c <=? 57343)
                then Raise UnicodeError
                else let+ s := decode r2 in Ok (c :: s)
            | _, _ => Raise UnicodeError
            end
        | _ => Raise UnicodeError
        end
      else if in_range 240 244 b0 then
        match r0 with
        | b1 :: b2 :: b3 :: r3 =>
            match cont b1, cont b2, cont b3 with
            | Some c1, Some c2, Some c3 =>
                let c := (n0 - 240) * 262144 + c1 * 4096 + c2 * 64 + c3 in
                if (c <? 65536) || (1114111 <? c) then Raise UnicodeError
                else let+ s := decode r3 in Ok (c :: s)
            | _, _, _ => Raise UnicodeError
            end
        | _ => Raise UnicodeError
        end
      else Raise UnicodeError
  end.

(** ** [re.search('(.+?)\\?token=([a-f0-9_]+)', s).group(1, 2)]

    The leftmost start wins; from it the first group is as short as it can
    be (one character at least, no line feed) and the second as long as it
    can be. *)

Definition is_token_char (c : N) : bool :=
  (97 <=? c) && (c <=? 102) || (48 <=? c) && (c <=? 57) || (c =? 95).

Fixpoint take_while (f : N -> bool) (s : str) : str :=
  match s with
  | c :: s' => if f c then c :: take_while f s' else []
  | [] => []
  end.

Definition token_mark : str := u "?token=".

(** The rest of a match once the first group holds [g] (not empty). *)
Fixpoint match_rest (g : str) (s : str) : option (str * str) :=
  let here :=
    if is_prefix token_mark s then
      match take_while is_token_char (drop (length token_mark) s) with
      | [] => None
      | tok => Some (g, tok)
      end
    else None in
  match here with
  | Some r => Some r
  | None =>
      match s with
      | c :: s' => if c =? 10 then None else match_rest (g ++ [c]) s'
      | [] => None
      end
  end.

Fixpoint search_token (s : str) : option (str * str) :=
  match s with
  | [] => None
  | c :: s' =>
      match (if c =? 10 then None else match_rest [c] s') with
      | Some r => Some r
      | None => search_token s'
      end
  end.

(** [struct.unpack('<H', b)[0]] *)
Definition unpack_H (b : bytes) : result nat :=
  match b with
  | [lo; hi] => Ok (N.to_nat (Byte.to_N lo + 256 * Byte.to_N hi))
  | _ => Raise StructError
  end.

(** ** [re.search] on the patterns of the route table

    The patterns of [do_GET] are sequences of literal characters, the
    anchors [^] and [$], and named groups of the form [(?P<name>x+)] with
    [x] either [.] or [[0-9]].  A pattern is written as the list of its
    items, in the order of the source text. *)

Inductive atom : Type :=
| Dot      (* [.]: any character but a line feed *)
| Digit.   (* [[0-9]] *)

Inductive item : Type :=
| Caret                              (* [^] *)
| Dollar                             (* [$] *)
| Lit (c : N)                        (* a character that stands for itself *)
| Named (name : string) (a : atom).  (* [(?P<name>a+)], greedy *)

Definition accepts (a : atom) (c : N) : bool :=
  match a with
  | Dot => negb (c =? 10)
  | Digit => (48 <=? c) && (c <=? 57)
  end.

(** [$] holds at the end of the text and just before a line feed that
    ends it. *)
Definition at_end (s : str) : bool :=
  match s with
  | [] => true
  | [c] => c =? 10
  | _ => false
  end.

(** The groups of a match, as [groupdict()] gives them. *)
Definition groupdict : Type := list (string * list N).

(** A match of [p] that begins where [s] begins; [bos] tells whether
    that is the beginning of the whole text.  A group takes as many
    characters as it can and gives them back one by one while the rest of
    the pattern does not match. *)
Fixpoint match_here (p : list item) (bos : bool) (s : str) : option groupdict :=
  match p with
  | [] => Some []
  | Caret :: p' => if bos then match_here p' bos s else None
  | Dollar :: p' => if at_end s then match_here p' bos s else None
  | Lit c :: p' =>
      match s with
      | d :: s' => if d =? c then match_here p' false s' else None
      | [] => None
      end
  | Named name a :: p' =>
      (fix give_back (k : nat) : option groupdict :=
         match k with
         | O => None
         | S k' =>
             match match_here p' false (drop k s) with
             | Some g => Some ((name, take k s) :: g)
             | None => give_back k'
             end
         end) (length (take_while (accepts a) s))
  end.

(** [re.search(p, s)]: the first position from which [p] matches. *)
Fixpoint search_from (p : list item) (bos : bool) (s : str) : option groupdict :=
  match match_here p bos s with
  | Some g => Some g
  | None =>
      match s with
      | _ :: s' => search_from p false s'
      | [] => None
      end
  end.

Definition re_search (p : list item) (s : str) : option groupdict :=
  search_from p true s.

Definition lits (s : string) : list item := map Lit (u s).

(** ** server.py: [SeriousRequestHandler.do_GET]

    The handlers are named, not run: [do_GET] is taken up to the call of
    the handler with the groups of the match as keyword arguments. *)

Inductive handler : Type :=
| index
| static_file
| channel_stream
| channel_metadata_handler
| file_not_found.

Definition routes : list (list item * handler) :=
  [ (Caret :: lits "/" ++ [Dollar], index);
    (Caret :: lits "/static/" ++ [Named "path" Dot; Dollar], static_file);
    (Caret :: lits "/channel/" ++ [Named "channel_number" Digit; Dollar],
     channel_stream);
    (Caret :: lits "/channel/" ++ [Named "channel_number" Digit] ++ lits "/"
       ++ [Named "rewind" Digit; Dollar],
     channel_stream);
    (Caret :: lits "/metadata/" ++ [Named "channel_number" Digit; Dollar],
     channel_metadata_handler);
    (Caret :: lits "/metadata/" ++ [Named "channel_number" Digit] ++ lits "/"
       ++ [Named "rewind" Digit; Dollar],
     channel_metadata_handler) ].

(** The handler that is called and its keyword arguments. *)
Fixpoint first_route (table : list (list item * handler)) (path : str)
  : handler * groupdict :=
  match table with
  | [] => (file_not_found, [])
  | (route_path, route_handler) :: table' =>
      match re_search route_path path with
      | Some g => (route_handler, g)
      | None => first_route table' path
      end
  end.

Definition do_GET (path : str) : handler * groupdict := first_route routes path.

(** * The program *)

Section Gateway.

Context {crypto : Crypto}.

(** The upstream service: a state and its answer to a request.
    [http_json] stands for [json.loads(requests.post/get(...).text)],
    [http_get] for [requests.get(...)] read through its response object. *)
Context {U : Type}.
Variable http_json : U -> request -> U * result json.
Variable http_get : U -> request -> U * result response.

(** mpegutils is not part of the sources at hand; its three parsers are
    taken as they are called. *)
Variable parse_transport_stream : list byte -> list pes_packet.
Variable parse_packetized_elementary_stream : list byte -> list (list byte).
Variable parse_sxm_metadata : list byte -> option (list N * list N * list N).

(** Time is counted in milliseconds.  [elapse] lists the time that passes
    before each operation that reaches outside the process (a request, a
    write, a reading of the clock); [faults] says which writes to the
    client fail, how, and after how many bytes: [wfile.write] hands the
    data to [sendall], which may have sent a part when it raises. *)
Record world : Type := {
  sx : sirius;
  up : U;
  sent : list request;
  now : Z;
  elapse : list N;
  faults : list (option (exn * nat));
  trace : list event;
}.

Definition M (A : Type) : Type := world -> result A * world.

Definition ret {A} (a : A) : M A := fun w => (Ok a, w).
Definition raise {A} (e : exn) : M A := fun w => (Raise e, w).
Definition lift {A} (r : result A) : M A := fun w => (r, w).

Definition bind {A B} (m : M A) (k : A -> M B) : M B :=
  fun w =>
    match m w with
    | (Ok a, w') => k a w'
    | (Raise e, w') => (Raise e, w')
    end.

Notation "'let*' x ':=' m 'in' k" := (bind m (fun x => k))
  (at level 10, x pattern, m at level 200, k at level 200).

(** [try: m except (ConnectionResetError, ConnectionAbortedError): h] *)
Definition except_connection_lost {A} (m : M A) (h : M A) : M A :=
  fun w =>
    match m w with
    | (Raise ConnectionResetError, w') => h w'
    | (Raise ConnectionAbortedError, w') => h w'
    | r => r
    end.

(** An attribute that may not have been set yet. *)
Definition attr {A} (a : option A) : M A :=
  match a with
  | Some x => ret x
  | None => raise AttributeError
  end.

Definition tick (w : world) : world :=
  match elapse w with
  | [] => w
  | d :: ds =>
      {| sx := sx w; up := up w; sent := sent w; now := now w + Z.of_N d;
         elapse := ds; faults := faults w; trace := trace w |}
  end.

Definition get_sx : M sirius := fun w => (Ok (sx w), w).

Definition put_sx (s : sirius) : M unit :=
  fun w =>
    (Ok tt, {| sx := s; up := up w; sent := sent w; now := now w;
               elapse := elapse w; faults := faults w; trace := trace w |}).

Definition exchange {A} (serve : U -> request -> U * result A) (r : request)
  : M A :=
  fun w =>
    let w := tick w in
    let (u', a) := serve (up w) r in
    (a, {| sx := sx w; up := u'; sent := sent w ++ [r]; now := now w;
           elapse := elapse w; faults := faults w; trace := trace w |}).

Definition requests_json : request -> M json := exchange http_json.
Definition requests_get : request -> M response := exchange http_get.

Definition time_time : M Z := fun w => let w := tick w in (Ok (now w), w).

Definition time_sleep (ms : Z) : M unit :=
  fun w =>
    if (ms <? 0)%Z then (Raise ValueError, w)
    else (Ok tt, {| sx := sx w; up := up w; sent := sent w; now := now w + ms;
                    elapse := elapse w; faults := faults w;
                    trace := trace w ++ [Slept (now w) ms] |}).

Definition wfile_write (data : bytes) : M unit :=
  fun w =>
    let w := tick w in
    let wrote fs :=
      {| sx := sx w; up := up w; sent := sent w; now := now w;
         elapse := elapse w; faults := fs;
         trace := trace w ++ [Wrote (now w) data] |} in
    match faults w with
    | Some (e, n) :: fs =>
        (Raise e, {| sx := sx w; up := up w; sent := sent w; now := now w;
                     elapse := elapse w; faults := fs;
                     trace := trace w ++ [Failed (now w) (take n data)] |})
    | None :: fs => (Ok tt, wrote fs)
    | [] => (Ok tt, wrote [])
    end.

(** ** sirius.py: class [Sirius] *)

Definition HARDWARE_ID : str := u "00000000".
Definition ETHERNET_MAC : str := u "0000CAFEBABE".
Definition KEY_LENGTH : nat := 16.

(** [bytes.fromhex(HARDWARE_ID + ETHERNET_MAC)] *)
Definition player_id : bytes :=
  [x00; x00; x00; x00; x00; x00; xca; xfe; xba; xbe].

Definition PACKET_AES_KEY : str := u "D0DB1CA3B300831A301AF9144FC6986A".

(** [bytes(16)] *)
Definition zero_iv : bytes := repeat x00 16.

(** [self.config.findall("./consumerConfig/config[@name='...']")[0].attrib['value']] *)
Definition lookup_config (name : str) (cfg : list (list N * option (list N)))
  : result str :=
  match List.filter (fun e => str_eqb (fst e) name) cfg with
  | [] => Raise IndexError
  | (_, Some v) :: _ => Ok v
  | (_, None) :: _ => Raise KeyError
  end.

Definition config_value (name : str) : M str :=
  let* s := get_sx in lift (lookup_config name (config s)).

Definition _encrypt (plaintext : str) : M bytes :=
  let* s := get_sx in
  let* k := attr (key s) in
  let* _ := lift (aes_new k zero_iv) in
  let* data := lift (fromhex plaintext) in
  lift (aes_cbc_encrypt k zero_iv data).

Definition _decrypt (ciphertext : json) : M bytes :=
  let* s := get_sx in
  let* k := attr (key s) in
  let* _ := lift (aes_new k zero_iv) in
  let* hex := lift (as_str ciphertext) in
  let* data := lift (fromhex hex) in
  lift (aes_cbc_decrypt k zero_iv data).

Definition _decrypt_packet (data : bytes) : M bytes :=
  let* k := lift (fromhex PACKET_AES_KEY) in
  let iv := take 16 data in
  let* _ := lift (aes_new k iv) in
  lift (aes_cbc_decrypt k iv (drop 16 data)).

Definition set_credentials (name pass : str) (s : sirius) : sirius :=
  {| config := config s; lineup := lineup s; token_cache := token_cache s;
     username := Some name; password := Some pass; key := key s;
     session_id := session_id s |}.

Definition set_key (k : bytes) (s : sirius) : sirius :=
  {| config := config s; lineup := lineup s; token_cache := token_cache s;
     username := username s; password := password s; key := Some k;
     session_id := session_id s |}.

Definition set_session_id (sid : json) (s : sirius) : sirius :=
  {| config := config s; lineup := lineup s; token_cache := token_cache s;
     username := username s; password := password s; key := key s;
     session_id := Some sid |}.

Definition set_token (channel_key : str) (t : str * str) (s : sirius) : sirius :=
  {| config := config s; lineup := lineup s;
     token_cache := <[channel_key := t]> (token_cache s);
     username := username s; password := password s; key := key s;
     session_id := session_id s |}.

Definition update_sx (f : sirius -> sirius) : M unit :=
  let* s := get_sx in put_sx (f s).

Definition initiate_path : str := u "/en-us/json/user/login/v3/initiate".
Definition complete_path : str := u "/en-us/json/user/login/v3/complete".

Definition auth_request (name : str) : json :=
  JObj [(u "AuthenticationRequest",
         JObj [(u "userName", JStr name); (u "consumerType", JStr (u "ump2"))])].

Definition auth_response (name : str) (authentication_data : str) : json :=
  JObj [(u "AuthenticationRequest",
         JObj [(u "userName", JStr name);
               (u "consumerType", JStr (u "ump2"));
               (u "currency", JInt 840);
               (u "playerIdentification",
                JObj [(u "hardwareIdentification", JStr HARDWARE_ID);
                      (u "ethernetMac", JStr ETHERNET_MAC)]);
               (u "authenticationData", JStr authentication_data)])].

(** ['10' * 16] *)
Definition padding_hex : str := concat (repeat (u "10") 16).

(** [login], first half: the challenge, the key and the encrypted
    message.  Returns the base URL and [authenticationData]. *)
Definition authenticate (name pass : str) : M (str * str) :=
  let* _ := update_sx (set_credentials name pass) in
  let* auth_url := config_value (u "AuthenticationBaseUrl") in
  let* doc := requests_json (POST (auth_url ++ initiate_path) (auth_request name)) in
  let* auth_challenge := lift (subscript doc (u "AuthenticationResponse")) in
  let* challenge := lift (subscript auth_challenge (u "authenticationChallenge")) in
  let* salt := lift (subscript auth_challenge (u "salt")) in
  let* iterations := lift (subscript auth_challenge (u "iterationsCount")) in
  let* challenge := lift (as_str challenge) in
  let* seed := lift (fromhex (HARDWARE_ID ++ ETHERNET_MAC ++ challenge)) in
  let message_hash := hexlify (sha256 seed) in
  let message := challenge ++ take 32 message_hash in
  let* pass_bytes := lift (encode pass) in
  let password_hash := hexlify (md5 pass_bytes) in
  let* salt := lift (as_str salt) in
  let* salt := lift (fromhex salt) in
  let* iterations := lift (as_int iterations) in
  let* material := lift (fromhex password_hash) in
  let* k := lift (pbkdf2_hmac_sha256 material salt iterations KEY_LENGTH) in
  let* _ := update_sx (set_key k) in
  let* password_encrypted := _encrypt (message ++ padding_hex) in
  ret (auth_url, hexlify password_encrypted).

(** [login], second half: the completion request and its outcome. *)
Definition complete (name auth_url authentication_data : str) : M unit :=
  let* doc := requests_json
                (POST (auth_url ++ complete_path)
                      (auth_response name authentication_data)) in
  let* auth_result := lift (subscript doc (u "AuthenticationResponse")) in
  let* status := lift (subscript auth_result (u "status")) in
  if eq_int status 0 then
    let* messages := lift (subscript auth_result (u "messages")) in
    let* code := lift (subscript messages (u "code")) in
    if eq_int code 401 then raise (SiriusException "Invalid password")
    else raise (SiriusException "Unknown login error")
  else
    let* sid := lift (subscript auth_result (u "sessionId")) in
    update_sx (set_session_id sid).

Definition login (name pass : str) : M unit :=
  let* a := authenticate name pass in
  complete name (fst a) (snd a).

Definition token_url_of (token_url channel_key : str) : str :=
  token_url ++ u "/en-us/json/v3/streaming/ump2/" ++ channel_key ++ u "/".

(** ['tokenResponse' in resp and 'tokenData' in resp['tokenResponse']] *)
Definition has_token_data (resp : json) : result bool :=
  let+ a := contains (u "tokenResponse") resp in
  if a then
    let+ r := subscript resp (u "tokenResponse") in
    contains (u "tokenData") r
  else Ok false.

(** The branch of [_channel_token] that reads the token out of a
    response. *)
Definition read_token (channel_key : str) (resp : json) : M (str * str) :=
  let* token_response := lift (subscript resp (u "tokenResponse")) in
  let* blob := lift (subscript token_response (u "tokenData")) in
  let* token_data := _decrypt blob in
  let* len := lift (unpack_H (take 2 (drop 4 token_data))) in
  let* s := lift (decode (take len (drop 6 token_data))) in
  match search_token s with
  | None => raise AttributeError
  | Some t =>
      let* _ := update_sx (set_token channel_key t) in
      ret t
  end.

(** [depth] is the number of nested calls the interpreter still allows
    ([sys.getrecursionlimit()] less the frames in use); running out of it
    is [RecursionError]. *)
Fixpoint _channel_token (depth : nat) (channel_key : str) (invalidate : bool)
  : M (str * str) :=
  match depth with
  | O => raise RecursionError
  | S depth =>
      let* s := get_sx in
      match (if invalidate then None else token_cache s !! channel_key) with
      | Some t => ret t
      | None =>
          let* token_url := config_value (u "TokenBaseUrl") in
          let* sid := attr (session_id s) in
          let* resp := requests_json
                         (GET (token_url_of token_url channel_key)
                              [(u "sessionId", sid)]) in
          let* usable := lift (has_token_data resp) in
          if usable then read_token channel_key resp
          else
            let* s := get_sx in
            let* name := attr (username s) in
            let* pass := attr (password s) in
            let* _ := login name pass in
            _channel_token depth channel_key true
      end
  end.

Definition hq_path (channel_url channel_key : str) : str :=
  channel_url ++ u "HLS_" ++ channel_key ++ u "_64k/".

Fixpoint _get_token_resource (depth : nat) (channel_key file : str)
  : M response :=
  match depth with
  | O => raise RecursionError
  | S depth =>
      let* t := _channel_token depth channel_key false in
      let (channel_url, token) := t in
      let* resp := requests_get
                     (GET (hq_path channel_url channel_key ++ file)
                          [(u "token", JStr token)]) in
      if (status_code resp =? 200)%Z then ret resp
      else if (status_code resp =? 404)%Z then
        raise (SiriusException "Resource not found")
      else
        let* _ := _channel_token depth channel_key true in
        _get_token_resource depth channel_key file
  end.

Definition get_playlist (depth : nat) (channel_key : str) : M str :=
  let* resp := _get_token_resource depth channel_key
                 (channel_key ++ u "_64k_large.m3u8") in
  ret (text resp).

Definition get_segment (depth : nat) (channel_key segment : str) : M bytes :=
  let* resp := _get_token_resource depth channel_key segment in
  _decrypt_packet (content resp).

(** The locals of a [packet_generator] between two [next] calls. *)
Record generator : Type := {
  playlist : list (list N);
  entry : option (list N);
}.

Definition new_generator : generator := {| playlist := []; entry := None |}.

(** One [next] on the generator: [Some] for the block it yields, [None]
    when it is still sleeping and polling after [rounds] turns of its
    loop. *)
Fixpoint packet_generator_next (rounds depth : nat) (channel_key : str)
    (rewind : Z) (g : generator) : M (option (bytes * generator)) :=
  match rounds with
  | O => ret None
  | S rounds =>
      let* queue :=
        if (length (playlist g) <? 3)%nat then
          let* resp := get_playlist depth channel_key in
          let* new_entries := lift (_filter_playlist resp (entry g) rewind) in
          ret (playlist g
               ++ List.filter (fun x => negb (py_in x (playlist g))) new_entries)
        else ret (playlist g) in
      match queue with
      | e :: queue' =>
          let* segment := get_segment depth channel_key e in
          ret (Some (segment, {| playlist := queue'; entry := Some e |}))
      | [] =>
          let* _ := time_sleep 10000 in
          packet_generator_next rounds depth channel_key rewind
            {| playlist := []; entry := entry g |}
      end
  end.

(** ** server.py: [SeriousRequestHandler.channel_stream]

    The part embedded is the streaming loop; the look-up of the channel
    and the ICY headers before it are HTTP plumbing, and the [logging]
    calls are left out. *)

Definition AUDIO_PID : Z := 768.
Definition METADATA_PID : Z := 1024.
Set Warnings "-abstract-large-number".
Definition METAINT : nat := 32768.
Set Warnings "abstract-large-number".
Definition FOUR_SECONDS : Z := 4000.

Definition apostrophe : N := 39.

Definition initial_stream : stream :=
  {| audio := []; track_title := []; new_meta := false; start_time := None |}.

(** ['{} - {}'.format(metadata[1], metadata[0])] *)
Definition title_of (metadata : str * str * str) : str :=
  let '(title, artist, _) := metadata in artist ++ u " - " ++ title.

(** The two branches on [pid] at the head of the loop body. *)
Definition absorb (pid : Z) (es_payload : bytes) (st : stream) : stream :=
  if (pid =? AUDIO_PID)%Z then
    {| audio := audio st ++ es_payload; track_title := track_title st;
       new_meta := new_meta st; start_time := start_time st |}
  else if (pid =? METADATA_PID)%Z then
    match parse_sxm_metadata es_payload with
    | Some metadata =>
        let new_title := title_of metadata in
        if negb (str_eqb new_title (track_title st)) then
          {| audio := audio st; track_title := new_title;
             new_meta := true; start_time := start_time st |}
        else st
    | None => st
    end
  else st.

Definition stream_title (title : str) : str :=
  u "StreamTitle='" ++ remove_char apostrophe title ++ u "';".

(** [meta_buffer] when [new_meta] is set. *)
Definition title_frame (title : str) : result bytes :=
  let+ meta_title := encode (stream_title title) in
  let meta_length := ceil_div (N.of_nat (length meta_title)) 16 in
  let+ head := bytes_of_int meta_length in
  Ok (head ++ meta_title
      ++ repeat x00 (N.to_nat meta_length * 16 - length meta_title)).

(** The sleep between the write and the new time stamp. *)
Definition pace (start : option Z) : M unit :=
  match start with
  | Some t0 =>
      let* t := time_time in
      if (t - t0 <? FOUR_SECONDS)%Z then
        let* t := time_time in
        time_sleep (FOUR_SECONDS - (t - t0))
      else ret tt
  | None => ret tt
  end.

(** The body of the loop over the packets of one elementary stream. *)
Definition es_step (pid : Z) (es_payload : bytes) (st : stream)
  : M (flow stream) :=
  let st := absorb pid es_payload st in
  if (METAINT <=? length (audio st))%nat then
    let* meta_buffer :=
      if new_meta st then lift (title_frame (track_title st))
      else ret [x00] in
    let audio_interval := take METAINT (audio st) in
    let rest := drop METAINT (audio st) in
    except_connection_lost
      (let* _ := wfile_write audio_interval in
       let* _ := wfile_write meta_buffer in
       let* _ := pace (start_time st) in
       let* t := time_time in
       ret (Next {| audio := rest; track_title := track_title st;
                    new_meta := false; start_time := Some t |}))
      (ret Return)
  else ret (Next st).

(** [for x in l: body], where the body may return from the handler. *)
Fixpoint for_each {X A} (body : X -> A -> M (flow A)) (l : list X) (a : A)
  : M (flow A) :=
  match l with
  | [] => ret (Next a)
  | x :: l' =>
      let* r := body x a in
      match r with
      | Next a' => for_each body l' a'
      | Return => ret Return
      end
  end.

(** [pes_streams[pid].extend(payload)] on a [defaultdict(bytearray)],
    which keeps its keys in the order of their first use. *)
Fixpoint extend (p : Z) (data : bytes) (d : list (Z * list byte))
  : list (Z * list byte) :=
  match d with
  | [] => [(p, data)]
  | (q, b) :: d' =>
      if (q =? p)%Z then (q, b ++ data) :: d' else (q, b) :: extend p data d'
  end.

Definition pes_streams (ts_packet : bytes) : list (Z * list byte) :=
  fold_left
    (fun d pes =>
       match payload pes with
       | Some data => extend (pid pes) data d
       | None => d
       end)
    (parse_transport_stream ts_packet) [].

(** The body of the loop over the generator's blocks. *)
Definition process_segment (ts_packet : bytes) (st : stream)
  : M (flow stream) :=
  for_each
    (fun '(p, pes_stream) =>
       for_each (es_step p) (parse_packetized_elementary_stream pes_stream))
    (pes_streams ts_packet) st.

(** The streaming loop over at most [segments] blocks of the generator. *)
Fixpoint stream_loop (segments rounds depth : nat) (channel_id : str)
    (rewind : Z) (g : generator) (st : stream) : M unit :=
  match segments with
  | O => ret tt
  | S segments =>
      let* r := packet_generator_next rounds depth channel_id rewind g in
      match r with
      | None => ret tt
      | Some (ts_packet, g') =>
          let* f := process_segment ts_packet st in
          match f with
          | Next st' =>
              stream_loop segments rounds depth channel_id rewind g' st'
          | Return => ret tt
          end
      end
  end.

(** ** server.py: [SeriousRequestHandler.channel_metadata] *)

(** The loop that looks for the first metadata block of a segment. *)
Fixpoint find_metadata (packets : list pes_packet)
    (metadata : option (str * str * str)) : result (option (str * str * str)) :=
  match packets with
  | [] => Ok metadata
  | pes :: rest =>
      if (pid pes =? METADATA_PID)%Z then
        match payload pes with
        | None => Raise KeyError
        | Some data =>
            find_metadata rest
              (fold_left
                 (fun metadata es_payload =>
                    match metadata, parse_sxm_metadata es_payload with
                    | None, Some new_meta => Some new_meta
                    | _, _ => metadata
                    end)
                 (parse_packetized_elementary_stream data) metadata)
        end
      else find_metadata rest metadata
  end.

(** What the handler answers: the 404 page, or the document handed to
    [json.dumps]. *)
Inductive answer : Type :=
| FileNotFound
| NowPlaying (ch : channel) (artist title album : list N).

(** [metadata[i]] on the result of the loop. *)
Definition nowplaying (ch : channel) (metadata : option (str * str * str))
  : result answer :=
  match metadata with
  | None => Raise TypeError
  | Some (title, artist, album) => Ok (NowPlaying ch artist title album)
  end.

(** [None] when the generator has not yielded within [rounds] turns. *)
Definition channel_metadata (rounds depth : nat) (channel_number rewind : Z)
  : M (option answer) :=
  let* s := get_sx in
  match lineup s !! channel_number with
  | None => ret (Some FileNotFound)
  | Some ch =>
      let channel_id := channelKey ch in
      let* r := packet_generator_next rounds depth channel_id rewind
                  new_generator in
      match r with
      | None => ret None
      | Some (packet, _) =>
          let* metadata :=
            lift (find_metadata (parse_transport_stream packet) None) in
          let* a := lift (nowplaying ch metadata) in
          ret (Some a)
      end
  end.

(** ** sirius.py: [Sirius._parse_lineup]

    The line-up is kept as the code keeps it, a dictionary from channel
    numbers to the channel objects of the document.  [int] on a string is
    taken as it is called. *)

Variable int_of_str : list N -> result Z.

(** [int(j)] *)
Definition py_int (j : json) : result Z :=
  match j with
  | JInt n => Ok n
  | JBool b => Ok (if b then 1 else 0)%Z
  | JStr s => int_of_str s
  | _ => Raise TypeError
  end.

(** [for x in j]: the elements of a list, the keys of a dict, the
    characters of a string. *)
Definition iterate (j : json) : result (list json) :=
  match j with
  | JArr items => Ok items
  | JObj fields => Ok (map (fun kv => JStr (fst kv)) fields)
  | JStr s => Ok (map (fun c => JStr [c]) s)
  | _ => Raise TypeError
  end.

(** [isinstance(j, dict)] *)
Definition is_dict (j : json) : bool :=
  match j with
  | JObj _ => true
  | _ => false
  end.

Fixpoint set_field (k : str) (v : json) (d : list (list N * json))
  : list (list N * json) :=
  match d with
  | [] => [(k, v)]
  | (k', v') :: d' =>
      if str_eqb k' k then (k', v) :: d' else (k', v') :: set_field k v d'
  end.

(** [j[k] = v] with a string key: only a dict takes it. *)
Definition setitem (j : json) (k : str) (v : json) : result json :=
  match j with
  | JObj d => Ok (JObj (set_field k v d))
  | _ => Raise TypeError
  end.

(** A loop over [l] whose body changes [self.lineup]; an exception ends
    it and leaves the dictionary as it is then. *)
Fixpoint each {X} (body : X -> gmap Z json -> result unit * gmap Z json)
    (l : list X) (lineup : gmap Z json) : result unit * gmap Z json :=
  match l with
  | [] => (Ok tt, lineup)
  | x :: l' =>
      match body x lineup with
      | (Ok _, lineup') => each body l' lineup'
      | (Raise e, lineup') => (Raise e, lineup')
      end
  end.

(** The body of [for channel in genre['channels']]. *)
Definition add_channel (genre channel : json) (lineup : gmap Z json)
  : result unit * gmap Z json :=
  match
    (let+ name := subscript genre (u "name") in
     let+ channel := setitem channel (u "genre") name in
     let+ number := subscript channel (u "siriusChannelNo") in
     let+ n := py_int number in
     Ok (n, channel))
  with
  | Ok (n, channel) => (Ok tt, <[n := channel]> lineup)
  | Raise e => (Raise e, lineup)
  end.

(** The body of [for genre in genres]. *)
Definition add_genre (genre : json) (lineup : gmap Z json)
  : result unit * gmap Z json :=
  match (let+ channels := subscript genre (u "channels") in iterate channels) with
  | Ok channels => each (add_channel genre) channels lineup
  | Raise e => (Raise e, lineup)
  end.

(** The body of [for category in ...]. *)
Definition add_category (category : json) (lineup : gmap Z json)
  : result unit * gmap Z json :=
  match
    (let+ genres := subscript category (u "genres") in
     iterate (if is_dict genres then JArr [genres] else genres))
  with
  | Ok genres => each add_genre genres lineup
  | Raise e => (Raise e, lineup)
  end.

(** The outcome, and [self.lineup] as it is left. *)
Definition _parse_lineup (lineup : json) : result unit * gmap Z json :=
  match
    (let+ response := subscript lineup (u "lineup-response") in
     let+ inner := subscript response (u "lineup") in
     let+ categories := subscript inner (u "categories") in
     iterate categories)
  with
  | Ok categories => each add_category categories ∅
  | Raise e => (Raise e, ∅)
  end.

(** ** Words for the statements *)

(** The world after a request [r] that the upstream answered from state
    [u']. *)
Definition answered (w : world) (r : request) (u' : U) : world :=
  {| sx := sx w; up := u'; sent := sent (tick w) ++ [r]; now := now (tick w);
     elapse := elapse (tick w); faults := faults w; trace := trace w |}.

Definition with_sx (f : sirius -> sirius) (w : world) : world :=
  {| sx := f (sx w); up := up w; sent := sent w; now := now w;
     elapse := elapse w; faults := faults w; trace := trace w |}.

Definition token_request (token_url channel_key : str) (sid : json) : request :=
  GET (token_url_of token_url channel_key) [(u "sessionId", sid)].

(** One round of [_channel_token] that ends in a new login: the token
    request sent from [w] is answered without usable token data, and the
    login with the stored credentials succeeds and leaves [w']. *)
Definition relogin (channel_key : str) (w w' : world) : Prop :=
  exists token_url sid resp u1 name pass,
    lookup_config (u "TokenBaseUrl") (config (sx w)) = Ok token_url
    /\ session_id (sx w) = Some sid
    /\ http_json (up w) (token_request token_url channel_key sid) = (u1, Ok resp)
    /\ has_token_data resp = Ok false
    /\ username (sx w) = Some name
    /\ password (sx w) = Some pass
    /\ login name pass (answered w (token_request token_url channel_key sid) u1)
       = (Ok tt, w').

Inductive relogins (channel_key : str) : nat -> world -> world -> Prop :=
| relogins_O (w : world) : relogins channel_key 0 w w
| relogins_S (k : nat) (w w1 w2 : world) :
    relogin channel_key w w1 ->
    relogins channel_key k w1 w2 ->
    relogins channel_key (S k) w w2.

Definition resource_request (channel_url channel_key file token : str)
  : request :=
  GET (hq_path channel_url channel_key ++ file) [(u "token", JStr token)].

(** A record on the metadata PID that carries no payload. *)
Definition bare (pes : pes_packet) : bool :=
  (pid pes =? METADATA_PID)%Z
  && match payload pes with
     | Some _ => false
     | None => true
     end.

(** The title after a packet: a metadata packet with a recognised block
    sets it, anything else leaves it. *)
Definition next_title (p : Z) (data : bytes) (title : str) : str :=
  if (p =? METADATA_PID)%Z then
    match parse_sxm_metadata data with
    | Some metadata => title_of metadata
    | None => title
    end
  else title.

(** Whether some packet of [ps] changes the title, starting from
    [title]. *)
Fixpoint title_changed (ps : list (Z * list byte)) (title : str) : bool :=
  match ps with
  | [] => false
  | (p, data) :: ps' =>
      negb (str_eqb (next_title p data title) title)
      || title_changed ps' (next_title p data title)
  end.

(** Packets that pass without a frame being emitted. *)
Inductive quiet_run : stream -> list (Z * list byte) -> stream -> Prop :=
| quiet_nil (st : stream) : quiet_run st [] st
| quiet_cons (st st' : stream) (p : Z) (data : bytes) (ps : list (Z * list byte)) :
    (length (audio (absorb p data st)) < METAINT)%nat ->
    quiet_run (absorb p data st) ps st' ->
    quiet_run st ((p, data) :: ps) st'.

(** ** More words for the statements *)

(** The two groups of a match of the token pattern: [g] is not empty and
    holds no line feed, [tok] is not empty and made of [a-f0-9_]. *)
Definition token_match (g tok : str) : Prop :=
  g <> [] /\ ~ In 10 g /\ tok <> [] /\ forallb is_token_char tok = true.

(** The elementary-stream packets of the metadata PID, in the order in
    which [channel_metadata] meets them. *)
Definition metadata_packets (packets : list pes_packet) : list (list byte) :=
  flat_map
    (fun pes =>
       if (pid pes =? METADATA_PID)%Z then
         match payload pes with
         | Some data => parse_packetized_elementary_stream data
         | None => []
         end
       else [])
    packets.

(** All the payload bytes that the packets of PID [p] carry, in order. *)
Definition payloads_of (p : Z) (packets : list pes_packet) : list byte :=
  flat_map
    (fun pes => if (pid pes =? p)%Z then default [] (payload pes) else [])
    packets.

Definition carries (p : Z) (pes : pes_packet) : bool :=
  (pid pes =? p)%Z && bool_decide (payload pes <> None).

(** What has gone out to the client, in order: the blocks written, and
    of a write that raised the part that went out before. *)
Fixpoint written (tr : list event) : list (list byte) :=
  match tr with
  | Wrote _ data :: tr' => data :: written tr'
  | Failed _ part :: tr' => part :: written tr'
  | Slept _ _ :: tr' => written tr'
  | [] => []
  end.

(** A metadata block as a SHOUTcast client reads it: one byte [n], then
    [16 * n] bytes. *)
Definition icy_block (m : list byte) : Prop :=
  exists n rest, m = n :: rest /\ length rest = (16 * N.to_nat (Byte.to_N n))%nat.

(** Frames on the wire: each audio block followed by its metadata block. *)
Definition framed (frames : list (list byte * list byte)) : list (list byte) :=
  flat_map (fun f => [fst f; snd f]) frames.

(** The audio that a segment carries: the elementary-stream packets of
    the audio PID's stream. *)
Definition audio_payloads (ts_packet : list byte) : list (list byte) :=
  flat_map
    (fun '(p, pes_stream) =>
       if (p =? AUDIO_PID)%Z then parse_packetized_elementary_stream pes_stream
       else [])
    (pes_streams ts_packet).

(** From [st] in [w] to [st'] in [w'] the handler has taken in the audio
    [input] and written whole frames, and nothing else. *)
Definition streamed (st : stream) (w : world) (input : list byte)
    (st' : stream) (w' : world) : Prop :=
  exists new frames,
    trace w' = trace w ++ new
    /\ written new = framed frames
    /\ Forall (fun f => length (fst f) = METAINT /\ icy_block (snd f)) frames
    /\ concat (map fst frames) ++ audio st' = audio st ++ input.

(** The world after [time.sleep(ms / 1000)]. *)
Definition slept (ms : Z) (w : world) : world :=
  {| sx := sx w; up := up w; sent := sent w; now := now w + ms;
     elapse := elapse w; faults := faults w;
     trace := trace w ++ [Slept (now w) ms] |}.

(** [n] turns of the generator's loop in which the playlist is fetched
    and holds nothing to queue, each followed by the sleep of ten
    seconds. *)
Inductive polls (depth : nat) (channel_key : str) (rewind : Z)
    (last : option str) : nat -> world -> world -> Prop :=
| polls_O (w : world) : polls depth channel_key rewind last 0 w w
| polls_S (n : nat) (P : str) (w w1 w' : world) :
    get_playlist depth channel_key w = (Ok P, w1) ->
    _filter_playlist P last rewind = Ok [] ->
    polls depth channel_key rewind last n (slept 10000 w1) w' ->
    polls depth channel_key rewind last (S n) w w'.

(** The text [s] is [t], or [t] and a final line feed. *)
Definition is_line (s t : str) : Prop := s = t \/ s = t ++ [10].

(** A string of one or more of the characters [0] to [9]. *)
Definition digits (x : str) : Prop :=
  x <> [] /\ forallb (accepts Digit) x = true.

(** What holds of every entry of the line-up. *)
Definition filed (lineup : gmap Z json) : Prop :=
  forall n channel,
    lineup !! n = Some channel ->
    (exists number,
        subscript channel (u "siriusChannelNo") = Ok number
        /\ py_int number = Ok n)
    /\ exists name, subscript channel (u "genre") = Ok name.

(** The entry of [p] in a dictionary of streams. *)
Fixpoint stream_of (p : Z) (d : list (Z * list byte)) : option (list byte) :=
  match d with
  | [] => None
  | (q, b) :: d' => if (q =? p)%Z then Some b else stream_of p d'
  end.

(** The dictionary [pes_streams] after the packets [packets]. *)
Definition streams_after (packets : list pes_packet) : list (Z * list byte) :=
  fold_left
    (fun d pes =>
       match payload pes with
       | Some data => extend (pid pes) data d
       | None => d
       end)
    packets [].

(** Nothing was written to the listener and no sleep was taken between
    [w] and [w'], and the clock did not go back. *)
Definition calm (w w' : world) : Prop :=
  trace w' = trace w /\ (now w <= now w')%Z.

Definition Calm {A} (m : M A) : Prop :=
  forall w r w', m w = (r, w') -> calm w w'.

(** What follows the group cannot begin with a character of the group. *)
Definition stops (a : atom) (p : list item) : Prop :=
  forall c rest, accepts a c = true -> match_here p false (c :: rest) = None.

(** The pattern of the route table at position [i]. *)
Definition route (i : nat) : list item := fst (nth i routes ([], file_not_found)).

(** Between [w] and [w'] the blocks [blocks] went out to the listener,
    in this order, and nothing else. *)
Definition wrote (w w' : world) (blocks : list (list byte)) : Prop :=
  exists new, trace w' = trace w ++ new /\ written new = blocks.

(** Frames as [channel_stream] announces them in its headers. *)
Definition whole (frames : list (list byte * list byte)) : Prop :=
  Forall (fun f => length (fst f) = METAINT /\ icy_block (snd f)) frames.

(** What may stand after the last whole frame when the handler returns:
    nothing, or the beginning of one more frame, which a write that
    raised has cut: a part of its audio, or its audio and a part of its
    metadata block. *)
Definition cut_short (tail : list (list byte)) : Prop :=
  tail = []
  \/ (exists a n, length a = METAINT /\ tail = [take n a])
  \/ (exists a m n,
        length a = METAINT /\ icy_block m /\ tail = [a; take n m]).

(** * Properties *)

(** ** Hexadecimal text *)

(** A byte written as two digits reads back as that byte. *)
Lemma fromhex_two_digits (x : byte) (rest : str) :
  fromhex (hex_digit (Byte.to_N x / 16) :: hex_digit (Byte.to_N x mod 16) :: rest)
  = let+ r := fromhex rest in Ok (x :: r).
Proof. destruct x; reflexivity. Qed.

Lemma fromhex_hexlify (b : bytes) : fromhex (hexlify b) = Ok b.
Proof.
  induction b as [|x b IH]; [reflexivity|].
  cbn [hexlify flat_map app]. fold (hexlify b).
  now rewrite fromhex_two_digits, IH.
Qed.

Lemma fromhex_app_len (n : nat) (a b : str) (x : bytes) :
  (length a <= n)%nat ->
  fromhex a = Ok x ->
  fromhex (a ++ b) = let+ y := fromhex b in Ok (x ++ y).
Proof.
  revert a x. induction n as [|n IH]; intros a x Hlen Ha.
  - destruct a; [|cbn in Hlen; lia]. cbn in Ha. injection Ha as <-.
    cbn [app]. destruct (fromhex b); reflexivity.
  - destruct a as [|c a].
    { cbn in Ha. injection Ha as <-. cbn [app]. destruct (fromhex b); reflexivity. }
    cbn [app fromhex] in *. destruct (is_ascii_space c).
    { apply IH; [cbn in Hlen; lia | assumption]. }
    destruct (hex_value c) as [hi|]; [|discriminate].
    destruct a as [|d a]; [discriminate|]. cbn [app].
    destruct (hex_value d) as [lo|]; [|discriminate].
    destruct (fromhex a) as [r|e] eqn:Er; [|discriminate].
    cbn [rbind] in Ha. injection Ha as <-.
    rewrite (IH a r ltac:(cbn in Hlen; lia) Er). cbn [rbind].
    destruct (fromhex b); reflexivity.
Qed.

Lemma fromhex_app (a b : str) (x y : bytes) :
  fromhex a = Ok x -> fromhex b = Ok y -> fromhex (a ++ b) = Ok (x ++ y).
Proof.
  intros Ha Hb. rewrite (fromhex_app_len (length a) a b x (le_n _) Ha).
  now rewrite Hb.
Qed.

Lemma take_hexlify (n : nat) (b : bytes) :
  take (2 * n) (hexlify b) = hexlify (take n b).
Proof.
  revert b. induction n as [|n IH]; intros b; [reflexivity|].
  destruct b as [|x b]; [reflexivity|].
  replace (2 * S n)%nat with (S (S (2 * n))) by lia.
  cbn [hexlify flat_map app take]. fold (hexlify b). fold (hexlify (take n b)).
  now rewrite IH.
Qed.

(** ** [_filter_playlist] *)

Lemma str_eqb_eq (a b : str) : str_eqb a b = true <-> a = b.
Proof. unfold str_eqb. apply bool_decide_eq_true. Qed.

Lemma str_eqb_neq (a b : str) : str_eqb a b = false <-> a <> b.
Proof. unfold str_eqb. apply bool_decide_eq_false. Qed.

Lemma playlist_entries_no_empty_line (lines : list str) :
  ~ In [] lines ->
  playlist_entries lines
  = Ok (map strip (List.filter (fun x => negb (is_comment x)) lines)).
Proof.
  induction lines as [|x rest IH]; intros Hne; [reflexivity|].
  assert (Hrest : ~ In [] rest) by (intros H; apply Hne; now right).
  destruct x as [|c x]; [exfalso; apply Hne; now left|].
  cbn [playlist_entries first_char rbind List.filter is_comment].
  rewrite (IH Hrest).
  destruct (c =? hash); reflexivity.
Qed.

Lemma playlist_entries_empty_line (lines : list str) :
  In [] lines -> playlist_entries lines = Raise IndexError.
Proof.
  induction lines as [|x rest IH]; intros Hin; [destruct Hin|].
  destruct x as [|c x]; [reflexivity|].
  destruct Hin as [Heq|Hin]; [discriminate|].
  cbn [playlist_entries first_char rbind].
  rewrite (IH Hin). destruct (negb (c =? hash)); reflexivity.
Qed.

Lemma py_in_In (m : str) (l : list str) : py_in m l = true <-> In m l.
Proof.
  unfold py_in. rewrite existsb_exists. split.
  - intros (x & Hx & He). apply str_eqb_eq in He. now subst.
  - intros H. exists m. split; [assumption|]. now apply str_eqb_eq.
Qed.

(** [index] finds the first occurrence. *)
Lemma py_index_first (m : str) (l : list str) :
  In m l ->
  exists pre post,
    l = pre ++ m :: post /\ ~ In m pre /\ py_index m l = Ok (length pre).
Proof.
  induction l as [|y l IH]; intros Hin; [destruct Hin|].
  cbn [py_index]. destruct (str_eqb y m) eqn:E.
  - apply str_eqb_eq in E. subst y. exists [], l. repeat split. intros [].
  - apply str_eqb_neq in E.
    destruct Hin as [->|Hin]; [congruence|].
    destruct (IH Hin) as (pre & post & -> & Hpre & Hidx).
    exists (y :: pre), post. rewrite Hidx. repeat split.
    intros [H|H]; [congruence | auto].
Qed.

Lemma slice_from_after {A} (pre post : list A) (m : A) :
  slice_from (Z.of_nat (length pre) + 1) (pre ++ m :: post) = post.
Proof.
  unfold slice_from. rewrite length_app. cbn [length].
  rewrite (proj2 (Z.ltb_ge _ _)) by lia.
  rewrite Z.min_l by lia.
  replace (Z.to_nat (Z.of_nat (length pre) + 1)) with (length pre + 1)%nat by lia.
  rewrite <- drop_drop, drop_app_length. reflexivity.
Qed.

Lemma slice_from_window {A} (n : Z) (l : list A) :
  (0 < n)%Z -> slice_from (- n) l = last_n (Z.to_nat n) l.
Proof.
  intros Hn. unfold slice_from, last_n.
  rewrite (proj2 (Z.ltb_lt _ _)) by lia.
  rewrite firstn_rev, rev_involutive. f_equal. lia.
Qed.

Lemma filter_playlist_entries (P : str) (last : option str) (r : Z) :
  ~ In [] (splitlines P) ->
  playlist_entries (splitlines P) = Ok (spec_entries P).
Proof. intros H. now apply playlist_entries_no_empty_line. Qed.

(** C4, as the code has it: on a playlist without an empty line and for a
    marker that is not the empty string and occurs among the entries,
    [_filter_playlist] returns the entries after the first occurrence of
    the marker, in their order, whatever the rewind.  The empty string as
    marker is no marker: on every playlist and for every rewind the call
    does what it does without a marker, also where the empty string is
    among the entries. *)
Theorem filter_playlist_after_marker (P m : str) (r : Z) :
  (~ In [] (splitlines P) ->
   m <> [] ->
   In m (spec_entries P) ->
   exists pre post,
     spec_entries P = pre ++ m :: post /\ ~ In m pre
     /\ _filter_playlist P (Some m) r = Ok post)
  /\ _filter_playlist P (Some []) r = _filter_playlist P None r.
Proof.
  split.
  - intros Hlines Hm Hin.
    destruct (py_index_first m (spec_entries P) Hin)
      as (pre & post & E & Hpre & Hidx).
    exists pre, post. repeat split; [assumption..|].
    unfold _filter_playlist.
    rewrite (filter_playlist_entries P (Some m) r Hlines). cbn [rbind].
    rewrite (proj2 (py_in_In m (spec_entries P)) Hin).
    destruct m as [|c m]; [congruence|]. cbn [truthy andb].
    rewrite Hidx. cbn [rbind]. rewrite E. now rewrite slice_from_after.
  - unfold _filter_playlist.
    destruct (playlist_entries (splitlines P)) as [entries|e]; reflexivity.
Qed.

(** The window branch: on a playlist without an empty line, with no marker
    or with a marker that is not among the entries, the result is the last
    [10 + 3 * rewind] entries, all of them when there are fewer. *)
Lemma filter_playlist_window (P : str) (last : option str) (r : Z) :
  ~ In [] (splitlines P) ->
  (0 <= r)%Z ->
  (forall m, last = Some m -> ~ In m (spec_entries P)) ->
  _filter_playlist P last r
  = Ok (last_n (Z.to_nat (10 + 3 * r)) (spec_entries P)).
Proof.
  intros Hlines Hr Habs. unfold _filter_playlist.
  rewrite (filter_playlist_entries P last r Hlines). cbn [rbind].
  rewrite slice_from_window by lia.
  destruct last as [m|]; [|reflexivity].
  destruct (py_in m (spec_entries P)) eqn:E.
  - apply py_in_In in E. now destruct (Habs m eq_refl).
  - now rewrite andb_false_r.
Qed.

(** C9: a playlist text with an empty line makes [_filter_playlist] raise
    [IndexError]: the comment test reads [x[0]] of the raw line. *)
Theorem filter_playlist_empty_line (P : str) (last : option str) (r : Z) :
  In [] (splitlines P) ->
  _filter_playlist P last r = Raise IndexError.
Proof.
  intros H. unfold _filter_playlist.
  now rewrite (playlist_entries_empty_line _ H).
Qed.


(** ** [login] *)

Lemma fromhex_player_id : fromhex (HARDWARE_ID ++ ETHERNET_MAC) = Ok player_id.
Proof. reflexivity. Qed.

Lemma fromhex_padding : fromhex padding_hex = Ok (repeat x10 16).
Proof. reflexivity. Qed.

Lemma tick_fields (w : world) :
  sx (tick w) = sx w /\ up (tick w) = up w /\ sent (tick w) = sent w
  /\ faults (tick w) = faults w /\ trace (tick w) = trace w.
Proof. unfold tick. destruct (elapse w); repeat split. Qed.

Lemma exchange_answered {A} (serve : U -> request -> U * result A)
    (r : request) (w : world) (u' : U) (a : result A) :
  serve (up w) r = (u', a) -> exchange serve r w = (a, answered w r u').
Proof.
  intros H. unfold exchange, answered.
  destruct (tick_fields w) as (E1 & E2 & E3 & E4 & E5).
  rewrite E2, H, E1, E3, E4, E5. reflexivity.
Qed.

(** C7: the key is PBKDF2-HMAC-SHA256 over the MD5 digest of the password
    with the decoded salt and the given iteration count, 16 bytes long;
    [authenticationData] is the hexadecimal text of the AES-CBC
    encryption, under that key and a zero IV, of the decoded challenge,
    the first 16 bytes of SHA256 over hardware id, MAC and challenge, and
    sixteen bytes 0x10.  It is what [login] sends to complete the
    exchange. *)
Theorem login_message_construction
    (name pass challenge salt auth_url : str) (iterations : json) (n : Z)
    (doc auth_challenge : json) (cb sb pw k ct : bytes) (u1 : U) (w : world) :
  lookup_config (u "AuthenticationBaseUrl") (config (sx w)) = Ok auth_url ->
  http_json (up w) (POST (auth_url ++ initiate_path) (auth_request name))
  = (u1, Ok doc) ->
  subscript doc (u "AuthenticationResponse") = Ok auth_challenge ->
  subscript auth_challenge (u "authenticationChallenge") = Ok (JStr challenge) ->
  subscript auth_challenge (u "salt") = Ok (JStr salt) ->
  subscript auth_challenge (u "iterationsCount") = Ok iterations ->
  as_int iterations = Ok n ->
  fromhex challenge = Ok cb ->
  fromhex salt = Ok sb ->
  encode pass = Ok pw ->
  pbkdf2_hmac_sha256 (md5 pw) sb n 16 = Ok k ->
  aes_new k zero_iv = Ok tt ->
  aes_cbc_encrypt k zero_iv
    (cb ++ take 16 (sha256 (player_id ++ cb)) ++ repeat x10 16) = Ok ct ->
  let message := challenge ++ take 32 (hexlify (sha256 (player_id ++ cb))) in
  let w1 := with_sx (set_key k)
              (answered (with_sx (set_credentials name pass) w)
                 (POST (auth_url ++ initiate_path) (auth_request name)) u1) in
  fromhex (HARDWARE_ID ++ ETHERNET_MAC ++ challenge) = Ok (player_id ++ cb)
  /\ fromhex (message ++ padding_hex)
     = Ok (cb ++ take 16 (sha256 (player_id ++ cb)) ++ repeat x10 16)
  /\ authenticate name pass w = (Ok (auth_url, hexlify ct), w1)
  /\ key (sx w1) = Some k
  /\ login name pass w = complete name auth_url (hexlify ct) w1.
Proof.
  intros Hcfg Hreq Hdoc Hch Hsalt Hit Hn Hcb Hsb Hpw Hk Hnew Hct message w1.
  assert (Hseed : fromhex (HARDWARE_ID ++ ETHERNET_MAC ++ challenge)
                  = Ok (player_id ++ cb)).
  { rewrite app_assoc. apply fromhex_app; [apply fromhex_player_id | exact Hcb]. }
  assert (Hmsg : fromhex (message ++ padding_hex)
                 = Ok (cb ++ take 16 (sha256 (player_id ++ cb)) ++ repeat x10 16)).
  { unfold message. rewrite <- app_assoc.
    apply fromhex_app; [exact Hcb|].
    apply fromhex_app; [|apply fromhex_padding].
    change 32%nat with (2 * 16)%nat. rewrite take_hexlify. apply fromhex_hexlify. }
  assert (Hauth : authenticate name pass w = (Ok (auth_url, hexlify ct), w1)).
  { unfold authenticate, bind at 1. unfold update_sx, bind at 1. cbn [get_sx put_sx].
    fold (with_sx (set_credentials name pass) w).
    unfold bind at 1. unfold config_value, bind at 1. cbn [get_sx lift with_sx sx].
    cbn [set_credentials config]. rewrite Hcfg.
    unfold bind at 1. unfold requests_json.
    rewrite (exchange_answered http_json _ _ u1 (Ok doc)) by exact Hreq.
    unfold bind, lift. rewrite Hdoc, Hch, Hsalt, Hit. cbn [as_str].
    rewrite Hseed, Hpw, Hsb, Hn, fromhex_hexlify. unfold KEY_LENGTH. rewrite Hk.
    unfold update_sx, bind. cbn [get_sx put_sx].
    unfold _encrypt, bind, lift, attr, ret. cbn [get_sx set_key key sx].
    rewrite Hnew. fold message. rewrite Hmsg, Hct. reflexivity. }
  repeat split; try assumption.
  unfold login, bind. rewrite Hauth. reflexivity.
Qed.

(** Inversion of the monad's operations. *)

Lemma bind_ok {A B} (m : M A) (k : A -> M B) (w w' : world) (b : B) :
  bind m k w = (Ok b, w') ->
  exists a w1, m w = (Ok a, w1) /\ k a w1 = (Ok b, w').
Proof.
  unfold bind. destruct (m w) as [[a|e] w1]; intros H; [|discriminate].
  now exists a, w1.
Qed.

Lemma lift_inv {A} (r x : result A) (w w' : world) :
  lift r w = (x, w') -> x = r /\ w' = w.
Proof. unfold lift. intros H. injection H as <- <-. now split. Qed.

Lemma ret_inv {A} (a : A) (x : result A) (w w' : world) :
  ret a w = (x, w') -> x = Ok a /\ w' = w.
Proof. unfold ret. intros H. injection H as <- <-. now split. Qed.

Lemma update_sx_inv (f : sirius -> sirius) (x : result unit) (w w' : world) :
  update_sx f w = (x, w') -> x = Ok tt /\ w' = with_sx f w.
Proof. unfold update_sx, bind, get_sx, put_sx. intros H. injection H as <- <-. now split. Qed.

Lemma config_value_inv (name : str) (x : result str) (w w' : world) :
  config_value name w = (x, w') ->
  x = lookup_config name (config (sx w)) /\ w' = w.
Proof. unfold config_value, bind, get_sx, lift. intros H. injection H as <- <-. now split. Qed.

Lemma exchange_inv {A} (serve : U -> request -> U * result A) (r : request)
    (x : result A) (w w' : world) :
  exchange serve r w = (x, w') ->
  exists u', serve (up w) r = (u', x) /\ w' = answered w r u'.
Proof.
  intros H. destruct (serve (up w) r) as [u' a] eqn:E.
  rewrite (exchange_answered serve r w u' a E) in H. injection H as <- <-.
  now exists u'.
Qed.

Lemma _encrypt_world (plaintext : str) (x : result bytes) (w w' : world) :
  _encrypt plaintext w = (x, w') -> w' = w.
Proof.
  unfold _encrypt, bind, get_sx, attr, lift, ret, raise.
  destruct (key (sx w)); [|intros H; now injection H as <- <-].
  destruct (aes_new _ _); [|intros H; now injection H as <- <-].
  destruct (fromhex _); intros H; now injection H as <- <-.
Qed.

Lemma get_sx_inv (x : result sirius) (w w' : world) :
  get_sx w = (x, w') -> x = Ok (sx w) /\ w' = w.
Proof. unfold get_sx. intros H. injection H as <- <-. now split. Qed.

Lemma put_sx_inv (s : sirius) (x : result unit) (w w' : world) :
  put_sx s w = (x, w') -> x = Ok tt /\ w' = with_sx (fun _ => s) w.
Proof. unfold put_sx. intros H. injection H as <- <-. now split. Qed.

Ltac invert_binds H :=
  repeat (let a := fresh "a" in
          let w := fresh "w" in
          let H1 := fresh "Hstep" in
          apply bind_ok in H as (a & w & H1 & H)).

Ltac invert_steps :=
  repeat match goal with
         | H : lift _ _ = (_, _) |- _ => apply lift_inv in H as [? ->]
         | H : ret _ _ = (_, _) |- _ => apply ret_inv in H as [? ->]
         | H : update_sx _ _ = (_, _) |- _ => apply update_sx_inv in H as [_ ->]
         | H : config_value _ _ = (_, _) |- _ => apply config_value_inv in H as [? ->]
         | H : _encrypt _ _ = (_, _) |- _ => apply _encrypt_world in H as ->
         | H : get_sx _ = (_, _) |- _ => apply get_sx_inv in H as [? ->]
         | H : put_sx _ _ = (_, _) |- _ => apply put_sx_inv in H as [_ ->]
         end.

(** [authenticate] sends one request, the one that asks for the
    challenge. *)
Lemma authenticate_sent (name pass auth_url data : str) (w w1 : world) :
  authenticate name pass w = (Ok (auth_url, data), w1) ->
  sent w1 = sent w ++ [POST (auth_url ++ initiate_path) (auth_request name)].
Proof.
  intros H. unfold authenticate in H. invert_binds H.
  unfold requests_json in *.
  match goal with
  | H : exchange _ _ _ = _ |- _ => apply exchange_inv in H as (u' & _ & ->)
  end.
  invert_steps.
  match goal with H : Ok (_, _) = Ok _ |- _ => injection H as -> -> end.
  cbn [with_sx answered sent].
  destruct (tick_fields (with_sx (set_credentials name pass) w))
    as (_ & _ & -> & _).
  reflexivity.
Qed.

(** C8: when the completion response reports failure (status 0), [login]
    raises "Invalid password" for code 401 and "Unknown login error" for
    any other code, having sent the challenge request and the completion
    request once each; otherwise it stores [sessionId] beside the key that
    was derived, in place of what was there. *)
Theorem login_outcome
    (name pass auth_url data : str) (doc auth_result status : json)
    (u2 : U) (w w1 : world) :
  authenticate name pass w = (Ok (auth_url, data), w1) ->
  http_json (up w1) (POST (auth_url ++ complete_path) (auth_response name data))
  = (u2, Ok doc) ->
  subscript doc (u "AuthenticationResponse") = Ok auth_result ->
  subscript auth_result (u "status") = Ok status ->
  let w2 := answered w1
              (POST (auth_url ++ complete_path) (auth_response name data)) u2 in
  sent w2 = sent w ++ [POST (auth_url ++ initiate_path) (auth_request name);
                       POST (auth_url ++ complete_path) (auth_response name data)]
  /\ (eq_int status 0 = true ->
      forall messages code,
        subscript auth_result (u "messages") = Ok messages ->
        subscript messages (u "code") = Ok code ->
        login name pass w
        = (Raise (SiriusException (if eq_int code 401 then "Invalid password"
                                   else "Unknown login error")), w2))
  /\ (eq_int status 0 = false ->
      forall sid,
        subscript auth_result (u "sessionId") = Ok sid ->
        login name pass w = (Ok tt, with_sx (set_session_id sid) w2)
        /\ session_id (sx (with_sx (set_session_id sid) w2)) = Some sid
        /\ key (sx (with_sx (set_session_id sid) w2)) = key (sx w1)).
Proof.
  intros Hauth Hreq Hdoc Hstatus w2.
  assert (Hlogin : login name pass w = complete name auth_url data w1).
  { unfold login, bind. now rewrite Hauth. }
  assert (Hcomplete : forall k : json -> M unit,
             bind (requests_json (POST (auth_url ++ complete_path)
                                    (auth_response name data))) k w1
             = k doc w2).
  { intros k. unfold bind, requests_json.
    now rewrite (exchange_answered http_json _ _ u2 (Ok doc)) by exact Hreq. }
  split; [|split].
  - unfold w2, answered. cbn [sent].
    destruct (tick_fields w1) as (_ & _ & -> & _).
    rewrite (authenticate_sent _ _ _ _ _ _ Hauth), <- app_assoc. reflexivity.
  - intros H0 messages code Hm Hc. rewrite Hlogin. unfold complete.
    rewrite Hcomplete. unfold bind, lift, raise.
    rewrite Hdoc, Hstatus, H0, Hm, Hc. now destruct (eq_int code 401).
  - intros H0 sid Hsid. split; [|split; reflexivity].
    rewrite Hlogin. unfold complete. rewrite Hcomplete. unfold bind, lift.
    rewrite Hdoc, Hstatus, H0, Hsid. reflexivity.
Qed.

(** ** [_channel_token] *)

Lemma login_sent (name pass : str) (w w' : world) :
  login name pass w = (Ok tt, w') ->
  length (sent w') = (length (sent w) + 2)%nat.
Proof.
  intros H. unfold login in H. apply bind_ok in H as ([auth_url data] & w1 & Ha & H).
  apply authenticate_sent in Ha. cbn [fst snd] in H.
  unfold complete in H. apply bind_ok in H as (doc & w2 & Hreq & H).
  unfold requests_json in Hreq. apply exchange_inv in Hreq as (u' & _ & ->).
  assert (Hw' : sent w' = sent (answered w1
                                  (POST (auth_url ++ complete_path)
                                     (auth_response name data)) u')).
  { invert_binds H. invert_steps.
    destruct (eq_int _ 0).
    - invert_binds H. invert_steps. destruct (eq_int _ 401); discriminate.
    - invert_binds H. invert_steps. reflexivity. }
  rewrite Hw'. cbn [answered sent].
  destruct (tick_fields w1) as (_ & _ & -> & _).
  rewrite Ha, !length_app. cbn [length]. lia.
Qed.

Lemma channel_token_relogin (depth : nat) (channel_key : str)
    (invalidate : bool) (w w' : world) :
  invalidate = true \/ token_cache (sx w) !! channel_key = None ->
  relogin channel_key w w' ->
  _channel_token (S depth) channel_key invalidate w
  = _channel_token depth channel_key true w'.
Proof.
  intros Hmiss (token_url & sid & resp & u1 & name & pass
                & Hcfg & Hsid & Hreq & Hdata & Hname & Hpass & Hlogin).
  cbn [_channel_token]. unfold bind at 1. cbn [get_sx].
  assert (Hc : (if invalidate then None else token_cache (sx w) !! channel_key)
               = None) by (destruct Hmiss as [->| ->]; [|destruct invalidate]; reflexivity).
  rewrite Hc. unfold bind at 1, config_value, bind at 1. cbn [get_sx lift].
  rewrite Hcfg, Hsid. unfold bind at 1. cbn [attr ret].
  unfold bind at 1, requests_json. fold (token_request token_url channel_key sid).
  rewrite (exchange_answered http_json _ _ u1 (Ok resp) Hreq).
  unfold bind at 1, lift. rewrite Hdata.
  unfold bind at 1. cbn [get_sx answered sx].
  rewrite Hname, Hpass. unfold bind at 1. cbn [attr ret].
  unfold bind at 1. cbn [ret]. unfold bind at 1.
  fold (answered w (token_request token_url channel_key sid) u1).
  now rewrite Hlogin.
Qed.

(** C2, as the code has it: every token response without usable token data
    is followed by one login with the stored credentials and by the same
    call again with [invalidate=True], with no bound on how often; after
    [k + 1] such rounds in a row the client has logged in [k + 1] times
    (three requests a round) and goes on with the next token request. *)
Theorem channel_token_relogins (k depth : nat) (channel_key : str)
    (invalidate : bool) (w w' : world) :
  invalidate = true \/ token_cache (sx w) !! channel_key = None ->
  relogins channel_key (S k) w w' ->
  _channel_token (S k + depth) channel_key invalidate w
  = _channel_token depth channel_key true w'
  /\ length (sent w') = (length (sent w) + 3 * S k)%nat.
Proof.
  intros Hmiss Hrounds.
  assert (Haux : forall n w1 w2,
             relogins channel_key n w1 w2 ->
             _channel_token (n + depth) channel_key true w1
             = _channel_token depth channel_key true w2
             /\ length (sent w2) = (length (sent w1) + 3 * n)%nat).
  { intros n w1 w2 Hn. induction Hn as [w0|n w0 w1 w2 Hstep Hn [IH1 IH2]].
    - split; [reflexivity | lia].
    - split.
      + cbn [Nat.add]. rewrite (channel_token_relogin _ _ true w0 w1); auto.
      + destruct Hstep as (token_url & sid & resp & u1 & name & pass
                           & _ & _ & _ & _ & _ & _ & Hlogin).
        apply login_sent in Hlogin. cbn [answered sent] in Hlogin.
        destruct (tick_fields w0) as (_ & _ & E & _). rewrite E in Hlogin.
        rewrite length_app in Hlogin. cbn [length] in Hlogin. lia. }
  inversion Hrounds as [|n w0 w1 w2 Hstep Hn]; subst.
  destruct (Haux _ _ _ Hn) as [E1 E2].
  split.
  - cbn [Nat.add]. rewrite (channel_token_relogin _ _ invalidate w w1); auto.
  - destruct Hstep as (token_url & sid & resp & u1 & name & pass
                       & _ & _ & _ & _ & _ & _ & Hlogin).
    apply login_sent in Hlogin. cbn [answered sent] in Hlogin.
    destruct (tick_fields w) as (_ & _ & E & _). rewrite E in Hlogin.
    rewrite length_app in Hlogin. cbn [length] in Hlogin. lia.
Qed.

(** ** [_get_token_resource] *)

(** C1, as the code has it: once the token is resolved and the resource
    requested, status 200 returns the response; status 404 raises
    "Resource not found" at once, leaving the Sirius object (token cache
    included) as it was and sending nothing more; any other status
    fetches the token anew with [invalidate=True] and runs the call
    again. *)
Theorem get_token_resource_by_status (depth : nat)
    (channel_key file channel_url token : str) (resp : response)
    (u2 : U) (w w1 : world) :
  _channel_token depth channel_key false w = (Ok (channel_url, token), w1) ->
  http_get (up w1) (resource_request channel_url channel_key file token)
  = (u2, Ok resp) ->
  let w2 := answered w1 (resource_request channel_url channel_key file token) u2 in
  (status_code resp = 200%Z ->
   _get_token_resource (S depth) channel_key file w = (Ok resp, w2))
  /\ (status_code resp = 404%Z ->
      _get_token_resource (S depth) channel_key file w
      = (Raise (SiriusException "Resource not found"), w2)
      /\ sx w2 = sx w1
      /\ sent w2 = sent w1 ++ [resource_request channel_url channel_key file token])
  /\ (status_code resp <> 200%Z -> status_code resp <> 404%Z ->
      _get_token_resource (S depth) channel_key file w
      = bind (_channel_token depth channel_key true)
          (fun _ => _get_token_resource depth channel_key file) w2).
Proof.
  intros Htoken Hreq w2.
  assert (Hstep : _get_token_resource (S depth) channel_key file w
                  = (if (status_code resp =? 200)%Z then ret resp
                     else if (status_code resp =? 404)%Z
                          then raise (SiriusException "Resource not found")
                          else bind (_channel_token depth channel_key true)
                                 (fun _ => _get_token_resource depth channel_key file))
                      w2).
  { cbn [_get_token_resource]. unfold bind at 1. rewrite Htoken.
    unfold bind at 1, requests_get.
    fold (resource_request channel_url channel_key file token).
    now rewrite (exchange_answered http_get _ _ u2 (Ok resp) Hreq). }
  rewrite Hstep. split; [|split].
  - intros ->. reflexivity.
  - intros ->. split; [reflexivity|]. split; [reflexivity|].
    unfold w2. cbn [answered sent].
    now destruct (tick_fields w1) as (_ & _ & -> & _).
  - intros H200 H404.
    rewrite (proj2 (Z.eqb_neq _ _) H200), (proj2 (Z.eqb_neq _ _) H404).
    reflexivity.
Qed.

(** ** [channel_metadata] *)

Lemma find_metadata_nothing (packets : list pes_packet) :
  (forall pes data, In pes packets -> pid pes = METADATA_PID ->
     payload pes = Some data ->
     forall es, In es (parse_packetized_elementary_stream data) ->
                parse_sxm_metadata es = None) ->
  find_metadata packets None
  = if existsb bare packets then Raise KeyError else Ok None.
Proof.
  induction packets as [|pes rest IH]; intros H; [reflexivity|].
  cbn [find_metadata existsb]. unfold bare at 1.
  assert (Hrest : find_metadata rest None
                  = if existsb bare rest then Raise KeyError else Ok None).
  { apply IH. intros q data Hq. apply H. now right. }
  destruct (pid pes =? METADATA_PID)%Z eqn:E; cbn [andb orb]; [|exact Hrest].
  apply Z.eqb_eq in E.
  destruct (payload pes) as [data|] eqn:Ep; [|reflexivity]. cbn [orb].
  assert (Hfold : forall l,
             (forall es, In es l -> parse_sxm_metadata es = None) ->
             fold_left
               (fun (metadata : option (str * str * str)) es_payload =>
                  match metadata, parse_sxm_metadata es_payload with
                  | None, Some new_meta => Some new_meta
                  | _, _ => metadata
                  end) l None = None).
  { induction l as [|es l IHl]; intros Hl; [reflexivity|].
    cbn [fold_left]. rewrite (Hl es (or_introl eq_refl)).
    apply IHl. intros e He. apply Hl. now right. }
  rewrite (Hfold _ (H pes data (or_introl eq_refl) E Ep)). exact Hrest.
Qed.

(** C10, as the code has it: when the channel is in the line-up and the
    first block the generator yields has no recognised metadata block on
    the metadata PID, [channel_metadata] answers nothing and raises.  It
    is [TypeError], from subscripting [None], when every record on the
    metadata PID carries a payload; it is [KeyError], from subscripting
    the record, when one of them carries none. *)
Theorem channel_metadata_without_block (rounds depth : nat)
    (channel_number rewind : Z) (ch : channel) (packet : bytes)
    (g : generator) (w w' : world) :
  lineup (sx w) !! channel_number = Some ch ->
  packet_generator_next rounds depth (channelKey ch) rewind new_generator w
  = (Ok (Some (packet, g)), w') ->
  (forall pes data, In pes (parse_transport_stream packet) ->
     pid pes = METADATA_PID ->
     payload pes = Some data ->
     forall es, In es (parse_packetized_elementary_stream data) ->
                parse_sxm_metadata es = None) ->
  channel_metadata rounds depth channel_number rewind w
  = (Raise (if existsb bare (parse_transport_stream packet)
            then KeyError else TypeError), w').
Proof.
  intros Hch Hnext Hnone. unfold channel_metadata, bind at 1. cbn [get_sx].
  rewrite Hch. unfold bind at 1. rewrite Hnext.
  unfold bind, lift. rewrite (find_metadata_nothing _ Hnone).
  now destruct (existsb bare (parse_transport_stream packet)).
Qed.

(** ** [channel_stream]: one frame *)

Lemma tick_now (w : world) : (now w <= now (tick w))%Z.
Proof. unfold tick. destruct (elapse w); cbn [now]; lia. Qed.

Lemma tick_trace (w : world) : trace (tick w) = trace w.
Proof. now destruct (tick_fields w) as (_ & _ & _ & _ & E). Qed.

Lemma time_time_inv (x : result Z) (w w' : world) :
  time_time w = (x, w') -> x = Ok (now (tick w)) /\ w' = tick w.
Proof. unfold time_time. intros H. injection H as <- <-. now split. Qed.

Lemma time_sleep_inv (ms : Z) (w w' : world) :
  time_sleep ms w = (Ok tt, w') ->
  (0 <= ms)%Z /\ trace w' = trace w ++ [Slept (now w) ms]
  /\ now w' = (now w + ms)%Z.
Proof.
  unfold time_sleep. destruct (Z.ltb_spec ms 0) as [Hneg|Hpos]; intros Hs;
    [discriminate|].
  injection Hs as <-. repeat split. assumption.
Qed.

Lemma wfile_write_inv (data : bytes) (w w' : world) :
  wfile_write data w = (Ok tt, w') ->
  trace w' = trace w ++ [Wrote (now (tick w)) data] /\ now w' = now (tick w).
Proof.
  unfold wfile_write. rewrite <- (tick_trace w).
  destruct (faults (tick w)) as [|[[e n]|] fs]; intros H;
    try discriminate; injection H as <-; now split.
Qed.

Lemma except_connection_lost_next {A} (m : M (flow A)) (a : A) (w w' : world) :
  except_connection_lost m (ret Return) w = (Ok (Next a), w') ->
  m w = (Ok (Next a), w').
Proof.
  unfold except_connection_lost, ret.
  destruct (m w) as [[x|e] w0]; [trivial|].
  destruct e; intros H; discriminate || exact H.
Qed.

(** What [pace] does between the write and the new time stamp; [t] is
    the clock as it is read first. *)
Lemma pace_inv (start : option Z) (w w' : world) :
  pace start w = (Ok tt, w') ->
  match start with
  | None => w' = w
  | Some t0 =>
      let t := now (tick w) in
      ((t0 + FOUR_SECONDS <= t)%Z /\ trace w' = trace w /\ now w' = t)
      \/ ((t < t0 + FOUR_SECONDS)%Z
          /\ exists ts d,
               trace w' = trace w ++ [Slept ts d] /\ (t <= ts)%Z
               /\ (0 <= d)%Z /\ (ts + d = t0 + FOUR_SECONDS)%Z
               /\ now w' = (ts + d)%Z)
  end.
Proof.
  destruct start as [t0|]; cbn [pace].
  - intros H. apply bind_ok in H as (t & wa & Ht & H).
    apply time_time_inv in Ht as [Ht ->]. injection Ht as ->. cbv beta in H.
    destruct (Z.ltb_spec (now (tick w) - t0) FOUR_SECONDS) as [Hlt|Hge].
    + apply bind_ok in H as (t2 & wb & Ht2 & H).
      apply time_time_inv in Ht2 as [Ht2 ->]. injection Ht2 as ->.
      apply time_sleep_inv in H as (Hd & Htr & Hnow).
      right. split; [lia|]. eexists _, _. rewrite Htr, !tick_trace.
      pose proof (tick_now (tick w)).
      repeat split; [assumption | exact Hd | lia | exact Hnow].
    + apply ret_inv in H as [_ ->]. left. rewrite tick_trace.
      repeat split; lia.
  - intros H. now apply ret_inv in H as [_ ->].
Qed.

Lemma absorb_start_time (p : Z) (data : bytes) (st : stream) :
  start_time (absorb p data st) = start_time st.
Proof.
  unfold absorb. destruct (p =? AUDIO_PID)%Z; [reflexivity|].
  destruct (p =? METADATA_PID)%Z; [|reflexivity].
  destruct (parse_sxm_metadata data); [|reflexivity].
  now destruct (negb _).
Qed.

(** The steps of [es_step] when it emits a frame and goes on. *)
Lemma es_step_emits (p : Z) (data : bytes) (st st1 : stream) (w w1 : world) :
  (METAINT <= length (audio (absorb p data st)))%nat ->
  es_step p data st w = (Ok (Next st1), w1) ->
  let st' := absorb p data st in
  exists m wa wb wc,
    (if new_meta st' then title_frame (track_title st') else Ok [x00]) = Ok m
    /\ wfile_write (take METAINT (audio st')) w = (Ok tt, wa)
    /\ wfile_write m wa = (Ok tt, wb)
    /\ pace (start_time st) wb = (Ok tt, wc)
    /\ w1 = tick wc
    /\ st1 = {| audio := drop METAINT (audio st');
                track_title := track_title st'; new_meta := false;
                start_time := Some (now (tick wc)) |}.
Proof.
  intros Hlen H st'. unfold es_step in H. cbv zeta in H.
  rewrite (proj2 (Nat.leb_le _ _) Hlen) in H. fold st' in H.
  apply bind_ok in H as (m & w0 & Hm & H).
  assert (Hm' : (if new_meta st' then title_frame (track_title st') else Ok [x00])
                = Ok m /\ w0 = w).
  { destruct (new_meta st').
    - apply lift_inv in Hm as [Hm ->]. now split.
    - apply ret_inv in Hm as [Hm ->]. now split. }
  destruct Hm' as [Hm' ->].
  apply except_connection_lost_next in H.
  apply bind_ok in H as ([] & wa & Ha & H).
  apply bind_ok in H as ([] & wb & Hb & H).
  apply bind_ok in H as ([] & wc & Hc & H).
  apply bind_ok in H as (t & wd & Ht & H).
  apply time_time_inv in Ht as [Ht ->]. injection Ht as ->.
  apply ret_inv in H as [H ->]. injection H as ->.
  unfold st' in Hc at 1. rewrite absorb_start_time in Hc.
  exists m, wa, wb, wc. repeat split; assumption.
Qed.

(** C3, as the code has it: the frame is written first, at once; the sleep
    for what is left of the four seconds since the previous time stamp
    comes after the write, and the new time stamp after the sleep.  So two
    successive time stamps are at least four seconds apart, and the first
    frame goes out with no sleep at all. *)
Theorem pacing_sleeps_after_write (p : Z) (data : bytes) (st st1 : stream)
    (w w1 : world) :
  (METAINT <= length (audio (absorb p data st)))%nat ->
  es_step p data st w = (Ok (Next st1), w1) ->
  exists a m t2 sleeps t',
    trace w1 = trace w ++ [Wrote (now (tick w)) a; Wrote t2 m] ++ sleeps
    /\ start_time st1 = Some t'
    /\ (now (tick w) <= t2 <= t')%Z
    /\ match start_time st with
       | None => sleeps = []
       | Some t0 =>
           (t0 + FOUR_SECONDS <= t')%Z
           /\ exists t,
                (t2 <= t)%Z
                /\ ((t0 + FOUR_SECONDS <= t)%Z /\ sleeps = []
                    \/ (t < t0 + FOUR_SECONDS)%Z
                       /\ exists ts d,
                            sleeps = [Slept ts d] /\ (t <= ts)%Z /\ (0 <= d)%Z
                            /\ (ts + d = t0 + FOUR_SECONDS)%Z)
       end.
Proof.
  intros Hlen H.
  destruct (es_step_emits _ _ _ _ _ _ Hlen H)
    as (m & wa & wb & wc & _ & Ha & Hb & Hc & -> & ->).
  apply wfile_write_inv in Ha as [Hta Hna].
  apply wfile_write_inv in Hb as [Htb Hnb].
  apply pace_inv in Hc.
  pose proof (tick_now wa) as Ha'. pose proof (tick_now wb) as Hb'.
  pose proof (tick_now wc) as Hc'.
  exists (take METAINT (audio (absorb p data st))), m, (now (tick wa)).
  cbn [start_time]. rewrite tick_trace.
  destruct (start_time st) as [t0|].
  - cbv zeta in Hc.
    destruct Hc as [(Hfar & Htr & Hn)|(Hnear & ts & d & Htr & Hts & Hd & Hsum & Hn)].
    + exists [], (now (tick wc)). rewrite Htr, Htb, Hta, <- app_assoc.
      repeat split; try reflexivity; try lia.
      exists (now (tick wb)). split; [lia|]. left. split; [lia | reflexivity].
    + exists [Slept ts d], (now (tick wc)). rewrite Htr, Htb, Hta, <- !app_assoc.
      repeat split; try reflexivity; try lia.
      exists (now (tick wb)). split; [lia|]. right. split; [lia|].
      exists ts, d. repeat split; try assumption; lia.
  - subst wc. exists [], (now (tick wb)). rewrite Htb, Hta, <- app_assoc.
    repeat split; try reflexivity; lia.
Qed.

(** ** [channel_stream]: the metadata of a frame *)

Lemma absorb_title (p : Z) (data : bytes) (st : stream) :
  track_title (absorb p data st) = next_title p data (track_title st)
  /\ new_meta (absorb p data st)
     = new_meta st
       || negb (str_eqb (next_title p data (track_title st)) (track_title st)).
Proof.
  assert (Hrefl : forall t : str, negb (str_eqb t t) = false).
  { intros t. apply negb_false_iff. now apply str_eqb_eq. }
  unfold absorb, next_title.
  destruct (p =? AUDIO_PID)%Z eqn:Ea.
  - apply Z.eqb_eq in Ea. subst p. cbn [track_title new_meta].
    change (AUDIO_PID =? METADATA_PID)%Z with false. cbv iota.
    now rewrite Hrefl, orb_false_r.
  - destruct (p =? METADATA_PID)%Z.
    + destruct (parse_sxm_metadata data) as [md|].
      * destruct (negb (str_eqb (title_of md) (track_title st))) eqn:E;
          cbn [track_title new_meta].
        -- now rewrite orb_true_r.
        -- apply negb_false_iff, str_eqb_eq in E. rewrite E.
           now rewrite orb_false_r.
      * now rewrite Hrefl, orb_false_r.
    + now rewrite Hrefl, orb_false_r.
Qed.

Lemma quiet_run_flag (st st' : stream) (ps : list (Z * list byte))
    (p : Z) (data : bytes) :
  quiet_run st ps st' ->
  new_meta (absorb p data st')
  = new_meta st || title_changed (ps ++ [(p, data)]) (track_title st).
Proof.
  induction 1 as [st|st st' q d ps Hlen Hrun IH].
  - cbn [app title_changed]. rewrite orb_false_r. apply absorb_title.
  - rewrite IH. cbn [app title_changed].
    destruct (absorb_title q d st) as [-> ->]. now rewrite orb_assoc.
Qed.

Lemma quiet_run_start_time (st st' : stream) (ps : list (Z * list byte)) :
  quiet_run st ps st' -> start_time st' = start_time st.
Proof.
  induction 1 as [st|st st' q d ps Hlen Hrun IH]; [reflexivity|].
  now rewrite IH, absorb_start_time.
Qed.

(** A quiet run is what the loop does on these packets: no write, no
    sleep, the state absorbed. *)
Lemma quiet_run_steps (st st' : stream) (ps : list (Z * list byte)) (w : world) :
  quiet_run st ps st' ->
  for_each (fun x => es_step (fst x) (snd x)) ps st w = (Ok (Next st'), w).
Proof.
  induction 1 as [st|st st' q d ps Hlen Hrun IH]; [reflexivity|].
  cbn [for_each fst snd]. unfold bind, es_step. cbv zeta.
  rewrite (proj2 (Nat.leb_gt _ _) Hlen). cbn [ret]. exact IH.
Qed.

Lemma ceil_div_spec (n : N) : n <= 16 * ceil_div n 16 < n + 16.
Proof.
  unfold ceil_div. pose proof (N.div_mod n 16 ltac:(discriminate)) as E.
  pose proof (N.mod_lt n 16 ltac:(discriminate)) as Hm.
  destruct (N.eqb_spec (n mod 16) 0) as [H0|H0]; cbv iota;
    revert E Hm H0; generalize (n / 16) (n mod 16); intros; lia.
Qed.

(** The shape of the metadata when the title goes with the frame. *)
Lemma title_frame_shape (title : str) (m : bytes) :
  title_frame title = Ok m ->
  exists text n,
    encode (stream_title title) = Ok text
    /\ m = n :: text
           ++ repeat x00 (16 * N.to_nat (Byte.to_N n) - length text)
    /\ Byte.to_N n = ceil_div (N.of_nat (length text)) 16
    /\ length m = (1 + 16 * N.to_nat (Byte.to_N n))%nat.
Proof.
  unfold title_frame. destruct (encode (stream_title title)) as [text|] eqn:E;
    [|discriminate]. cbn [rbind]. unfold bytes_of_int.
  destruct (Byte.of_N _) as [n|] eqn:En; [|discriminate].
  cbn [rbind]. intros H. injection H as <-.
  apply Byte.to_of_N in En.
  pose proof (ceil_div_spec (N.of_nat (length text))) as Hc.
  exists text, n. rewrite En. repeat split.
  - cbn [app]. do 3 f_equal. lia.
  - cbn [app length]. rewrite length_app, repeat_length. lia.
Qed.

(** A frame that is followed by the next turn of the loop: the flag is
    clear again and the audio sent is gone from the buffer. *)
Lemma frame_then_next (st0 st st1 : stream) (ps : list (Z * list byte))
    (p : Z) (data : bytes) (w w1 : world) :
  new_meta st0 = false ->
  quiet_run st0 ps st ->
  (METAINT <= length (audio (absorb p data st)))%nat ->
  es_step p data st w = (Ok (Next st1), w1) ->
  exists a m sleeps,
    trace w1 = trace w ++ [Wrote (now (tick w)) a] ++ m ++ sleeps
    /\ length a = METAINT
    /\ a ++ audio st1 = audio (absorb p data st)
    /\ (forall e, In e sleeps -> exists t d, e = Slept t d)
    /\ new_meta st1 = false
    /\ exists t2 meta,
         m = [Wrote t2 meta]
         /\ if title_changed (ps ++ [(p, data)]) (track_title st0) then
              exists text n,
                encode (stream_title (track_title st1)) = Ok text
                /\ meta = n :: text
                          ++ repeat x00 (16 * N.to_nat (Byte.to_N n) - length text)
                /\ Byte.to_N n = ceil_div (N.of_nat (length text)) 16
                /\ length meta = (1 + 16 * N.to_nat (Byte.to_N n))%nat
            else meta = [x00].
Proof.
  intros Hflag Hquiet Hlen H.
  destruct (es_step_emits _ _ _ _ _ _ Hlen H)
    as (m & wa & wb & wc & Hm & Ha & Hb & Hc & -> & ->).
  apply wfile_write_inv in Ha as [Hta Hna].
  apply wfile_write_inv in Hb as [Htb Hnb].
  apply pace_inv in Hc.
  rewrite (quiet_run_flag _ _ _ p data Hquiet), Hflag in Hm. cbn [orb] in Hm.
  exists (take METAINT (audio (absorb p data st))), [Wrote (now (tick wa)) m].
  assert (Hsl : exists sleeps,
             trace wc = trace wb ++ sleeps
             /\ forall e, In e sleeps -> exists t d, e = Slept t d).
  { destruct (start_time st) as [t0|].
    - destruct Hc as [(_ & Htr & _)|(_ & ts & d & Htr & _)].
      + exists []. rewrite app_nil_r. split; [assumption | intros e []].
      + exists [Slept ts d]. split; [assumption|].
        intros e [<-|[]]. now exists ts, d.
    - subst wc. exists []. rewrite app_nil_r. split; [reflexivity | intros e []]. }
  destruct Hsl as (sleeps & Htr & Hsl).
  exists sleeps. rewrite tick_trace, Htr, Htb, Hta, <- !app_assoc.
  cbn [audio new_meta track_title].
  repeat split; try assumption.
  - rewrite length_take. lia.
  - apply take_drop.
  - exists (now (tick wa)), m. split; [reflexivity|].
    destruct (title_changed _ _).
    + now apply title_frame_shape.
    + now injection Hm as <-.
Qed.

Lemma bind_cases {A B} (m : M A) (k : A -> M B) (w w' : world) (r : result B) :
  bind m k w = (r, w') ->
  (exists a w1, m w = (Ok a, w1) /\ k a w1 = (r, w'))
  \/ (exists e, m w = (Raise e, w') /\ r = Raise e).
Proof.
  unfold bind. destruct (m w) as [[a|e] w1]; intros H.
  - left. now exists a, w1.
  - right. injection H as <- <-. now exists e.
Qed.

Lemma wfile_write_cases (data : bytes) (r : result unit) (w w' : world) :
  wfile_write data w = (r, w') ->
  (r = Ok tt /\ trace w' = trace w ++ [Wrote (now (tick w)) data])
  \/ ((exists e, r = Raise e)
      /\ exists n, trace w' = trace w ++ [Failed (now (tick w)) (take n data)]).
Proof.
  unfold wfile_write. rewrite <- (tick_trace w).
  destruct (faults (tick w)) as [|[[e n]|] fs]; intros H; injection H as <- <-;
    cbn [trace]; eauto.
Qed.

Lemma pace_trace (start : option Z) (r : result unit) (w w' : world) :
  pace start w = (r, w') ->
  exists sleeps,
    trace w' = trace w ++ sleeps
    /\ forall e, In e sleeps -> exists t d, e = Slept t d.
Proof.
  assert (Hnone : forall v : world, exists sleeps,
             trace v = trace v ++ sleeps
             /\ forall e, In e sleeps -> exists t d, e = Slept t d).
  { intros v. exists []. rewrite app_nil_r. split; [reflexivity | intros e []]. }
  destruct start as [t0|]; cbn [pace]; intros H.
  - apply bind_cases in H as [(t & wa & Ht & H)|(e & Ht & _)];
      apply time_time_inv in Ht as [Ht Hw]; [|discriminate].
    subst wa. destruct (t - t0 <? FOUR_SECONDS)%Z.
    + apply bind_cases in H as [(t2 & wb & Ht2 & H)|(e & Ht2 & _)];
        apply time_time_inv in Ht2 as [Ht2 Hw]; [|discriminate].
      subst wb. unfold time_sleep in H.
      destruct (_ <? 0)%Z; injection H as <- <-.
      * rewrite !tick_trace. apply Hnone.
      * cbn [trace]. rewrite !tick_trace. eexists. split; [reflexivity|].
        intros e [<-|[]]. eauto.
    + apply ret_inv in H as [_ ->]. rewrite tick_trace. apply Hnone.
  - apply ret_inv in H as [_ ->]. apply Hnone.
Qed.

Lemma except_connection_lost_world {A} (m : M (flow A)) (r : result (flow A))
    (w w' : world) :
  except_connection_lost m (ret Return) w = (r, w') ->
  exists r', m w = (r', w').
Proof.
  unfold except_connection_lost, ret.
  destruct (m w) as [[x|e] w0]; intros H.
  - injection H as <- <-. eauto.
  - destruct e; injection H as <- <-; eauto.
Qed.

(** What one turn of the loop body adds to the trace: nothing, a part of
    the audio (the first write failed), the audio and a part of the
    metadata (the second write failed), or audio, metadata and at most a
    sleep. *)
Lemma es_step_trace (p : Z) (data : bytes) (st : stream)
    (r : result (flow stream)) (w w1 : world) :
  es_step p data st w = (r, w1) ->
  let st' := absorb p data st in
  trace w1 = trace w
  \/ (exists t1 n,
        trace w1 = trace w ++ [Failed t1 (take n (take METAINT (audio st')))])
  \/ (exists t1 t2 m n,
        trace w1 = trace w ++ [Wrote t1 (take METAINT (audio st'));
                               Failed t2 (take n m)]
        /\ (if new_meta st' then title_frame (track_title st') else Ok [x00])
           = Ok m)
  \/ (exists t1 t2 m sleeps,
        trace w1 = trace w ++ Wrote t1 (take METAINT (audio st'))
                            :: Wrote t2 m :: sleeps
        /\ (if new_meta st' then title_frame (track_title st') else Ok [x00])
           = Ok m
        /\ forall e, In e sleeps -> exists t d, e = Slept t d).
Proof.
  intros H st'. unfold es_step in H. cbv zeta in H. fold st' in H.
  destruct (METAINT <=? length (audio st'))%nat.
  2: { apply ret_inv in H as [_ ->]. now left. }
  apply bind_cases in H as [(m & w0 & Hm & H)|(e & Hm & _)].
  2: { left. destruct (new_meta st').
       - now apply lift_inv in Hm as [_ ->].
       - now apply ret_inv in Hm as [_ ->]. }
  assert (Hm' : (if new_meta st' then title_frame (track_title st') else Ok [x00])
                = Ok m /\ w0 = w).
  { destruct (new_meta st').
    - apply lift_inv in Hm as [Hm ->]. now split.
    - apply ret_inv in Hm as [Hm ->]. now split. }
  destruct Hm' as [Hm' ->].
  apply except_connection_lost_world in H as (r' & H).
  apply bind_cases in H as [([] & wa & Ha & H)|(e & Ha & _)];
    apply wfile_write_cases in Ha as [[Hr Hta]|[[e' Hr] [n Hta]]];
    try discriminate; [|right; left; eauto].
  apply bind_cases in H as [([] & wb & Hb & H)|(e & Hb & _)];
    apply wfile_write_cases in Hb as [[Hr' Htb]|[[e' Hr'] [n Htb]]];
    try discriminate.
  2: { right. right. left. eexists _, _, m, n. split; [|exact Hm'].
       now rewrite Htb, Hta, <- app_assoc. }
  right. right. right.
  assert (Hsl : exists sleeps,
             trace w1 = trace wb ++ sleeps
             /\ forall e, In e sleeps -> exists t d, e = Slept t d).
  { apply bind_cases in H as [([] & wc & Hc & H)|(e & Hc & _)];
      apply pace_trace in Hc as (sleeps & Htc & Hsl); [|eauto].
    apply bind_cases in H as [(t & wd & Ht & H)|(e & Ht & _)];
      apply time_time_inv in Ht as [Ht Hw]; [|discriminate].
    subst wd. apply ret_inv in H as [_ ->]. rewrite tick_trace. eauto. }
  destruct Hsl as (sleeps & Htc & Hsl).
  eexists _, _, m, sleeps. rewrite Htc, Htb, Hta, <- !app_assoc.
  repeat split; assumption.
Qed.

(** C6: whenever a turn of the loop body writes a block of audio and then
    a metadata block, the audio is the first 32768 bytes of the buffer and
    nothing but a sleep follows.  The metadata block is the single byte 0
    when no packet since the frame before changed the title; when one did,
    it is one length byte, the text [StreamTitle='...';] with the
    apostrophes of the title removed, and zero bytes, with the length byte
    equal to the length of the text divided by 16 and rounded up, and 1
    plus 16 times the length byte as total length. *)
Theorem frame_metadata (st0 st : stream) (ps : list (Z * list byte))
    (p : Z) (data : bytes) (r : result (flow stream)) (w w1 : world)
    (t1 t2 : Z) (a meta : bytes) (rest : list event) :
  new_meta st0 = false ->
  quiet_run st0 ps st ->
  es_step p data st w = (r, w1) ->
  trace w1 = trace w ++ Wrote t1 a :: Wrote t2 meta :: rest ->
  length a = METAINT
  /\ a = take METAINT (audio (absorb p data st))
  /\ (forall e, In e rest -> exists t d, e = Slept t d)
  /\ if title_changed (ps ++ [(p, data)]) (track_title st0) then
       exists text n,
         encode (stream_title (track_title (absorb p data st))) = Ok text
         /\ meta = n :: text
                   ++ repeat x00 (16 * N.to_nat (Byte.to_N n) - length text)
         /\ Byte.to_N n = ceil_div (N.of_nat (length text)) 16
         /\ length meta = (1 + 16 * N.to_nat (Byte.to_N n))%nat
     else meta = [x00].
Proof.
  intros Hflag Hquiet H Htrace.
  assert (Hlen : (METAINT <= length (audio (absorb p data st)))%nat).
  { destruct (Nat.leb_spec METAINT (length (audio (absorb p data st))))
      as [Hle|Hlt]; [assumption|exfalso].
    unfold es_step in H. cbv zeta in H.
    rewrite (proj2 (Nat.leb_gt _ _) Hlt) in H. apply ret_inv in H as [_ ->].
    apply (f_equal (@length event)) in Htrace.
    rewrite length_app in Htrace. cbn [length] in Htrace. lia. }
  apply es_step_trace in H. cbv zeta in H.
  rewrite (quiet_run_flag _ _ _ p data Hquiet), Hflag in H. cbn [orb] in H.
  destruct H as [H|[(t & n & H)|[(t & t' & m & n & H & _)
                                |(t & t' & m & sleeps & H & Hm & Hsl)]]];
    rewrite H in Htrace.
  - apply (f_equal (@length event)) in Htrace.
    rewrite length_app in Htrace. cbn [length] in Htrace. lia.
  - apply app_inv_head in Htrace. discriminate.
  - apply app_inv_head in Htrace. discriminate.
  - apply app_inv_head in Htrace. injection Htrace as <- <- <- <- <-.
    split; [rewrite length_take; lia|]. split; [reflexivity|].
    split; [assumption|].
    destruct (title_changed _ _).
    + now apply title_frame_shape.
    + now injection Hm as <-.
Qed.


(** * Further properties of the client *)

(** ** [_filter_playlist]: every outcome *)

Lemma slice_from_drop {A} (z : Z) (l : list A) :
  exists n, slice_from z l = drop n l.
Proof. unfold slice_from. eexists. reflexivity. Qed.

(** X1: On a playlist text without an empty line [_filter_playlist] raises
    nothing, whatever the marker and the rewind (a negative one too): the
    [index] call is guarded by the [in] test.  What it returns is a tail
    of the entries: no entry is made up, repeated or reordered. *)
Theorem filter_playlist_returns_tail (P : str) (last : option str) (r : Z) :
  ~ In [] (splitlines P) ->
  exists pre l,
    _filter_playlist P last r = Ok l /\ spec_entries P = pre ++ l.
Proof.
  intros Hlines. unfold _filter_playlist.
  rewrite (filter_playlist_entries P last r Hlines). cbn [rbind].
  assert (Hwin : forall z : Z, exists pre l,
             Ok (slice_from z (spec_entries P)) = Ok l
             /\ spec_entries P = pre ++ l).
  { intros z. destruct (slice_from_drop z (spec_entries P)) as [n ->].
    exists (take n (spec_entries P)), (drop n (spec_entries P)).
    split; [reflexivity | now rewrite take_drop]. }
  destruct last as [m|]; [|apply Hwin].
  destruct (truthy (Some m) && py_in m (spec_entries P)) eqn:E; [|apply Hwin].
  apply andb_prop in E as [_ E]. apply py_in_In in E.
  destruct (py_index_first m (spec_entries P) E) as (pre & post & Heq & _ & Hidx).
  rewrite Hidx. cbn [rbind]. exists (pre ++ [m]), post. split.
  - rewrite Heq at 1. now rewrite slice_from_after.
  - now rewrite <- app_assoc.
Qed.

(** ** The token pattern of [_channel_token] *)

Lemma take_while_spec (f : N -> bool) (s : str) :
  exists post,
    s = take_while f s ++ post
    /\ forallb f (take_while f s) = true
    /\ match post with c :: _ => f c = false | [] => True end.
Proof.
  induction s as [|c s (post & Hs & Hall & Hpost)]; cbn [take_while].
  - exists []. repeat split.
  - destruct (f c) eqn:E.
    + exists post. cbn [app forallb]. rewrite E, Hall. repeat split; [|assumption].
      now rewrite <- Hs.
    + exists (c :: s). repeat split. assumption.
Qed.

Lemma is_prefix_app (a s : str) :
  is_prefix a s = true -> s = a ++ drop (length a) s.
Proof.
  revert s. induction a as [|x a IH]; intros s H; [reflexivity|].
  destruct s as [|y s]; [discriminate|]. cbn [is_prefix] in H.
  apply andb_prop in H as [Hx Ha]. apply N.eqb_eq in Hx. subst y.
  cbn [app length drop]. f_equal. now apply IH.
Qed.

Lemma is_prefix_of_app (a s : str) : is_prefix a (a ++ s) = true.
Proof.
  induction a as [|x a IH]; [reflexivity|]. cbn [app is_prefix].
  now rewrite N.eqb_refl, IH.
Qed.

Lemma match_rest_sound (s g url tok : str) :
  match_rest g s = Some (url, tok) ->
  exists mid post,
    url = g ++ mid /\ s = mid ++ token_mark ++ tok ++ post
    /\ ~ In 10 mid
    /\ tok <> [] /\ forallb is_token_char tok = true
    /\ match post with c :: _ => is_token_char c = false | [] => True end.
Proof.
  revert g. induction s as [|c s IH]; intros g H.
  - cbn in H. discriminate.
  - cbn [match_rest] in H.
    destruct (is_prefix token_mark (c :: s)) eqn:Ep.
    + destruct (take_while is_token_char (drop (length token_mark) (c :: s)))
        as [|t0 tk] eqn:Et.
      * destruct (c =? 10) eqn:Ec; [discriminate|].
        destruct (IH _ H) as (mid & post & -> & -> & Hmid & Htok).
        exists (c :: mid), post. rewrite <- app_assoc. repeat split; try apply Htok.
        intros [Hc|Hin]; [|auto]. subst c. discriminate.
      * injection H as <- <-.
        destruct (take_while_spec is_token_char
                    (drop (length token_mark) (c :: s))) as (post & Hs & Hall & Hpost).
        rewrite Et in Hs, Hall.
        exists [], post. rewrite app_nil_r, app_nil_l, <- Hs.
        repeat split; try assumption; try discriminate; [|intros []].
        now apply is_prefix_app.
    + destruct (c =? 10) eqn:Ec; [discriminate|].
      destruct (IH _ H) as (mid & post & -> & -> & Hmid & Htok).
      exists (c :: mid), post. rewrite <- app_assoc. repeat split; try apply Htok.
      intros [Hc|Hin]; [|auto]. subst c. discriminate.
Qed.

Lemma match_rest_here (g s : str) :
  is_prefix token_mark s = true ->
  take_while is_token_char (drop (length token_mark) s) <> [] ->
  match_rest g s <> None.
Proof.
  intros Hp Ht. destruct s as [|c s]; [discriminate|].
  cbn [match_rest]. rewrite Hp.
  destruct (take_while is_token_char (drop (length token_mark) (c :: s)));
    [congruence | discriminate].
Qed.

Lemma match_rest_complete (mid g tok post : str) :
  ~ In 10 mid -> tok <> [] -> forallb is_token_char tok = true ->
  match_rest g (mid ++ token_mark ++ tok ++ post) <> None.
Proof.
  intros Hmid Htok Hall. revert g.
  induction mid as [|c mid IH]; intros g.
  - cbn [app]. apply match_rest_here; [apply is_prefix_of_app|].
    rewrite drop_app_length.
    destruct tok as [|t0 tk]; [congruence|].
    cbn [forallb] in Hall. apply andb_prop in Hall as [Ht0 _].
    cbn [app take_while]. rewrite Ht0. discriminate.
  - cbn [app match_rest].
    destruct (if is_prefix token_mark (c :: mid ++ token_mark ++ tok ++ post)
              then _ else _); [discriminate|].
    destruct (N.eqb_spec c 10) as [->|_].
    + exfalso. apply Hmid. now left.
    + apply IH. intros H. apply Hmid. now right.
Qed.

(** X2: The pair [re.search(...).group(1, 2)] returns cuts the text into what
    stands before the match, the URL, [?token=], the token and the rest,
    and the token goes on as far as its characters do; and the search
    finds a match whenever the text can be cut into such parts at all. *)
Theorem search_token_spec (s : str) :
  (forall url tok,
     search_token s = Some (url, tok) ->
     exists pre post,
       s = pre ++ url ++ token_mark ++ tok ++ post
       /\ token_match url tok
       /\ match post with c :: _ => is_token_char c = false | [] => True end)
  /\ (search_token s = None ->
      forall pre url tok post,
        token_match url tok ->
        s <> pre ++ url ++ token_mark ++ tok ++ post).
Proof.
  split.
  - induction s as [|c s IH]; intros url tok H; [discriminate|].
    cbn [search_token] in H.
    destruct (if c =? 10 then None else match_rest [c] s) as [[g t]|] eqn:E.
    + injection H as -> ->.
      destruct (c =? 10) eqn:Ec; [discriminate|].
      apply match_rest_sound in E as (mid & post & -> & -> & Hmid & Htok & Hall & Hpost).
      exists [], post. split; [reflexivity|]. split; [|exact Hpost].
      repeat split; try assumption; [discriminate|].
      intros [Hc|Hin]; [|auto]. subst c. discriminate.
    + destruct (IH _ _ H) as (pre & post & -> & Hm).
      exists (c :: pre), post. now split.
  - induction s as [|c s IH]; intros Hnone pre url tok post Hm Heq.
    + destruct Hm as (Hurl & _). destruct pre; [|discriminate].
      destruct url; [congruence | discriminate].
    + cbn [search_token] in Hnone.
      destruct (if c =? 10 then None else match_rest [c] s) as [[g t]|] eqn:E;
        [discriminate|].
      destruct pre as [|p pre].
      * destruct Hm as (Hurl & Hnl & Htok & Hall).
        destruct url as [|c' mid]; [congruence|].
        cbn [app] in Heq. injection Heq as <- ->.
        destruct (N.eqb_spec c 10) as [->|_]; [apply Hnl; now left|].
        revert E. apply match_rest_complete; try assumption.
        intros H. apply Hnl. now right.
      * cbn [app] in Heq. injection Heq as <- ->.
        now apply (IH Hnone pre url tok post).
Qed.

(** ** [login]: the Sirius object afterwards *)

Ltac bind_step H :=
  let a := fresh "a" in
  let w := fresh "w" in
  let e := fresh "e" in
  let Hs := fresh "Hstep" in
  apply bind_cases in H as [(a & w & Hs & H)|(e & Hs & ->)].

Ltac exchange_steps :=
  unfold requests_json, requests_get in *;
  repeat match goal with
         | H : exchange _ _ _ = (_, _) |- _ =>
             let u' := fresh "u'" in
             apply exchange_inv in H as (u' & _ & ->)
         end.

Lemma authenticate_sx (name pass : str) (r : result (str * str)) (w w1 : world) :
  authenticate name pass w = (r, w1) ->
  let s := set_credentials name pass (sx w) in
  ((exists e, r = Raise e) /\ (sx w1 = s \/ exists k, sx w1 = set_key k s))
  \/ exists a k, r = Ok a /\ sx w1 = set_key k s.
Proof.
  intros H s. unfold authenticate in H. subst s.
  repeat (bind_step H; exchange_steps; invert_steps; cbn [with_sx answered sx] in *;
          [|now eauto 6]).
  subst r. eauto 6.
Qed.

Lemma complete_sx (name auth_url data : str) (r : result unit) (w w' : world) :
  complete name auth_url data w = (r, w') ->
  ((exists e, r = Raise e) /\ sx w' = sx w)
  \/ (r = Ok tt /\ exists sid, sx w' = set_session_id sid (sx w)).
Proof.
  intros H. unfold complete in H.
  do 3 (bind_step H; exchange_steps; invert_steps; cbn [with_sx answered sx] in *;
        [|now eauto 6]).
  destruct (eq_int _ 0).
  - do 2 (bind_step H; invert_steps; cbn [with_sx answered sx] in *; [|now eauto 6]).
    destruct (eq_int _ 401); unfold raise in H; injection H as <- <-; eauto 6.
  - apply bind_cases in H as [(sid & w2 & Hs & H)|(e & Hs & ->)];
      apply lift_inv in Hs as [Hs ->]; [|now eauto 6].
    apply update_sx_inv in H as [-> ->]. cbn [with_sx answered sx]. eauto 6.
Qed.

(** The Sirius object once [login] is over, whatever the outcome. *)
Lemma login_sx (name pass : str) (r : result unit) (w w' : world) :
  login name pass w = (r, w') ->
  let s := set_credentials name pass (sx w) in
  match r with
  | Ok _ => exists k sid, sx w' = set_session_id sid (set_key k s)
  | Raise _ => sx w' = s \/ exists k, sx w' = set_key k s
  end.
Proof.
  intros H s. unfold login in H.
  apply bind_cases in H as [([auth_url data] & w1 & Ha & H)|(e & Ha & ->)];
    apply authenticate_sx in Ha; cbv zeta in Ha; fold s in Ha.
  - destruct Ha as [[[e He] _]|(a & k & _ & Hk)]; [discriminate|].
    apply complete_sx in H as [[[e ->] Hs]|[-> [sid Hs]]]; rewrite Hs, Hk; eauto.
  - destruct Ha as [[_ Hs]|(a & k & He & _)]; [exact Hs | discriminate].
Qed.

(** X3: [login] stores the credentials it is given before anything else, so
    they are replaced even when it fails; the session id changes only
    when it succeeds, and then a key is set too.  The configuration, the
    line-up and the token cache are never touched. *)
Theorem login_leaves (name pass : str) (r : result unit) (w w' : world) :
  login name pass w = (r, w') ->
  config (sx w') = config (sx w)
  /\ lineup (sx w') = lineup (sx w)
  /\ token_cache (sx w') = token_cache (sx w)
  /\ username (sx w') = Some name
  /\ password (sx w') = Some pass
  /\ match r with
     | Ok _ => (exists k, key (sx w') = Some k)
               /\ exists sid, session_id (sx w') = Some sid
     | Raise _ => session_id (sx w') = session_id (sx w)
     end.
Proof.
  intros H. apply login_sx in H. cbv zeta in H. destruct r as [[]|e].
  - destruct H as (k & sid & ->). cbn. repeat split; eauto.
  - destruct H as [->|[k ->]]; cbn; repeat split.
Qed.

(** ** [_channel_token]: the cache *)

Lemma attr_inv {A} (a : option A) (x : result A) (w w' : world) :
  attr a w = (x, w') ->
  w' = w /\ match a with Some v => x = Ok v | None => x = Raise AttributeError end.
Proof. destruct a; cbn; intros H; injection H as <- <-; now split. Qed.

Lemma raise_inv {A} (e : exn) (x : result A) (w w' : world) :
  raise e w = (x, w') -> x = Raise e /\ w' = w.
Proof. unfold raise. intros H. injection H as <- <-. now split. Qed.

Lemma _decrypt_world (ciphertext : json) (x : result bytes) (w w' : world) :
  _decrypt ciphertext w = (x, w') -> w' = w.
Proof.
  unfold _decrypt, bind, get_sx, attr, lift, ret, raise.
  destruct (key (sx w)); [|intros H; now injection H as <- <-].
  destruct (aes_new _ _); [|intros H; now injection H as <- <-].
  destruct (as_str _); [|intros H; now injection H as <- <-].
  destruct (fromhex _); intros H; now injection H as <- <-.
Qed.

Lemma read_token_sx (channel_key : str) (resp : json) (r : result (str * str))
    (w w' : world) :
  read_token channel_key resp w = (r, w') ->
  (exists t, r = Ok t /\ sx w' = set_token channel_key t (sx w))
  \/ ((exists e, r = Raise e) /\ sx w' = sx w).
Proof.
  intros H. unfold read_token in H.
  do 2 (bind_step H; invert_steps; [|now eauto]).
  bind_step H; [|apply _decrypt_world in Hstep as ->; now eauto].
  apply _decrypt_world in Hstep as ->.
  do 2 (bind_step H; invert_steps; [|now eauto]).
  destruct (search_token _) as [t|].
  - apply bind_cases in H as [([] & w2 & Hs & H)|(e & Hs & ->)];
      apply update_sx_inv in Hs as [Hr ->]; [|discriminate].
    apply ret_inv in H as [-> ->]. left. eauto.
  - apply raise_inv in H as [-> ->]. eauto.
Qed.

(** What a call of [_channel_token] does to the Sirius object, whatever
    the outcome. *)
Lemma channel_token_sx (depth : nat) (channel_key : str) (invalidate : bool)
    (r : result (str * str)) (w w' : world) :
  _channel_token depth channel_key invalidate w = (r, w') ->
  config (sx w') = config (sx w)
  /\ lineup (sx w') = lineup (sx w)
  /\ (forall k, k <> channel_key ->
        token_cache (sx w') !! k = token_cache (sx w) !! k)
  /\ forall t, r = Ok t -> token_cache (sx w') !! channel_key = Some t.
Proof.
  revert invalidate r w w'.
  induction depth as [|depth IH]; intros invalidate r w w' H; cbn [_channel_token] in H.
  { apply raise_inv in H as [-> ->]. repeat split. discriminate. }
  bind_step H; invert_steps; [|discriminate].
  match goal with E : Ok _ = Ok _ |- _ => injection E as -> end.
  destruct (if invalidate then None else token_cache (sx w) !! channel_key)
    as [t|] eqn:Ec.
  { apply ret_inv in H as [-> ->]. repeat split.
    intros t' E. injection E as <-. now destruct invalidate. }
  bind_step H; invert_steps; [|repeat split; discriminate].
  bind_step H; [|apply attr_inv in Hstep as [-> _]; repeat split; discriminate].
  apply attr_inv in Hstep as [-> _].
  bind_step H; exchange_steps; [|cbn [answered sx]; repeat split; discriminate].
  bind_step H; invert_steps; [|cbn [answered sx]; repeat split; discriminate].
  match type of H with _ ?v = _ => set (w1 := v) in * end.
  assert (Hw1 : sx w1 = sx w) by reflexivity.
  match type of H with context [if ?usable then _ else _] => destruct usable end.
  - apply read_token_sx in H as [(t & -> & Hs)|[[e ->] Hs]]; rewrite Hs, Hw1.
    + cbn [set_token config lineup token_cache]. repeat split.
      * intros k Hk. now apply lookup_insert_ne.
      * intros t' E. injection E as <-. apply lookup_insert_eq.
    + repeat split. discriminate.
  - bind_step H; invert_steps; [|discriminate].
    match goal with E : Ok _ = Ok _ |- _ => injection E as -> end.
    bind_step H; [|apply attr_inv in Hstep as [-> _]; rewrite Hw1;
                   repeat split; discriminate].
    apply attr_inv in Hstep as [-> _].
    bind_step H; [|apply attr_inv in Hstep as [-> _]; rewrite Hw1;
                   repeat split; discriminate].
    apply attr_inv in Hstep as [-> _].
    apply bind_cases in H as [([] & w2 & Hlog & H)|(e & Hlog & ->)];
      apply login_sx in Hlog; cbv zeta in Hlog.
    + destruct Hlog as (k & sid & Hs).
      apply IH in H as (Hc & Hl & Ho & Ht).
      rewrite Hs, Hw1 in Hc, Hl, Ho. cbn in Hc, Hl, Ho. auto.
    + destruct Hlog as [Hs|[k Hs]]; rewrite Hs, Hw1; cbn;
        repeat split; discriminate.
Qed.

(** X4: A token that [_channel_token] returns is in the cache under its
    channel key, so that the next call for that channel that does not
    invalidate returns the same token and sends nothing. *)
Theorem channel_token_cached (depth : nat) (channel_key : str)
    (invalidate : bool) (t : str * str) (w w' : world) :
  _channel_token depth channel_key invalidate w = (Ok t, w') ->
  token_cache (sx w') !! channel_key = Some t
  /\ forall d, _channel_token (S d) channel_key false w' = (Ok t, w').
Proof.
  intros H. apply channel_token_sx in H as (_ & _ & _ & Ht).
  specialize (Ht t eq_refl). split; [exact Ht|].
  intros d. cbn [_channel_token]. unfold bind, get_sx. now rewrite Ht.
Qed.

(** X5: Whatever its outcome, [_channel_token] leaves the configuration, the
    line-up and the tokens cached for the other channels as they were. *)
Theorem channel_token_frame (depth : nat) (channel_key : str)
    (invalidate : bool) (r : result (str * str)) (w w' : world) :
  _channel_token depth channel_key invalidate w = (r, w') ->
  config (sx w') = config (sx w)
  /\ lineup (sx w') = lineup (sx w)
  /\ forall k, k <> channel_key ->
       token_cache (sx w') !! k = token_cache (sx w) !! k.
Proof.
  intros H. apply channel_token_sx in H as (Hc & Hl & Ho & _). auto.
Qed.

(** ** [_get_token_resource]: what is returned *)

(** X6: A response that [_get_token_resource] returns has status 200, however
    many times the token had to be renewed on the way.  It is the
    upstream's answer to the last request that was sent: that request
    asked for the file with the token that is now in the cache for the
    channel, and nothing has reached the upstream since. *)
Theorem get_token_resource_returns_200 (depth : nat) (channel_key file : str)
    (resp : response) (w w' : world) :
  _get_token_resource depth channel_key file w = (Ok resp, w') ->
  status_code resp = 200%Z
  /\ exists channel_url token u0,
       token_cache (sx w') !! channel_key = Some (channel_url, token)
       /\ last (sent w')
          = Some (resource_request channel_url channel_key file token)
       /\ http_get u0 (resource_request channel_url channel_key file token)
          = (up w', Ok resp).
Proof.
  revert w. induction depth as [|depth IH]; intros w H; cbn [_get_token_resource] in H.
  { apply raise_inv in H as [H _]. discriminate. }
  apply bind_ok in H as ([channel_url token] & w1 & Htok & H).
  apply channel_token_sx in Htok as (_ & _ & _ & Hcache).
  specialize (Hcache _ eq_refl).
  apply bind_ok in H as (resp1 & w2 & Hreq & H).
  unfold requests_get in Hreq. apply exchange_inv in Hreq as (u' & Hget & ->).
  destruct (Z.eqb_spec (status_code resp1) 200) as [E200|_].
  - apply ret_inv in H as [H ->]. injection H as ->. split; [exact E200|].
    exists channel_url, token, (up w1). split; [exact Hcache|].
    cbn [answered sent up]. split; [apply last_snoc | exact Hget].
  - destruct (status_code resp1 =? 404)%Z.
    + apply raise_inv in H as [H _]. discriminate.
    + apply bind_ok in H as (t & w3 & _ & H). now apply IH in H.
Qed.

(** ** [channel_metadata]: which block is reported *)

Lemma first_block_wins (l : list (list byte)) (md : option (str * str * str)) :
  fold_left
    (fun (metadata : option (str * str * str)) es_payload =>
       match metadata, parse_sxm_metadata es_payload with
       | None, Some new_meta => Some new_meta
       | _, _ => metadata
       end) l md
  = match md with
    | Some m => Some m
    | None => head (omap parse_sxm_metadata l)
    end.
Proof.
  revert md. induction l as [|es l IH]; intros md; cbn [fold_left].
  - now destruct md.
  - rewrite IH. destruct md as [m|]; [reflexivity|]. cbn [omap list_omap].
    now destruct (parse_sxm_metadata es).
Qed.

Lemma find_metadata_first (packets : list pes_packet)
    (md : option (str * str * str)) :
  (forall pes, In pes packets -> pid pes = METADATA_PID -> payload pes <> None) ->
  find_metadata packets md
  = Ok match md with
       | Some m => Some m
       | None => head (omap parse_sxm_metadata (metadata_packets packets))
       end.
Proof.
  revert md. induction packets as [|pes rest IH]; intros md Hp.
  - now destruct md.
  - assert (Hrest : forall q, In q rest -> pid q = METADATA_PID -> payload q <> None)
      by (intros q Hq; apply Hp; now right).
    cbn [find_metadata metadata_packets flat_map].
    destruct (Z.eqb_spec (pid pes) METADATA_PID) as [E|_].
    + destruct (payload pes) as [data|] eqn:Ed;
        [|now destruct (Hp pes (or_introl eq_refl) E)].
      rewrite (IH _ Hrest), first_block_wins.
      destruct md as [m|]; [reflexivity|].
      fold (metadata_packets rest). rewrite omap_app.
      now destruct (omap parse_sxm_metadata (parse_packetized_elementary_stream data)).
    + now rewrite (IH _ Hrest).
Qed.

Lemma find_metadata_bare (packets : list pes_packet)
    (md : option (str * str * str)) :
  (exists pes, In pes packets /\ pid pes = METADATA_PID /\ payload pes = None) ->
  find_metadata packets md = Raise KeyError.
Proof.
  revert md. induction packets as [|pes rest IH]; intros md (q & Hq & Hpid & Hnone);
    [destruct Hq|].
  cbn [find_metadata]. destruct Hq as [->|Hq].
  - rewrite Hpid, Hnone. reflexivity.
  - assert (Hrest : forall m, find_metadata rest m = Raise KeyError)
      by (intros m; apply IH; eauto).
    destruct (pid pes =? METADATA_PID)%Z; [|apply Hrest].
    destruct (payload pes); [apply Hrest | reflexivity].
Qed.

(** X7: When every packet on the metadata PID has a payload, [channel_metadata]
    answers with the first block that [parse_sxm_metadata] recognises in
    the first segment of a new generator: element 1 as the artist,
    element 0 as the title, element 2 as the album.  Blocks that come
    later in the segment do not count. *)
Theorem channel_metadata_first_block (rounds depth : nat)
    (channel_number rewind : Z) (ch : channel) (packet : bytes)
    (g : generator) (title artist album : str) (w w' : world) :
  lineup (sx w) !! channel_number = Some ch ->
  packet_generator_next rounds depth (channelKey ch) rewind new_generator w
  = (Ok (Some (packet, g)), w') ->
  (forall pes, In pes (parse_transport_stream packet) ->
     pid pes = METADATA_PID -> payload pes <> None) ->
  head (omap parse_sxm_metadata (metadata_packets (parse_transport_stream packet)))
  = Some (title, artist, album) ->
  channel_metadata rounds depth channel_number rewind w
  = (Ok (Some (NowPlaying ch artist title album)), w').
Proof.
  intros Hch Hnext Hp Hfirst. unfold channel_metadata, bind at 1. cbn [get_sx].
  rewrite Hch. unfold bind at 1. rewrite Hnext.
  unfold bind, lift. rewrite (find_metadata_first _ None Hp), Hfirst.
  reflexivity.
Qed.

(** X8: A packet on the metadata PID that has no payload makes
    [channel_metadata] raise [KeyError], wherever it stands in the
    segment and whatever the other packets hold: the handler subscripts
    ['payload'] without the test that [channel_stream] makes. *)
Theorem channel_metadata_bare_packet (rounds depth : nat)
    (channel_number rewind : Z) (ch : channel) (packet : bytes)
    (g : generator) (bare : pes_packet) (w w' : world) :
  lineup (sx w) !! channel_number = Some ch ->
  packet_generator_next rounds depth (channelKey ch) rewind new_generator w
  = (Ok (Some (packet, g)), w') ->
  In bare (parse_transport_stream packet) ->
  pid bare = METADATA_PID ->
  payload bare = None ->
  channel_metadata rounds depth channel_number rewind w = (Raise KeyError, w').
Proof.
  intros Hch Hnext Hin Hpid Hnone. unfold channel_metadata, bind at 1. cbn [get_sx].
  rewrite Hch. unfold bind at 1. rewrite Hnext.
  unfold bind, lift. rewrite (find_metadata_bare _ None); [reflexivity|eauto].
Qed.

(** ** [channel_stream]: the streams of a segment *)

Lemma stream_of_extend (p q : Z) (data : bytes) (d : list (Z * list byte)) :
  stream_of q (extend p data d)
  = if (p =? q)%Z then Some (default [] (stream_of q d) ++ data)
    else stream_of q d.
Proof.
  induction d as [|[k b] d IH]; cbn [extend stream_of].
  - now destruct (p =? q)%Z.
  - destruct (Z.eqb_spec k p) as [->|Hkp]; cbn [stream_of].
    + now destruct (p =? q)%Z.
    + rewrite IH. destruct (Z.eqb_spec k q) as [->|Hkq]; [|reflexivity].
      now rewrite (proj2 (Z.eqb_neq p q)) by congruence.
Qed.

Lemma extend_keys (p : Z) (data : bytes) (d : list (Z * list byte)) :
  List.NoDup (map fst d) ->
  List.NoDup (map fst (extend p data d))
  /\ forall q, In q (map fst (extend p data d)) <-> q = p \/ In q (map fst d).
Proof.
  induction d as [|[k b] d IH]; intros Hnd; cbn [extend map fst].
  - split; [repeat constructor; intros [] | intros q; cbn; intuition].
  - apply NoDup_cons_iff in Hnd as [Hk Hnd]. destruct (IH Hnd) as [IH1 IH2].
    destruct (Z.eqb_spec k p) as [->|Hkp]; cbn [map fst].
    + split; [now apply NoDup_cons_iff | intros q; cbn; intuition].
    + split.
      * apply NoDup_cons_iff. split; [|assumption].
        intros Hin. apply IH2 in Hin as [->|Hin]; [congruence | auto].
      * intros q. cbn [In]. rewrite IH2. intuition.
Qed.

Lemma stream_of_In (p : Z) (data : bytes) (d : list (Z * list byte)) :
  List.NoDup (map fst d) -> (In (p, data) d <-> stream_of p d = Some data).
Proof.
  induction d as [|[k b] d IH]; intros Hnd; cbn [stream_of In].
  - split; [intros [] | discriminate].
  - cbn [map fst] in Hnd. apply NoDup_cons_iff in Hnd as [Hk Hnd].
    destruct (Z.eqb_spec k p) as [->|Hkp].
    + split.
      * intros [E|Hin]; [now injection E as -> |].
        exfalso. apply Hk. apply in_map_iff. now exists (p, data).
      * intros E. injection E as ->. now left.
    + rewrite <- (IH Hnd). split; [intros [E|Hin] | now right]; [|assumption].
      injection E as -> _. congruence.
Qed.

Lemma payloads_of_none (p : Z) (packets : list pes_packet) :
  existsb (carries p) packets = false -> payloads_of p packets = [].
Proof.
  induction packets as [|pes packets IH]; [reflexivity|].
  cbn [existsb]. intros H. apply orb_false_elim in H as [Hc H].
  unfold payloads_of. cbn [flat_map]. fold (payloads_of p packets).
  rewrite (IH H), app_nil_r. unfold carries in Hc.
  destruct (pid pes =? p)%Z; [|reflexivity].
  destruct (payload pes); [|reflexivity].
  cbn [andb] in Hc. now rewrite bool_decide_eq_true_2 in Hc.
Qed.

Lemma streams_after_spec (packets : list pes_packet) :
  List.NoDup (map fst (streams_after packets))
  /\ forall p,
       stream_of p (streams_after packets)
       = if existsb (carries p) packets then Some (payloads_of p packets)
         else None.
Proof.
  unfold streams_after.
  induction packets as [|pes packets [IHn IHs]] using rev_ind;
    [split; [constructor | reflexivity]|].
  rewrite fold_left_app. cbn [fold_left].
  assert (Hex : forall p, existsb (carries p) (packets ++ [pes])
                          = existsb (carries p) packets || carries p pes).
  { intros p. rewrite existsb_app. cbn [existsb]. now rewrite orb_false_r. }
  assert (Hpl : forall p, payloads_of p (packets ++ [pes])
                          = payloads_of p packets
                            ++ if (pid pes =? p)%Z then default [] (payload pes)
                               else []).
  { intros p. unfold payloads_of. rewrite flat_map_app. cbn [flat_map].
    now rewrite app_nil_r. }
  destruct (payload pes) as [data|] eqn:Ed.
  - split; [now apply extend_keys|].
    intros p. rewrite stream_of_extend, IHs, Hex, Hpl. unfold carries. rewrite Ed.
    destruct (pid pes =? p)%Z; cbn [andb default].
    + rewrite bool_decide_eq_true_2 by discriminate. rewrite orb_true_r.
      fold (carries p).
      destruct (existsb (carries p) packets) eqn:E; [reflexivity|].
      now rewrite (payloads_of_none _ _ E).
    + now rewrite orb_false_r, app_nil_r.
  - split; [assumption|].
    intros p. rewrite IHs, Hex, Hpl. unfold carries. rewrite Ed.
    rewrite bool_decide_eq_false_2 by (intros H; now apply H).
    rewrite andb_false_r, orb_false_r. cbn [default].
    destruct (pid pes =? p)%Z; now rewrite app_nil_r.
Qed.

(** X9: The dictionary that [channel_stream] builds from a segment has one
    entry for each PID that occurs on a packet with a payload, and none
    for the others; the entry holds the payloads of that PID's packets,
    joined in the order of the packets. *)
Theorem pes_streams_by_pid (ts_packet : bytes) :
  List.NoDup (map fst (pes_streams ts_packet))
  /\ forall p data,
       In (p, data) (pes_streams ts_packet)
       <-> (exists pes, In pes (parse_transport_stream ts_packet)
                        /\ pid pes = p /\ payload pes <> None)
           /\ data = payloads_of p (parse_transport_stream ts_packet).
Proof.
  fold (streams_after (parse_transport_stream ts_packet)).
  change (pes_streams ts_packet)
    with (streams_after (parse_transport_stream ts_packet)).
  destruct (streams_after_spec (parse_transport_stream ts_packet)) as [Hn Hs].
  split; [exact Hn|]. intros p data.
  rewrite (stream_of_In _ _ _ Hn), Hs.
  destruct (existsb (carries p) (parse_transport_stream ts_packet)) eqn:E.
  - apply existsb_exists in E as (pes & Hin & Hc). unfold carries in Hc.
    apply andb_prop in Hc as [Hp Hc]. apply Z.eqb_eq in Hp.
    apply bool_decide_eq_true in Hc. split.
    + intros H. injection H as <-. split; [eauto | reflexivity].
    + intros [_ ->]. reflexivity.
  - split; [discriminate|]. intros [(pes & Hin & Hp & Hc) _]. exfalso.
    assert (Ht : existsb (carries p) (parse_transport_stream ts_packet) = true).
    { apply existsb_exists. exists pes. split; [assumption|]. unfold carries.
      rewrite (proj2 (Z.eqb_eq _ _) Hp).
      now rewrite bool_decide_eq_true_2. }
    congruence.
Qed.

(** ** [channel_stream]: what goes out on the wire *)

Lemma written_app (a b : list event) : written (a ++ b) = written a ++ written b.
Proof.
  induction a as [|[t d|t d|t d] a IH]; cbn [app written];
    [reflexivity| | |assumption]; now rewrite IH.
Qed.

Lemma written_sleeps (l : list event) :
  (forall e, In e l -> exists t d, e = Slept t d) -> written l = [].
Proof.
  induction l as [|e l IH]; intros H; [reflexivity|].
  destruct (H e (or_introl eq_refl)) as (t & d & ->). cbn [written].
  apply IH. intros e' He'. apply H. now right.
Qed.

Lemma streamed_refl (st : stream) (w : world) : streamed st w [] st w.
Proof.
  exists [], []. rewrite !app_nil_r. repeat split. constructor.
Qed.

Lemma streamed_trans (st st1 st2 : stream) (w w1 w2 : world) (i1 i2 : bytes) :
  streamed st w i1 st1 w1 -> streamed st1 w1 i2 st2 w2 ->
  streamed st w (i1 ++ i2) st2 w2.
Proof.
  intros (n1 & f1 & Ht1 & Hw1 & Hf1 & Ha1) (n2 & f2 & Ht2 & Hw2 & Hf2 & Ha2).
  exists (n1 ++ n2), (f1 ++ f2). repeat split.
  - now rewrite Ht2, Ht1, app_assoc.
  - unfold framed in *. now rewrite written_app, flat_map_app, Hw1, Hw2.
  - apply Forall_app. now split.
  - rewrite map_app, concat_app, <- app_assoc, Ha2, !app_assoc. now rewrite Ha1.
Qed.

Lemma absorb_audio (p : Z) (data : bytes) (st : stream) :
  audio (absorb p data st)
  = audio st ++ if (p =? AUDIO_PID)%Z then data else [].
Proof.
  unfold absorb. destruct (p =? AUDIO_PID)%Z; [reflexivity|].
  rewrite app_nil_r. destruct (p =? METADATA_PID)%Z; [|reflexivity].
  destruct (parse_sxm_metadata data); [|reflexivity].
  now destruct (negb _).
Qed.

Lemma title_frame_icy (title : str) (m : bytes) :
  title_frame title = Ok m -> icy_block m.
Proof.
  intros H. apply title_frame_shape in H as (text & n & _ & -> & _ & Hlen).
  exists n, (text ++ repeat x00 (16 * N.to_nat (Byte.to_N n) - length text)).
  split; [reflexivity|]. cbn [length] in Hlen. lia.
Qed.

(** One turn of the loop body that goes on to the next. *)
Lemma es_step_streamed (p : Z) (data : bytes) (st st1 : stream) (w w1 : world) :
  es_step p data st w = (Ok (Next st1), w1) ->
  streamed st w (if (p =? AUDIO_PID)%Z then data else []) st1 w1.
Proof.
  intros H.
  destruct (Nat.leb_spec METAINT (length (audio (absorb p data st)))) as [Hle|Hlt].
  - destruct (es_step_emits _ _ _ _ _ _ Hle H)
      as (m & wa & wb & wc & Hm & Ha & Hb & Hc & -> & ->).
    apply wfile_write_inv in Ha as [Hta _]. apply wfile_write_inv in Hb as [Htb _].
    apply pace_trace in Hc as (sleeps & Htc & Hsl).
    exists (Wrote (now (tick w)) (take METAINT (audio (absorb p data st)))
              :: Wrote (now (tick wa)) m :: sleeps),
      [(take METAINT (audio (absorb p data st)), m)].
    repeat split.
    + rewrite tick_trace, Htc, Htb, Hta, <- !app_assoc. reflexivity.
    + cbn [written framed flat_map fst snd app]. now rewrite (written_sleeps _ Hsl).
    + constructor; [|constructor]. cbn [fst snd]. split.
      * rewrite length_take. lia.
      * destruct (new_meta (absorb p data st)).
        -- now apply title_frame_icy in Hm.
        -- injection Hm as <-. now exists x00, [].
    + cbn [map fst concat audio]. rewrite app_nil_r, take_drop. apply absorb_audio.
  - unfold es_step in H. cbv zeta in H.
    rewrite (proj2 (Nat.leb_gt _ _) Hlt) in H. apply ret_inv in H as [H ->].
    injection H as ->.
    exists [], []. rewrite app_nil_r. repeat split; [constructor|].
    cbn [map concat app]. apply absorb_audio.
Qed.

Lemma for_each_next {X A} (body : X -> A -> M (flow A)) (x : X) (l : list X)
    (a a' : A) (w w' : world) :
  for_each body (x :: l) a w = (Ok (Next a'), w') ->
  exists a1 w1,
    body x a w = (Ok (Next a1), w1) /\ for_each body l a1 w1 = (Ok (Next a'), w').
Proof.
  cbn [for_each]. intros H. apply bind_ok in H as ([a1|] & w1 & Hb & H).
  - now exists a1, w1.
  - apply ret_inv in H as [H _]. discriminate.
Qed.

Lemma es_packets_streamed (p : Z) (l : list (list byte)) (st st' : stream)
    (w w' : world) :
  for_each (es_step p) l st w = (Ok (Next st'), w') ->
  streamed st w (if (p =? AUDIO_PID)%Z then concat l else []) st' w'.
Proof.
  revert st w. induction l as [|data l IH]; intros st w H.
  - apply ret_inv in H as [H ->]. injection H as ->.
    destruct (p =? AUDIO_PID)%Z; apply streamed_refl.
  - apply for_each_next in H as (st1 & w1 & H1 & H).
    apply es_step_streamed in H1. apply IH in H.
    pose proof (streamed_trans _ _ _ _ _ _ _ _ H1 H) as Hs.
    destruct (p =? AUDIO_PID)%Z; [exact Hs | now rewrite app_nil_r in Hs].
Qed.

(** X10: When a segment has been worked through and the loop goes on, all
    that was written to the client is whole frames, in order: 32768 bytes
    of audio, then a metadata block whose first byte tells its length in
    units of 16 bytes.  The audio written, followed by what is left in
    the buffer, is the audio that was in the buffer followed by the audio
    of the segment: no byte is dropped, repeated or moved. *)
Theorem process_segment_frames (ts_packet : bytes) (st st' : stream)
    (w w' : world) :
  process_segment ts_packet st w = (Ok (Next st'), w') ->
  exists new frames,
    trace w' = trace w ++ new
    /\ written new = framed frames
    /\ Forall (fun f => length (fst f) = METAINT /\ icy_block (snd f)) frames
    /\ concat (map fst frames) ++ audio st'
       = audio st ++ concat (audio_payloads ts_packet).
Proof.
  unfold process_segment, audio_payloads.
  generalize (pes_streams ts_packet) as d. intros d. revert st w.
  induction d as [|[p pes_stream] d IH]; intros st w H.
  - apply ret_inv in H as [H ->]. injection H as ->. apply streamed_refl.
  - apply for_each_next in H as (st1 & w1 & H1 & H).
    apply es_packets_streamed in H1. apply IH in H.
    pose proof (streamed_trans _ _ _ _ _ _ _ _ H1 H) as Hs.
    cbn [flat_map]. rewrite concat_app.
    destruct (p =? AUDIO_PID)%Z; [exact Hs|].
    now rewrite app_nil_l in Hs.
Qed.

(** ** [channel_stream]: the ways a turn of the loop ends early *)

Lemma title_frame_limit (title : str) (text : bytes) :
  encode (stream_title title) = Ok text ->
  (4080 < length text)%nat ->
  title_frame title = Raise ValueError.
Proof.
  intros He Hlen. unfold title_frame. rewrite He. cbn [rbind]. unfold bytes_of_int.
  pose proof (ceil_div_spec (N.of_nat (length text))) as Hc.
  destruct (Byte.of_N _) as [b|] eqn:Eb; [|reflexivity].
  assert (Hn : Byte.of_N (ceil_div (N.of_nat (length text)) 16) <> None)
    by congruence.
  rewrite Byte.of_N_None_iff in Hn. lia.
Qed.

(** X11: The length byte of a metadata block holds at most 255: when the text
    [StreamTitle='...';] of a new title is longer than 4080 bytes, the turn
    that should send it raises [ValueError] before anything is written,
    and the [except] clause, which names the two connection errors only,
    lets it pass. *)
Theorem es_step_title_too_long (p : Z) (data : bytes) (st : stream)
    (text : bytes) (w : world) :
  (METAINT <= length (audio (absorb p data st)))%nat ->
  new_meta (absorb p data st) = true ->
  encode (stream_title (track_title (absorb p data st))) = Ok text ->
  (4080 < length text)%nat ->
  es_step p data st w = (Raise ValueError, w).
Proof.
  intros Hlen Hflag He Hlong. unfold es_step. cbv zeta.
  rewrite (proj2 (Nat.leb_le _ _) Hlen), Hflag.
  unfold bind, lift. now rewrite (title_frame_limit _ _ He Hlong).
Qed.

Lemma es_step_frame (p : Z) (data : bytes) (st : stream) (m : bytes) (w : world) :
  (METAINT <= length (audio (absorb p data st)))%nat ->
  (if new_meta (absorb p data st)
   then title_frame (track_title (absorb p data st)) else Ok [x00]) = Ok m ->
  es_step p data st w
  = except_connection_lost
      (let* _ := wfile_write (take METAINT (audio (absorb p data st))) in
       let* _ := wfile_write m in
       let* _ := pace (start_time st) in
       let* t := time_time in
       ret (Next {| audio := drop METAINT (audio (absorb p data st));
                    track_title := track_title (absorb p data st);
                    new_meta := false; start_time := Some t |}))
      (ret Return) w.
Proof.
  intros Hlen Hm. unfold es_step. cbv zeta.
  rewrite (proj2 (Nat.leb_le _ _) Hlen), absorb_start_time.
  unfold bind at 1. destruct (new_meta (absorb p data st)).
  - unfold lift. now rewrite Hm.
  - injection Hm as <-. reflexivity.
Qed.

(** X12: The test reads the clock once and the sleep reads it again.  When
    the first reading is inside the four seconds and the second one is
    past them, [time.sleep] is given a negative number: the turn raises
    [ValueError] after both writes, and the stream ends there. *)
Theorem es_step_clock_passes_mark (p : Z) (data : bytes) (st : stream)
    (m : bytes) (t0 : Z) (w wa wb : world) :
  (METAINT <= length (audio (absorb p data st)))%nat ->
  (if new_meta (absorb p data st)
   then title_frame (track_title (absorb p data st)) else Ok [x00]) = Ok m ->
  wfile_write (take METAINT (audio (absorb p data st))) w = (Ok tt, wa) ->
  wfile_write m wa = (Ok tt, wb) ->
  start_time st = Some t0 ->
  (now (tick wb) < t0 + FOUR_SECONDS < now (tick (tick wb)))%Z ->
  es_step p data st w = (Raise ValueError, tick (tick wb))
  /\ written (trace (tick (tick wb)))
     = written (trace w) ++ [take METAINT (audio (absorb p data st)); m].
Proof.
  intros Hlen Hm Ha Hb Hs [Hin Hout]. split.
  - rewrite (es_step_frame _ _ _ m _ Hlen Hm).
    unfold except_connection_lost, bind. rewrite Ha, Hb, Hs. cbn [pace].
    unfold bind, time_time, time_sleep.
    rewrite (proj2 (Z.ltb_lt _ _)) by lia.
    rewrite (proj2 (Z.ltb_lt _ _)) by lia. reflexivity.
  - apply wfile_write_inv in Ha as [Hta _]. apply wfile_write_inv in Hb as [Htb _].
    rewrite !tick_trace, Htb, Hta, !written_app. cbn [written].
    now rewrite <- app_assoc.
Qed.

(** X13: When a write fails with [ConnectionResetError] or
    [ConnectionAbortedError] the handler returns.  Of the frame at hand
    the listener then has a beginning at most: a part of the audio when
    it is the audio that could not be written, the audio and a part of
    the metadata block when it is that block.  Either way nothing more
    is written, the clock is not read and there is no sleep. *)
Theorem es_step_connection_lost (p : Z) (data : bytes) (st : stream)
    (m : bytes) (e : exn) (w : world) :
  (METAINT <= length (audio (absorb p data st)))%nat ->
  (if new_meta (absorb p data st)
   then title_frame (track_title (absorb p data st)) else Ok [x00]) = Ok m ->
  e = ConnectionResetError \/ e = ConnectionAbortedError ->
  (forall wa,
     wfile_write (take METAINT (audio (absorb p data st))) w = (Raise e, wa) ->
     es_step p data st w = (Ok Return, wa)
     /\ exists n,
          trace wa
          = trace w
            ++ [Failed (now (tick w))
                  (take n (take METAINT (audio (absorb p data st))))])
  /\ (forall wa wb,
        wfile_write (take METAINT (audio (absorb p data st))) w = (Ok tt, wa) ->
        wfile_write m wa = (Raise e, wb) ->
        es_step p data st w = (Ok Return, wb)
        /\ exists n,
             trace wb
             = trace w
               ++ [Wrote (now (tick w)) (take METAINT (audio (absorb p data st)));
                   Failed (now (tick wa)) (take n m)]).
Proof.
  intros Hlen Hm He. rewrite (es_step_frame _ _ _ m _ Hlen Hm). split.
  - intros wa Ha. split.
    + unfold except_connection_lost, bind. rewrite Ha.
      destruct He as [->| ->]; reflexivity.
    + apply wfile_write_cases in Ha as [[Hr _]|[_ Ht]]; [discriminate | exact Ht].
  - intros wa wb Ha Hb. split.
    + unfold except_connection_lost, bind. rewrite Ha, Hb.
      destruct He as [->| ->]; reflexivity.
    + apply wfile_write_inv in Ha as [Hta _].
      apply wfile_write_cases in Hb as [[Hr _]|[_ [n Ht]]]; [discriminate|].
      exists n. now rewrite Ht, Hta, <- app_assoc.
Qed.

Lemma encode_raises (s : str) (e : exn) : encode s = Raise e -> e = UnicodeError.
Proof.
  induction s as [|c s IH]; [discriminate|]. cbn [encode].
  destruct (utf8_char c) as [b|e'] eqn:Ec.
  - cbn [rbind]. destruct (encode s) as [r|e'']; [discriminate|].
    cbn [rbind]. intros H. injection H as <-. now apply IH.
  - cbn [rbind]. intros H. injection H as <-. unfold utf8_char in Ec.
    repeat match type of Ec with
           | (if ?b then _ else _) = _ => destruct b
           end; congruence.
Qed.

Lemma title_frame_raises (title : str) (e : exn) :
  title_frame title = Raise e -> e = UnicodeError \/ e = ValueError.
Proof.
  unfold title_frame. destruct (encode (stream_title title)) as [text|e'] eqn:Ee.
  - cbn [rbind]. unfold bytes_of_int. destruct (Byte.of_N _); [discriminate|].
    cbn [rbind]. intros H. injection H as <-. now right.
  - cbn [rbind]. intros H. injection H as <-. left. now apply encode_raises in Ee.
Qed.

(** X14: A turn of the loop never lets [ConnectionResetError] or
    [ConnectionAbortedError] out: whatever the writes fail with, these two
    end in a plain return, and building the metadata block can only raise
    [UnicodeError] or [ValueError]. *)
Theorem es_step_keeps_connection_errors (p : Z) (data : bytes) (st : stream)
    (e : exn) (w w' : world) :
  es_step p data st w = (Raise e, w') ->
  e <> ConnectionResetError /\ e <> ConnectionAbortedError.
Proof.
  intros H. unfold es_step in H. cbv zeta in H.
  destruct (METAINT <=? length (audio (absorb p data st)))%nat.
  2: { apply ret_inv in H as [H _]. discriminate. }
  apply bind_cases in H as [(m & w0 & Hm & H)|(e' & Hm & He)].
  - unfold except_connection_lost in H.
    match type of H with
    | match ?run with _ => _ end = _ => destruct run as [[x|e'] w1]
    end; [discriminate|].
    destruct e'; try (apply ret_inv in H as [H _]; discriminate);
      injection H as <- _; split; discriminate.
  - injection He as <-.
    destruct (new_meta (absorb p data st)).
    + apply lift_inv in Hm as [Hm _]. symmetry in Hm.
      apply title_frame_raises in Hm as [->| ->]; split; discriminate.
    + apply ret_inv in Hm as [Hm _]. discriminate.
Qed.

(** ** The client and the connection

    Nothing in sirius.py writes to the listener or sleeps, and the clock
    only moves forward while a request is under way. *)

Lemma calm_refl (w : world) : calm w w.
Proof. split; [reflexivity | lia]. Qed.

Lemma calm_trans (w1 w2 w3 : world) : calm w1 w2 -> calm w2 w3 -> calm w1 w3.
Proof. intros [E1 L1] [E2 L2]. split; [congruence | lia]. Qed.

Lemma Calm_bind {A B} (m : M A) (k : A -> M B) :
  Calm m -> (forall a, Calm (k a)) -> Calm (bind m k).
Proof.
  intros Hm Hk w r w' H.
  apply bind_cases in H as [(a & w1 & H1 & H2)|(e & H1 & _)].
  - exact (calm_trans _ _ _ (Hm _ _ _ H1) (Hk a _ _ _ H2)).
  - exact (Hm _ _ _ H1).
Qed.

Lemma Calm_ret {A} (a : A) : Calm (ret a).
Proof. intros w r w' H. apply ret_inv in H as [_ ->]. apply calm_refl. Qed.

Lemma Calm_raise {A} (e : exn) : Calm (@raise A e).
Proof. intros w r w' H. apply raise_inv in H as [_ ->]. apply calm_refl. Qed.

Lemma Calm_lift {A} (x : result A) : Calm (lift x).
Proof. intros w r w' H. apply lift_inv in H as [_ ->]. apply calm_refl. Qed.

Lemma Calm_attr {A} (a : option A) : Calm (attr a).
Proof. intros w r w' H. apply attr_inv in H as [-> _]. apply calm_refl. Qed.

Lemma Calm_get_sx : Calm get_sx.
Proof. intros w r w' H. apply get_sx_inv in H as [_ ->]. apply calm_refl. Qed.

Lemma Calm_put_sx (s : sirius) : Calm (put_sx s).
Proof.
  intros w r w' H. apply put_sx_inv in H as [_ ->]. split; [reflexivity|].
  cbn [with_sx now]. lia.
Qed.

Lemma Calm_update_sx (f : sirius -> sirius) : Calm (update_sx f).
Proof.
  intros w r w' H. apply update_sx_inv in H as [_ ->]. split; [reflexivity|].
  cbn [with_sx now]. lia.
Qed.

Lemma Calm_config_value (name : str) : Calm (config_value name).
Proof. intros w r w' H. apply config_value_inv in H as [_ ->]. apply calm_refl. Qed.

Lemma Calm_exchange {A} (serve : U -> request -> U * result A) (r : request) :
  Calm (exchange serve r).
Proof.
  intros w x w' H. apply exchange_inv in H as (u' & _ & ->).
  split; [reflexivity | apply tick_now].
Qed.

Lemma Calm__encrypt (plaintext : str) : Calm (_encrypt plaintext).
Proof. intros w r w' H. apply _encrypt_world in H as ->. apply calm_refl. Qed.

Lemma Calm__decrypt (ciphertext : json) : Calm (_decrypt ciphertext).
Proof. intros w r w' H. apply _decrypt_world in H as ->. apply calm_refl. Qed.

Lemma Calm__decrypt_packet (data : bytes) : Calm (_decrypt_packet data).
Proof.
  unfold _decrypt_packet.
  repeat (apply Calm_bind; [apply Calm_lift | intros ?]). apply Calm_lift.
Qed.

Create HintDb calm discriminated.
#[local] Hint Resolve Calm_ret Calm_raise Calm_lift Calm_attr Calm_get_sx Calm_put_sx
  Calm_update_sx Calm_config_value Calm_exchange Calm__encrypt Calm__decrypt
  Calm__decrypt_packet : calm.

Ltac calm_steps :=
  unfold requests_json, requests_get;
  repeat (cbv zeta; apply Calm_bind; [solve [auto with calm] | intros ?]);
  try solve [auto with calm].

Lemma Calm_login (name pass : str) : Calm (login name pass).
Proof.
  unfold login. apply Calm_bind; [|intros a].
  - unfold authenticate. calm_steps.
  - unfold complete. calm_steps.
    destruct (eq_int _ 0); calm_steps. destruct (eq_int _ 401); auto with calm.
Qed.

Lemma Calm__channel_token (depth : nat) (channel_key : str) (invalidate : bool) :
  Calm (_channel_token depth channel_key invalidate).
Proof.
  revert invalidate. induction depth as [|depth IH]; intros invalidate;
    cbn [_channel_token]; [auto with calm|].
  apply Calm_bind; [auto with calm | intros s].
  destruct (if invalidate then None else _); [auto with calm|].
  calm_steps.
  match goal with |- context [if ?usable then _ else _] => destruct usable end.
  - unfold read_token. calm_steps.
    destruct (search_token _); calm_steps.
  - calm_steps. apply Calm_bind; [apply Calm_login | intros _]. apply IH.
Qed.

Lemma Calm__get_token_resource (depth : nat) (channel_key file : str) :
  Calm (_get_token_resource depth channel_key file).
Proof.
  induction depth as [|depth IH]; cbn [_get_token_resource]; [auto with calm|].
  apply Calm_bind; [apply Calm__channel_token | intros [channel_url token]].
  calm_steps. destruct (status_code _ =? 200)%Z; [auto with calm|].
  destruct (status_code _ =? 404)%Z; [auto with calm|].
  apply Calm_bind; [apply Calm__channel_token | intros _]. apply IH.
Qed.

Lemma Calm_get_playlist (depth : nat) (channel_key : str) :
  Calm (get_playlist depth channel_key).
Proof.
  unfold get_playlist.
  apply Calm_bind; [apply Calm__get_token_resource | auto with calm].
Qed.

Lemma Calm_get_segment (depth : nat) (channel_key segment : str) :
  Calm (get_segment depth channel_key segment).
Proof.
  unfold get_segment.
  apply Calm_bind; [apply Calm__get_token_resource | auto with calm].
Qed.

(** ** [packet_generator] *)

Lemma filter_not_in_nil (l : list str) :
  List.filter (fun x => negb (py_in x [])) l = l.
Proof.
  induction l as [|x l IH]; [reflexivity|].
  cbn [List.filter]. now rewrite IH.
Qed.

(** X15: The first block of a new generator is the segment named by the first
    entry of the window, the last [10 + 3 * rewind] entries of the
    playlist: the stream starts that many segments back, and the rest of
    the window is what waits in the queue. *)
Theorem generator_first_block (rounds depth : nat) (channel_key : str)
    (rewind : Z) (P e : str) (rest : list str) (segment : bytes)
    (w w1 w2 : world) :
  (0 <= rewind)%Z ->
  get_playlist depth channel_key w = (Ok P, w1) ->
  ~ In [] (splitlines P) ->
  last_n (Z.to_nat (10 + 3 * rewind)) (spec_entries P) = e :: rest ->
  get_segment depth channel_key e w1 = (Ok segment, w2) ->
  packet_generator_next (S rounds) depth channel_key rewind new_generator w
  = (Ok (Some (segment, {| playlist := rest; entry := Some e |})), w2).
Proof.
  intros Hr Hp Hlines Hwin Hseg. cbn [packet_generator_next new_generator playlist entry].
  cbn [length Nat.ltb Nat.leb]. unfold bind at 1. unfold bind at 1. rewrite Hp.
  unfold bind at 1, lift.
  rewrite (filter_playlist_window P None rewind Hlines Hr) by discriminate.
  cbn [ret app]. rewrite filter_not_in_nil, Hwin.
  unfold bind. now rewrite Hseg.
Qed.

Lemma filter_not_in_queue (q fresh : list str) :
  List.NoDup (q ++ fresh) ->
  List.filter (fun x => negb (py_in x q)) (q ++ fresh) = fresh.
Proof.
  intros Hnd.
  assert (Hq : forall l, (forall x, In x l -> In x q) ->
                 List.filter (fun x => negb (py_in x q)) l = []).
  { induction l as [|x l IH]; intros Hl; [reflexivity|]. cbn [List.filter].
    rewrite (proj2 (py_in_In x q)) by (apply Hl; now left). cbn [negb].
    apply IH. intros y Hy. apply Hl. now right. }
  assert (Hf : forall l, (forall x, In x l -> ~ In x q) ->
                 List.filter (fun x => negb (py_in x q)) l = l).
  { induction l as [|x l IH]; intros Hl; [reflexivity|]. cbn [List.filter].
    destruct (py_in x q) eqn:E.
    - apply py_in_In in E. now destruct (Hl x (or_introl eq_refl)).
    - cbn [negb]. f_equal. apply IH. intros y Hy. apply Hl. now right. }
  rewrite List.filter_app, (Hq q) by auto. cbn [app]. apply Hf.
  intros x Hx Hxq. revert Hnd Hx Hxq. clear. revert fresh.
  induction q as [|y q IH]; intros fresh Hnd Hx Hxq; [destruct Hxq|].
  cbn [app] in Hnd. apply NoDup_cons_iff in Hnd as [Hy Hnd].
  destruct Hxq as [->|Hxq].
  - apply Hy. apply in_or_app. now right.
  - now apply (IH fresh).
Qed.

(** X16: A refill brings the queue in step with the playlist.  When the
    playlist has no empty line, the entry served last is not the empty
    string, and the playlist shows, after the first occurrence of that
    entry, the entries that wait and then new ones, with no entry twice,
    the queue becomes exactly the entries after the one served last:
    none is queued a second time and none is left out.  The next block
    is the first of them. *)
Theorem generator_resumes (rounds depth : nat) (channel_key : str)
    (rewind : Z) (P m e : str) (pre q fresh rest : list str)
    (segment : bytes) (w w1 w2 : world) :
  (length q < 3)%nat ->
  m <> [] ->
  get_playlist depth channel_key w = (Ok P, w1) ->
  ~ In [] (splitlines P) ->
  spec_entries P = pre ++ m :: q ++ fresh ->
  ~ In m pre ->
  List.NoDup (q ++ fresh) ->
  q ++ fresh = e :: rest ->
  get_segment depth channel_key e w1 = (Ok segment, w2) ->
  packet_generator_next (S rounds) depth channel_key rewind
    {| playlist := q; entry := Some m |} w
  = (Ok (Some (segment, {| playlist := rest; entry := Some e |})), w2).
Proof.
  intros Hq Hm Hp Hlines Hent Hpre Hnd Hqueue Hseg.
  cbn [packet_generator_next playlist entry].
  rewrite (proj2 (Nat.ltb_lt _ _) Hq). unfold bind at 1. unfold bind at 1.
  rewrite Hp. unfold bind at 1, lift.
  assert (Hfilter : _filter_playlist P (Some m) rewind = Ok (q ++ fresh)).
  { unfold _filter_playlist.
    rewrite (filter_playlist_entries P (Some m) rewind Hlines). cbn [rbind].
    assert (Hin : In m (spec_entries P))
      by (rewrite Hent; apply in_or_app; right; now left).
    rewrite (proj2 (py_in_In m (spec_entries P)) Hin).
    destruct m as [|c m]; [congruence|]. cbn [truthy andb].
    destruct (py_index_first _ _ Hin) as (pre' & post' & E & Hpre' & Hidx).
    rewrite Hidx. cbn [rbind]. rewrite E at 1. rewrite slice_from_after.
    rewrite Hent in E.
    assert (Hsame : pre = pre' /\ q ++ fresh = post').
    { clear - E Hpre Hpre'. revert pre' E Hpre'.
      induction pre as [|x pre IH]; intros pre' E Hpre'.
      - destruct pre' as [|y pre']; [now injection E as <-|].
        injection E as <- _. exfalso. apply Hpre'. now left.
      - destruct pre' as [|y pre'].
        + injection E as -> _. exfalso. apply Hpre. now left.
        + injection E as <- E.
          destruct (IH (fun H => Hpre (or_intror H)) pre' E
                      (fun H => Hpre' (or_intror H))) as [-> ->].
          now split. }
    now destruct Hsame as [_ <-]. }
  rewrite Hfilter. cbn [ret]. rewrite (filter_not_in_queue _ _ Hnd), Hqueue.
  unfold bind. now rewrite Hseg.
Qed.

(** X17: As long as the playlist holds nothing to queue, the generator yields
    nothing: every turn fetches the playlist once and sleeps ten seconds.
    Whatever number of turns is allowed, it is used up without a block,
    and that many sleeps, and nothing else, have been added to the
    trace. *)
Theorem generator_keeps_polling (n depth : nat) (channel_key : str)
    (rewind : Z) (last : option str) (w w' : world) :
  polls depth channel_key rewind last n w w' ->
  packet_generator_next n depth channel_key rewind
    {| playlist := []; entry := last |} w
  = (Ok None, w')
  /\ exists sleeps,
       trace w' = trace w ++ sleeps
       /\ length sleeps = n
       /\ forall e, In e sleeps -> exists t, e = Slept t 10000.
Proof.
  induction 1 as [w|n P w w1 w' Hp Hf Hn [IH (sleeps & Ht & Hl & Hs)]].
  - split; [reflexivity|]. exists []. rewrite app_nil_r.
    repeat split. intros e [].
  - split.
    + cbn [packet_generator_next playlist entry length Nat.ltb Nat.leb].
      unfold bind at 1. unfold bind at 1. rewrite Hp.
      unfold bind at 1, lift. rewrite Hf. cbn [ret app List.filter].
      unfold bind, time_sleep. cbn [Z.ltb Z.compare]. exact IH.
    + destruct (Calm_get_playlist _ _ _ _ _ Hp) as [Hw1 _].
      exists (Slept (now w1) 10000 :: sleeps). rewrite Ht. cbn [slept trace].
      rewrite <- app_assoc, Hw1. cbn [app length]. repeat split; [lia|].
      intros e [<-|He]; eauto.
Qed.

(** ** [channel_stream]: the whole loop *)

Lemma wrote_refl (w : world) : wrote w w [].
Proof. exists []. now rewrite app_nil_r. Qed.

Lemma wrote_trans (w1 w2 w3 : world) (b1 b2 : list (list byte)) :
  wrote w1 w2 b1 -> wrote w2 w3 b2 -> wrote w1 w3 (b1 ++ b2).
Proof.
  intros (n1 & E1 & H1) (n2 & E2 & H2). exists (n1 ++ n2).
  now rewrite E2, E1, app_assoc, written_app, H1, H2.
Qed.

Lemma calm_wrote (w w' : world) : calm w w' -> wrote w w' [].
Proof. intros [E _]. exists []. now rewrite app_nil_r. Qed.

(** The generator writes nothing: it only sleeps. *)
Lemma generator_writes_nothing (rounds depth : nat) (channel_key : str)
    (rewind : Z) (g : generator) (r : result (option (bytes * generator)))
    (w w' : world) :
  packet_generator_next rounds depth channel_key rewind g w = (r, w') ->
  wrote w w' [].
Proof.
  revert g w. induction rounds as [|rounds IH]; intros g w H;
    cbn [packet_generator_next] in H.
  { apply ret_inv in H as [_ ->]. apply wrote_refl. }
  apply bind_cases in H as [(queue & w1 & Hq & H)|(e & Hq & _)].
  - assert (Hw1 : wrote w w1 []).
    { apply calm_wrote. revert Hq.
      assert (HC : Calm
                (if (length (playlist g) <? 3)%nat
                 then
                   let* resp := get_playlist depth channel_key in
                   let* new_entries := lift (_filter_playlist resp (entry g) rewind) in
                   ret (playlist g
                        ++ List.filter (fun x => negb (py_in x (playlist g)))
                             new_entries)
                 else ret (playlist g))).
      { destruct (length (playlist g) <? 3)%nat; [|apply Calm_ret].
        apply Calm_bind; [apply Calm_get_playlist | intros resp].
        apply Calm_bind; [apply Calm_lift | intros x; apply Calm_ret]. }
      apply HC. }
    destruct queue as [|e queue].
    + apply bind_cases in H as [([] & w2 & Hs & H)|(e & Hs & _)].
      * apply IH in H. apply time_sleep_inv in Hs as (_ & Ht & _).
        assert (Hw2 : wrote w1 w2 []) by (eexists; split; [exact Ht | reflexivity]).
        exact (wrote_trans _ _ _ _ _ Hw1 (wrote_trans _ _ _ _ _ Hw2 H)).
      * unfold time_sleep in Hs. destruct (10000 <? 0)%Z; [|discriminate].
        now injection Hs as _ <-.
    + apply bind_cases in H as [(seg & w2 & Hs & H)|(e' & Hs & _)].
      * apply ret_inv in H as [_ ->].
        apply Calm_get_segment, calm_wrote in Hs.
        exact (wrote_trans _ _ _ _ _ Hw1 Hs).
      * apply Calm_get_segment, calm_wrote in Hs.
        exact (wrote_trans _ _ _ _ _ Hw1 Hs).
  - apply calm_wrote. revert Hq.
    destruct (length (playlist g) <? 3)%nat.
    + apply Calm_bind; [apply Calm_get_playlist | intros resp].
      apply Calm_bind; [apply Calm_lift | intros x; apply Calm_ret].
    + apply Calm_ret.
Qed.

(** What a turn of the loop body leaves on the wire when it raises
    nothing. *)
Lemma es_step_wire (p : Z) (data : bytes) (st : stream) (f : flow stream)
    (w w1 : world) :
  es_step p data st w = (Ok f, w1) ->
  exists frames tail,
    wrote w w1 (framed frames ++ tail) /\ whole frames
    /\ match f with Next _ => tail = [] | Return => cut_short tail end.
Proof.
  intros H. destruct f as [st1|].
  - apply es_step_streamed in H as (new & frames & Ht & Hw & Hf & _).
    exists frames, []. rewrite app_nil_r. repeat split; [|assumption].
    now exists new.
  - assert (Hlen : (METAINT <= length (audio (absorb p data st)))%nat).
    { destruct (Nat.leb_spec METAINT (length (audio (absorb p data st))))
        as [Hle|Hlt]; [assumption|].
      unfold es_step in H. cbv zeta in H.
      rewrite (proj2 (Nat.leb_gt _ _) Hlt) in H. apply ret_inv in H as [H _].
      discriminate. }
    assert (Ha : length (take METAINT (audio (absorb p data st))) = METAINT)
      by (rewrite length_take; lia).
    assert (Hicy : forall m,
               (if new_meta (absorb p data st)
                then title_frame (track_title (absorb p data st))
                else Ok [x00]) = Ok m -> icy_block m).
    { intros m Hm. destruct (new_meta (absorb p data st)).
      - now apply title_frame_icy in Hm.
      - injection Hm as <-. now exists x00, []. }
    apply es_step_trace in H. cbv zeta in H.
    destruct H as [H|[(t & n & H)|[(t & t' & m & n & H & Hm)
                                  |(t & t' & m & sleeps & H & Hm & Hsl)]]].
    + exists [], []. split; [|split; [constructor | now left]].
      exists []. now rewrite app_nil_r.
    + exists [], [take n (take METAINT (audio (absorb p data st)))].
      split; [|split; [constructor|]].
      * eexists. split; [exact H | reflexivity].
      * right. left. exists (take METAINT (audio (absorb p data st))), n.
        now split.
    + exists [], [take METAINT (audio (absorb p data st)); take n m].
      split; [|split; [constructor|]].
      * eexists. split; [exact H | reflexivity].
      * right. right. exists (take METAINT (audio (absorb p data st))), m, n.
        split; [exact Ha|]. split; [now apply Hicy | reflexivity].
    + exists [(take METAINT (audio (absorb p data st)), m)], [].
      split; [|split; [|now left]].
      * eexists. split; [exact H|]. cbn [written framed flat_map fst snd app].
        now rewrite (written_sleeps _ Hsl).
      * constructor; [|constructor]. cbn [fst snd]. split; [exact Ha|].
        now apply Hicy.
Qed.

(** The same for a loop whose every turn is so. *)
Lemma for_each_wire {X} (body : X -> stream -> M (flow stream)) (l : list X)
    (st : stream) (f : flow stream) (w w' : world) :
  (forall x st f w w',
      body x st w = (Ok f, w') ->
      exists frames tail,
        wrote w w' (framed frames ++ tail) /\ whole frames
        /\ match f with Next _ => tail = [] | Return => cut_short tail end) ->
  for_each body l st w = (Ok f, w') ->
  exists frames tail,
    wrote w w' (framed frames ++ tail) /\ whole frames
    /\ match f with Next _ => tail = [] | Return => cut_short tail end.
Proof.
  intros Hbody. revert st w. induction l as [|x l IH]; intros st w H.
  - apply ret_inv in H as [H ->]. injection H as ->.
    exists [], []. split; [apply wrote_refl | split; [constructor | reflexivity]].
  - cbn [for_each] in H. apply bind_ok in H as (r & w1 & Hx & H).
    apply Hbody in Hx as (f1 & t1 & Hw1 & Hf1 & Ht1).
    destruct r as [st1|].
    + subst t1. rewrite app_nil_r in Hw1.
      apply IH in H as (f2 & t2 & Hw2 & Hf2 & Ht2).
      exists (f1 ++ f2), t2. split; [|split; [|assumption]].
      * unfold framed in *. rewrite flat_map_app, <- app_assoc.
        exact (wrote_trans _ _ _ _ _ Hw1 Hw2).
      * apply Forall_app. now split.
    + apply ret_inv in H as [H ->]. injection H as ->.
      exists f1, t1. auto.
Qed.

Lemma process_segment_wire (ts_packet : bytes) (st : stream) (f : flow stream)
    (w w' : world) :
  process_segment ts_packet st w = (Ok f, w') ->
  exists frames tail,
    wrote w w' (framed frames ++ tail) /\ whole frames
    /\ match f with Next _ => tail = [] | Return => cut_short tail end.
Proof.
  unfold process_segment. apply for_each_wire.
  intros [p pes_stream] st0 f0 w0 w0'. apply for_each_wire.
  intros data. apply es_step_wire.
Qed.

(** X23: When the streaming loop ends without an exception (the listener
    has gone away, or the blocks allowed for have been used up), what has
    gone out to the listener is whole frames, 32768 bytes of audio and a
    metadata block of 1 + 16 n bytes with n as first byte, one after the
    other, and after them at most the beginning of one more frame, cut
    where a write raised: a part of its audio, or its audio and a part
    of its metadata block.  Fetching playlists and segments sends the
    listener nothing. *)
Theorem stream_loop_wire (segments rounds depth : nat) (channel_id : str)
    (rewind : Z) (g : generator) (st : stream) (w w' : world) :
  stream_loop segments rounds depth channel_id rewind g st w = (Ok tt, w') ->
  exists frames tail,
    wrote w w' (framed frames ++ tail) /\ whole frames /\ cut_short tail.
Proof.
  revert g st w. induction segments as [|segments IH]; intros g st w H;
    cbn [stream_loop] in H.
  { apply ret_inv in H as [_ ->]. exists [], [].
    split; [apply wrote_refl | split; [constructor | now left]]. }
  apply bind_ok in H as (r & w1 & Hg & H).
  apply generator_writes_nothing in Hg.
  destruct r as [[ts_packet g']|].
  2: { apply ret_inv in H as [_ ->]. exists [], [].
       split; [exact Hg | split; [constructor | now left]]. }
  apply bind_ok in H as (f & w2 & Hp & H).
  apply process_segment_wire in Hp as (f1 & t1 & Hw1 & Hf1 & Ht1).
  pose proof (wrote_trans _ _ _ _ _ Hg Hw1) as Hw. cbn [app] in Hw.
  destruct f as [st1|].
  - subst t1. rewrite app_nil_r in Hw.
    apply IH in H as (f2 & t2 & Hw2 & Hf2 & Ht2).
    exists (f1 ++ f2), t2. split; [|split; [|assumption]].
    + unfold framed in *. rewrite flat_map_app, <- app_assoc.
      exact (wrote_trans _ _ _ _ _ Hw Hw2).
    + apply Forall_app. now split.
  - apply ret_inv in H as [_ ->]. exists f1, t1. auto.
Qed.

(** ** [do_GET]: the route table *)

Lemma match_here_lits (l p : list item) (cs : str) (bos : bool) (s : str) :
  l = map Lit cs -> cs <> [] ->
  match_here (l ++ p) bos s
  = if is_prefix cs s then match_here p false (drop (length cs) s) else None.
Proof.
  intros -> Hne. revert bos s. induction cs as [|c cs IH]; intros bos s; [congruence|].
  cbn [map app match_here is_prefix]. destruct s as [|d s]; [reflexivity|].
  rewrite (N.eqb_sym c d). destruct (d =? c); [|reflexivity]. cbn [andb length drop].
  destruct cs as [|c' cs]; [reflexivity|]. apply IH. discriminate.
Qed.

Lemma search_from_caret (p : list item) (s : str) :
  search_from (Caret :: p) false s = None.
Proof. induction s as [|c s IH]; [reflexivity | exact IH]. Qed.

Lemma re_search_caret (p : list item) (s : str) :
  re_search (Caret :: p) s = match_here p true s.
Proof.
  unfold re_search. destruct s as [|c s]; cbn [search_from match_here].
  - now destruct (match_here p true []).
  - destruct (match_here p true (c :: s)); [reflexivity|].
    apply search_from_caret.
Qed.

Lemma stops_dollar (a : atom) (p : list item) : stops a (Dollar :: p).
Proof.
  intros c rest Hc. cbn [match_here at_end].
  destruct rest; [|reflexivity].
  destruct (N.eqb_spec c 10) as [->|_]; [now destruct a | reflexivity].
Qed.

Lemma stops_slash (p : list item) : stops Digit (Lit 47 :: p).
Proof.
  intros c rest Hc. cbn [match_here].
  destruct (N.eqb_spec c 47) as [->|_]; [discriminate | reflexivity].
Qed.

Lemma take_while_prefix (f : N -> bool) (s : str) :
  take (length (take_while f s)) s = take_while f s.
Proof.
  induction s as [|c s IH]; [reflexivity|]. cbn [take_while].
  destruct (f c); [|reflexivity]. cbn [length take]. now rewrite IH.
Qed.

Lemma drop_in_run (f : N -> bool) (s : str) (k : nat) :
  (k < length (take_while f s))%nat ->
  exists c rest, drop k s = c :: rest /\ f c = true.
Proof.
  revert k. induction s as [|c s IH]; intros k Hk; [cbn in Hk; lia|].
  cbn [take_while] in Hk. destruct (f c) eqn:E; [|cbn in Hk; lia].
  destruct k as [|k]; [now exists c, s|].
  cbn [length] in Hk. cbn [drop]. apply IH. lia.
Qed.

(** A greedy group before a pattern that stops it takes the longest run
    there is and never has to give anything back. *)
Lemma match_here_named (name : string) (a : atom) (p : list item) (bos : bool)
    (s : str) :
  stops a p ->
  match_here (Named name a :: p) bos s
  = match take_while (accepts a) s with
    | [] => None
    | run =>
        match match_here p false (drop (length run) s) with
        | Some g => Some ((name, run) :: g)
        | None => None
        end
    end.
Proof.
  intros Hstop. cbn [match_here].
  set (give_back := fix give_back (k : nat) : option groupdict :=
         match k with
         | O => None
         | S k' =>
             match match_here p false (drop k s) with
             | Some g => Some ((name, take k s) :: g)
             | None => give_back k'
             end
         end).
  assert (Hless : forall k, (k < length (take_while (accepts a) s))%nat ->
                            give_back k = None).
  { induction k as [|k IH]; intros Hk; [reflexivity|]. cbn [give_back].
    destruct (drop_in_run _ _ _ Hk) as (c & rest & -> & Hc).
    rewrite (Hstop c rest Hc). apply IH. lia. }
  pose proof (take_while_prefix (accepts a) s) as Htake.
  destruct (take_while (accepts a) s) as [|c run] eqn:E; [reflexivity|].
  cbn [length] in *. cbn [give_back]. rewrite Htake.
  destruct (match_here p false (drop (S (length run)) s)); [reflexivity|].
  apply Hless. lia.
Qed.

Lemma at_end_is_line (t post : str) : at_end post = true -> is_line (t ++ post) t.
Proof.
  destruct post as [|c [|d post]]; cbn [at_end]; intros H; try discriminate.
  - left. apply app_nil_r.
  - apply N.eqb_eq in H. subst c. now right.
Qed.

Lemma take_while_run (a : atom) (x post : str) :
  forallb (accepts a) x = true -> at_end post = true ->
  take_while (accepts a) (x ++ post) = x.
Proof.
  intros Hx Hpost. induction x as [|c x IH].
  - destruct post as [|c [|d post]]; try discriminate; [reflexivity|].
    cbn [at_end] in Hpost. apply N.eqb_eq in Hpost. subst c. now destruct a.
  - cbn [forallb] in Hx. apply andb_prop in Hx as [Hc Hx].
    cbn [app take_while]. rewrite Hc. f_equal. now apply IH.
Qed.

Lemma is_line_end (s t : str) :
  is_line s t -> exists post, s = t ++ post /\ at_end post = true.
Proof.
  intros [->| ->]; [exists [] | exists [10]]; split; try reflexivity.
  now rewrite app_nil_r.
Qed.

(** The three shapes of the table: a literal text, a literal text and a
    group, a literal text and two groups of digits with a slash between
    them. *)
Lemma route_text (cs : str) (s : str) (g : groupdict) :
  cs <> [] ->
  re_search (Caret :: map Lit cs ++ [Dollar]) s = Some g
  <-> g = [] /\ is_line s cs.
Proof.
  intros Hne. rewrite re_search_caret, (match_here_lits _ _ cs) by auto.
  destruct (is_prefix cs s) eqn:Ep.
  - apply is_prefix_app in Ep. cbn [match_here].
    destruct (at_end (drop (length cs) s)) eqn:Ee.
    + split; [|now intros [-> _]]. intros H. injection H as <-. split; [reflexivity|].
      rewrite Ep at 1. now apply at_end_is_line.
    + split; [discriminate|]. intros [_ Hl].
      apply is_line_end in Hl as (post & -> & Hpost).
      rewrite drop_app_length in Ee. congruence.
  - split; [discriminate|]. intros [_ Hl].
    apply is_line_end in Hl as (post & -> & _).
    now rewrite is_prefix_of_app in Ep.
Qed.

Lemma group_end (name : string) (a : atom) (bos : bool) (s : str) (g : groupdict) :
  match_here [Named name a; Dollar] bos s = Some g
  <-> exists x, g = [(name, x)] /\ x <> [] /\ forallb (accepts a) x = true
                /\ is_line s x.
Proof.
  rewrite match_here_named by apply stops_dollar.
  destruct (take_while_spec (accepts a) s) as (post & Hs & Hall & Hpost).
  destruct (take_while (accepts a) s) as [|c run] eqn:Et.
  - split; [discriminate|]. intros (x & _ & Hx & Hax & Hl).
    apply is_line_end in Hl as (post' & -> & Hpost').
    rewrite take_while_run in Et by assumption. congruence.
  - assert (Hd : drop (length (c :: run)) s = post)
      by (rewrite Hs; apply drop_app_length).
    cbn [match_here]. rewrite Hd.
    destruct (at_end post) eqn:Ee.
    + split.
      * intros H. injection H as <-. exists (c :: run).
        repeat split; try assumption; [discriminate|].
        rewrite Hs at 1. now apply at_end_is_line.
      * intros (x & -> & Hx & Hax & Hl).
        apply is_line_end in Hl as (post' & E & Hpost').
        rewrite E, take_while_run in Et by assumption. now subst x.
    + split; [discriminate|]. intros (x & _ & Hx & Hax & Hl).
      apply is_line_end in Hl as (post' & E & Hpost').
      rewrite E in Hs, Et. rewrite take_while_run in Et by assumption. subst x.
      apply app_inv_head in Hs. congruence.
Qed.

Lemma route_group (cs : str) (name : string) (a : atom) (s : str) (g : groupdict) :
  cs <> [] ->
  re_search (Caret :: map Lit cs ++ [Named name a; Dollar]) s = Some g
  <-> exists x, g = [(name, x)] /\ x <> [] /\ forallb (accepts a) x = true
                /\ is_line s (cs ++ x).
Proof.
  intros Hne. rewrite re_search_caret, (match_here_lits _ _ cs) by auto.
  destruct (is_prefix cs s) eqn:Ep.
  - apply is_prefix_app in Ep. rewrite group_end.
    split; intros (x & Hg & Hx & Hax & Hl); exists x; repeat split; try assumption.
    + rewrite Ep. destruct Hl as [->| ->]; [now left | right].
      now rewrite app_assoc.
    + rewrite Ep in Hl. destruct Hl as [Hl|Hl]; [left | right].
      * now apply app_inv_head in Hl.
      * rewrite <- app_assoc in Hl. now apply app_inv_head in Hl.
  - split; [discriminate|]. intros (x & _ & _ & _ & Hl).
    apply is_line_end in Hl as (post & -> & _).
    now rewrite <- app_assoc, is_prefix_of_app in Ep.
Qed.

Lemma take_while_stop (f : N -> bool) (x p : str) :
  forallb f x = true ->
  match p with c :: _ => f c = false | [] => True end ->
  take_while f (x ++ p) = x.
Proof.
  intros Hx Hp. induction x as [|c x IH].
  - destruct p as [|c p]; [reflexivity|]. cbn [app take_while]. now rewrite Hp.
  - cbn [forallb] in Hx. apply andb_prop in Hx as [Hc Hx].
    cbn [app take_while]. rewrite Hc. f_equal. now apply IH.
Qed.

Lemma two_groups_cut (cs x y s : str) :
  is_line s (cs ++ x ++ [47] ++ y) ->
  exists post, at_end post = true /\ drop (length cs) s = x ++ 47 :: y ++ post.
Proof.
  intros Hl. apply is_line_end in Hl as (post & -> & Hpost). exists post.
  split; [assumption|]. now rewrite <- !app_assoc, drop_app_length.
Qed.

Lemma match_here_lit (c d : N) (p : list item) (bos : bool) (s : str) :
  match_here (Lit c :: p) bos (d :: s)
  = if d =? c then match_here p false s else None.
Proof. reflexivity. Qed.

Lemma route_two_groups (cs : str) (n1 n2 : string) (s : str) (g : groupdict) :
  cs <> [] ->
  re_search (Caret :: map Lit cs ++ [Named n1 Digit] ++ map Lit [47]
               ++ [Named n2 Digit; Dollar]) s = Some g
  <-> exists x y, g = [(n1, x); (n2, y)] /\ digits x /\ digits y
                  /\ is_line s (cs ++ x ++ [47] ++ y).
Proof.
  intros Hne. rewrite re_search_caret, (match_here_lits _ _ cs) by auto.
  destruct (is_prefix cs s) eqn:Ep.
  2: { split; [discriminate|]. intros (x & y & _ & _ & _ & Hl).
       apply is_line_end in Hl as (post & -> & _).
       now rewrite <- app_assoc, is_prefix_of_app in Ep. }
  apply is_prefix_app in Ep. cbn [app map].
  rewrite match_here_named by apply stops_slash.
  destruct (take_while_spec (accepts Digit) (drop (length cs) s))
    as (post & Hs & Hall & Hpost).
  (* what a match says about the text behind the literal part *)
  assert (Hcut : forall x y,
             digits x -> digits y -> is_line s (cs ++ x ++ [47] ++ y) ->
             take_while (accepts Digit) (drop (length cs) s) = x
             /\ exists post', at_end post' = true /\ post = 47 :: y ++ post').
  { intros x y [Hx Hax] [Hy Hay] Hl.
    apply two_groups_cut in Hl as (post' & Hpost' & E).
    assert (Ex : take_while (accepts Digit) (drop (length cs) s) = x)
      by (rewrite E; now apply take_while_stop).
    split; [exact Ex|]. exists post'. split; [assumption|].
    rewrite Ex, E in Hs. now apply app_inv_head in Hs. }
  destruct (take_while (accepts Digit) (drop (length cs) s)) as [|c run] eqn:Et.
  { split; [discriminate|]. intros (x & y & _ & Hx & Hy & Hl).
    destruct (Hcut x y Hx Hy Hl) as [<- _]. now destruct Hx. }
  assert (Hd : drop (length (c :: run)) (drop (length cs) s) = post)
    by (rewrite Hs; apply drop_app_length).
  cbv zeta. rewrite Hd. clear Hd.
  destruct post as [|d post].
  { split; [discriminate|]. intros (x & y & _ & Hx & Hy & Hl).
    destruct (Hcut x y Hx Hy Hl) as (_ & post' & _ & E). discriminate. }
  rewrite match_here_lit.
  destruct (N.eqb_spec d 47) as [->|Hd].
  2: { split; [discriminate|]. intros (x & y & _ & Hx & Hy & Hl).
       destruct (Hcut x y Hx Hy Hl) as (_ & post' & _ & E). congruence. }
  destruct (match_here [Named n2 Digit; Dollar] false post) as [g2|] eqn:E2;
    cbv beta iota.
  - apply group_end in E2 as (y & -> & Hy & Hay & Hl). split.
    + intros H. injection H as <-. exists (c :: run), y.
      split; [reflexivity|]. split; [split; [discriminate | assumption]|].
      split; [now split|].
      rewrite Ep, Hs.
      destruct Hl as [->| ->]; [left | right]; now rewrite <- ?app_assoc.
    + intros (x & y' & -> & Hx & Hy' & Hl').
      destruct (Hcut x y' Hx Hy' Hl') as (<- & post' & Hpost' & E).
      injection E as ->.
      assert (Hy2 : take_while (accepts Digit) (y' ++ post') = y').
      { destruct Hy' as [_ Hay']. now apply take_while_run. }
      assert (Hy3 : take_while (accepts Digit) (y' ++ post') = y).
      { destruct Hl as [->| ->]; [rewrite <- (app_nil_r y) at 1|];
          now apply take_while_run. }
      now rewrite <- Hy3, Hy2.
  - split; [discriminate|]. intros (x & y & _ & Hx & Hy & Hl).
    destruct (Hcut x y Hx Hy Hl) as (_ & post' & Hpost' & E).
    injection E as ->.
    assert (Hsome : match_here [Named n2 Digit; Dollar] false (y ++ post')
                    = Some [(n2, y)]).
    { apply group_end. exists y. destruct Hy as [Hy Hay].
      repeat split; try assumption. now apply at_end_is_line. }
    rewrite Hsome in E2. discriminate.
Qed.

(** The six patterns, one by one. *)
Lemma route_0 (path : str) (g : groupdict) :
  re_search (route 0) path = Some g <-> g = [] /\ is_line path (u "/").
Proof. apply (route_text (u "/")). discriminate. Qed.

Lemma route_1 (path : str) (g : groupdict) :
  re_search (route 1) path = Some g
  <-> exists x, g = [("path"%string, x)] /\ x <> []
                /\ forallb (accepts Dot) x = true
                /\ is_line path (u "/static/" ++ x).
Proof. apply (route_group (u "/static/") "path" Dot). discriminate. Qed.

Lemma route_2 (path : str) (g : groupdict) :
  re_search (route 2) path = Some g
  <-> exists x, g = [("channel_number"%string, x)] /\ x <> []
                /\ forallb (accepts Digit) x = true
                /\ is_line path (u "/channel/" ++ x).
Proof. apply (route_group (u "/channel/") "channel_number" Digit). discriminate. Qed.

Lemma route_3 (path : str) (g : groupdict) :
  re_search (route 3) path = Some g
  <-> exists x y, g = [("channel_number"%string, x); ("rewind"%string, y)]
                  /\ digits x /\ digits y
                  /\ is_line path (u "/channel/" ++ x ++ [47] ++ y).
Proof.
  apply (route_two_groups (u "/channel/") "channel_number" "rewind"). discriminate.
Qed.

Lemma route_4 (path : str) (g : groupdict) :
  re_search (route 4) path = Some g
  <-> exists x, g = [("channel_number"%string, x)] /\ x <> []
                /\ forallb (accepts Digit) x = true
                /\ is_line path (u "/metadata/" ++ x).
Proof. apply (route_group (u "/metadata/") "channel_number" Digit). discriminate. Qed.

Lemma route_5 (path : str) (g : groupdict) :
  re_search (route 5) path = Some g
  <-> exists x y, g = [("channel_number"%string, x); ("rewind"%string, y)]
                  /\ digits x /\ digits y
                  /\ is_line path (u "/metadata/" ++ x ++ [47] ++ y).
Proof.
  apply (route_two_groups (u "/metadata/") "channel_number" "rewind"). discriminate.
Qed.

Lemma no_slash_in_digits (x : str) : forallb (accepts Digit) x = true -> ~ In 47 x.
Proof.
  intros Hx Hin. rewrite forallb_forall in Hx. specialize (Hx 47 Hin). discriminate.
Qed.

Lemma no_line_feed_in_digits (x : str) :
  forallb (accepts Digit) x = true -> ~ In 10 x.
Proof.
  intros Hx Hin. rewrite forallb_forall in Hx. specialize (Hx 10 Hin). discriminate.
Qed.

(** A text cannot be read both as one number and as two numbers with a
    slash between them. *)
Lemma one_or_two_numbers (path cs x n r : str) :
  forallb (accepts Digit) x = true ->
  is_line path (cs ++ x) -> is_line path (cs ++ n ++ [47] ++ r) -> False.
Proof.
  intros Hx H1 H2.
  assert (Hin : In 47 x \/ 47 = 10).
  { assert (E : exists a b, (a = [] \/ a = [10]) /\ (b = [] \/ b = [10])
                            /\ x ++ a = n ++ [47] ++ r ++ b).
    { destruct H1 as [->| ->], H2 as [H2|H2]; rewrite <- ?app_assoc in H2;
        apply app_inv_head in H2;
        [exists [], [] | exists [], [10] | exists [10], [] | exists [10], [10]];
        rewrite ?app_nil_r; auto. }
    destruct E as (a & b & Ha & Hb & E).
    assert (H47 : In 47 (x ++ a))
      by (rewrite E; apply in_or_app; right; now left).
    apply in_app_or in H47 as [H|H]; [now left|].
    destruct Ha as [->| ->]; [destruct H|]. destruct H as [H|[]]. right.
    now rewrite H. }
  destruct Hin as [Hin|Hin]; [|discriminate].
  exact (no_slash_in_digits x Hx Hin).
Qed.

Ltac other_text H1 H2 :=
  destruct H1 as [H1|H1], H2 as [H2|H2]; rewrite H1 in H2; discriminate H2.

(** No path matches two patterns of the table. *)
Lemma routes_apart (path : str) (i j : nat) (gi gj : groupdict) :
  (i < j < 6)%nat ->
  re_search (route i) path = Some gi ->
  re_search (route j) path = Some gj ->
  False.
Proof.
  intros Hij Hi Hj.
  destruct i as [|[|[|[|[|i]]]]]; [| | | | |lia].
  - (* the root *)
    apply route_0 in Hi as [_ H1].
    destruct j as [|[|[|[|[|[|j]]]]]]; [lia| | | | | |lia].
    + apply route_1 in Hj as (x & _ & _ & _ & H2). other_text H1 H2.
    + apply route_2 in Hj as (x & _ & _ & _ & H2). other_text H1 H2.
    + apply route_3 in Hj as (x & y & _ & _ & _ & H2). other_text H1 H2.
    + apply route_4 in Hj as (x & _ & _ & _ & H2). other_text H1 H2.
    + apply route_5 in Hj as (x & y & _ & _ & _ & H2). other_text H1 H2.
  - (* the static files *)
    apply route_1 in Hi as (x1 & _ & _ & _ & H1).
    destruct j as [|[|[|[|[|[|j]]]]]]; [lia|lia| | | | |lia].
    + apply route_2 in Hj as (x & _ & _ & _ & H2). other_text H1 H2.
    + apply route_3 in Hj as (x & y & _ & _ & _ & H2). other_text H1 H2.
    + apply route_4 in Hj as (x & _ & _ & _ & H2). other_text H1 H2.
    + apply route_5 in Hj as (x & y & _ & _ & _ & H2). other_text H1 H2.
  - (* a channel *)
    apply route_2 in Hi as (x1 & _ & _ & Hx1 & H1).
    destruct j as [|[|[|[|[|[|j]]]]]]; [lia|lia|lia| | | |lia].
    + apply route_3 in Hj as (x & y & _ & _ & _ & H2).
      exact (one_or_two_numbers _ _ _ _ _ Hx1 H1 H2).
    + apply route_4 in Hj as (x & _ & _ & _ & H2). other_text H1 H2.
    + apply route_5 in Hj as (x & y & _ & _ & _ & H2). other_text H1 H2.
  - (* a channel with a rewind *)
    apply route_3 in Hi as (x1 & y1 & _ & _ & _ & H1).
    destruct j as [|[|[|[|[|[|j]]]]]]; [lia|lia|lia|lia| | |lia].
    + apply route_4 in Hj as (x & _ & _ & _ & H2). other_text H1 H2.
    + apply route_5 in Hj as (x & y & _ & _ & _ & H2). other_text H1 H2.
  - (* the metadata of a channel *)
    apply route_4 in Hi as (x1 & _ & _ & Hx1 & H1).
    destruct j as [|[|[|[|[|[|j]]]]]]; [lia|lia|lia|lia|lia| |lia].
    apply route_5 in Hj as (x & y & _ & _ & _ & H2).
    exact (one_or_two_numbers _ _ _ _ _ Hx1 H1 H2).
Qed.

(** X18: The order of the route table carries no meaning: a path matches one
    pattern of the six at most, so the handler that is called does not
    depend on where its pattern stands. *)
Theorem routes_exclusive (path : str) (i j : nat) (gi gj : groupdict) :
  (i < 6)%nat -> (j < 6)%nat ->
  re_search (route i) path = Some gi ->
  re_search (route j) path = Some gj ->
  i = j.
Proof.
  intros Hi Hj Ei Ej.
  destruct (Nat.lt_trichotomy i j) as [Hlt|[Heq|Hgt]]; [exfalso|assumption|exfalso].
  - exact (routes_apart path i j gi gj (conj Hlt Hj) Ei Ej).
  - exact (routes_apart path j i gj gi (conj Hgt Hi) Ej Ei).
Qed.

Lemma do_GET_unfold (path : str) :
  do_GET path
  = match re_search (route 0) path with
    | Some g => (index, g)
    | None =>
    match re_search (route 1) path with
    | Some g => (static_file, g)
    | None =>
    match re_search (route 2) path with
    | Some g => (channel_stream, g)
    | None =>
    match re_search (route 3) path with
    | Some g => (channel_stream, g)
    | None =>
    match re_search (route 4) path with
    | Some g => (channel_metadata_handler, g)
    | None =>
    match re_search (route 5) path with
    | Some g => (channel_metadata_handler, g)
    | None => (file_not_found, [])
    end end end end end end.
Proof. reflexivity. Qed.

Lemma dot_run (x : str) : forallb (accepts Dot) x = true <-> ~ In 10 x.
Proof.
  rewrite forallb_forall. split.
  - intros H Hin. specialize (H 10 Hin). discriminate.
  - intros H c Hc. cbn [accepts]. apply negb_true_iff, N.eqb_neq.
    intros ->. now apply H.
Qed.

(** X19: Every call that [do_GET] makes, read back from the handler and its
    keyword arguments: the path is the text of one route, with at most a
    line feed after it.  In particular [channel_number] and [rewind] are
    never anything but strings of the digits 0 to 9, and where no pattern
    matches the handler is [file_not_found]. *)
Theorem do_GET_calls (path : str) :
  match do_GET path with
  | (index, g) => g = [] /\ is_line path (u "/")
  | (static_file, g) =>
      exists p, g = [("path"%string, p)] /\ p <> [] /\ ~ In 10 p
                /\ is_line path (u "/static/" ++ p)
  | (channel_stream, g) =>
      exists n, digits n
        /\ ((g = [("channel_number"%string, n)]
             /\ is_line path (u "/channel/" ++ n))
            \/ exists r, digits r
                 /\ g = [("channel_number"%string, n); ("rewind"%string, r)]
                 /\ is_line path (u "/channel/" ++ n ++ u "/" ++ r))
  | (channel_metadata_handler, g) =>
      exists n, digits n
        /\ ((g = [("channel_number"%string, n)]
             /\ is_line path (u "/metadata/" ++ n))
            \/ exists r, digits r
                 /\ g = [("channel_number"%string, n); ("rewind"%string, r)]
                 /\ is_line path (u "/metadata/" ++ n ++ u "/" ++ r))
  | (file_not_found, g) =>
      g = [] /\ forall i, (i < 6)%nat -> re_search (route i) path = None
  end.
Proof.
  rewrite do_GET_unfold.
  destruct (re_search (route 0) path) as [g|] eqn:E0;
    [now apply route_0 in E0|].
  destruct (re_search (route 1) path) as [g|] eqn:E1.
  { apply route_1 in E1 as (p & -> & Hp & Hdot & Hl). exists p.
    rewrite dot_run in Hdot. auto. }
  destruct (re_search (route 2) path) as [g|] eqn:E2.
  { apply route_2 in E2 as (n & -> & Hn & Hd & Hl). exists n.
    split; [now split | left; now split]. }
  destruct (re_search (route 3) path) as [g|] eqn:E3.
  { apply route_3 in E3 as (n & r & -> & Hn & Hr & Hl). exists n.
    split; [assumption | right]. exists r. auto. }
  destruct (re_search (route 4) path) as [g|] eqn:E4.
  { apply route_4 in E4 as (n & -> & Hn & Hd & Hl). exists n.
    split; [now split | left; now split]. }
  destruct (re_search (route 5) path) as [g|] eqn:E5.
  { apply route_5 in E5 as (n & r & -> & Hn & Hr & Hl). exists n.
    split; [assumption | right]. exists r. auto. }
  split; [reflexivity|].
  intros i Hi. destruct i as [|[|[|[|[|[|i]]]]]]; try assumption. lia.
Qed.

Lemma do_GET_at (path : str) (i : nat) (g : groupdict) :
  (i < 6)%nat ->
  re_search (route i) path = Some g ->
  do_GET path = (snd (nth i routes ([], file_not_found)), g).
Proof.
  intros Hi E. rewrite do_GET_unfold.
  assert (Hother : forall j gj, (j < i)%nat ->
                     re_search (route j) path = Some gj -> False).
  { intros j gj Hj Ej. apply (routes_apart path j i gj g); [lia | assumption..]. }
  destruct i as [|[|[|[|[|[|i]]]]]]; [| | | | | |lia];
    repeat match goal with
           | |- context [re_search (route ?j) path] =>
               lazymatch goal with
               | H : re_search (route j) path = Some _ |- _ => rewrite H
               | _ =>
                   let Ej := fresh "Ej" in
                   destruct (re_search (route j) path) eqn:Ej;
                   [exfalso; eapply (Hother j); [lia | exact Ej]|]
               end
           end; reflexivity.
Qed.

(** X20: The other way round: the root, a file under [/static/], a channel
    and the metadata of a channel, each with or without a rewind, reach
    their handlers, with the parts of the path as keyword arguments. *)
Theorem do_GET_serves (p n r : str) :
  p <> [] -> ~ In 10 p -> digits n -> digits r ->
  do_GET (u "/") = (index, [])
  /\ do_GET (u "/static/" ++ p) = (static_file, [("path"%string, p)])
  /\ do_GET (u "/channel/" ++ n)
     = (channel_stream, [("channel_number"%string, n)])
  /\ do_GET (u "/channel/" ++ n ++ u "/" ++ r)
     = (channel_stream, [("channel_number"%string, n); ("rewind"%string, r)])
  /\ do_GET (u "/metadata/" ++ n)
     = (channel_metadata_handler, [("channel_number"%string, n)])
  /\ do_GET (u "/metadata/" ++ n ++ u "/" ++ r)
     = (channel_metadata_handler,
        [("channel_number"%string, n); ("rewind"%string, r)]).
Proof.
  intros Hp Hnl Hn Hr. apply dot_run in Hnl.
  pose proof Hn as [Hn1 Hn2]. pose proof Hr as [Hr1 Hr2].
  split; [reflexivity|]. split; [|split; [|split; [|split]]].
  - apply (do_GET_at _ 1); [lia|]. apply route_1. exists p.
    repeat split; try assumption. now left.
  - apply (do_GET_at _ 2); [lia|]. apply route_2. exists n.
    repeat split; try assumption. now left.
  - apply (do_GET_at _ 3); [lia|]. apply route_3. exists n, r.
    repeat split; try assumption. now left.
  - apply (do_GET_at _ 4); [lia|]. apply route_4. exists n.
    repeat split; try assumption. now left.
  - apply (do_GET_at _ 5); [lia|]. apply route_5. exists n, r.
    repeat split; try assumption. now left.
Qed.

(** ** [_parse_lineup] *)

Lemma assoc_set_field (k : str) (v : json) (d : list (list N * json)) :
  assoc k (set_field k v d) = Some v.
Proof.
  induction d as [|[k' v'] d IH]; cbn [set_field assoc].
  - now rewrite (proj2 (str_eqb_eq k k)).
  - destruct (str_eqb k' k) eqn:E; cbn [assoc]; rewrite E; [reflexivity | exact IH].
Qed.

Lemma assoc_set_field_other (k k0 : str) (v : json) (d : list (list N * json)) :
  k0 <> k -> assoc k0 (set_field k v d) = assoc k0 d.
Proof.
  intros Hne. induction d as [|[k' v'] d IH]; cbn [set_field assoc].
  - now rewrite (proj2 (str_eqb_neq k k0)) by congruence.
  - destruct (str_eqb k' k) eqn:E; cbn [assoc]; [|now rewrite IH].
    apply str_eqb_eq in E. subst k'.
    now rewrite (proj2 (str_eqb_neq k k0)) by congruence.
Qed.

Lemma each_filed {X} (body : X -> gmap Z json -> result unit * gmap Z json)
    (l : list X) (lineup : gmap Z json) :
  (forall x m, filed m -> filed (snd (body x m))) ->
  filed lineup -> filed (snd (each body l lineup)).
Proof.
  intros Hbody. revert lineup. induction l as [|x l IH]; intros lineup Hm;
    [exact Hm|].
  cbn [each]. specialize (Hbody x lineup Hm).
  destruct (body x lineup) as [[[]|e] m']; [now apply IH | exact Hbody].
Qed.

Lemma add_channel_filed (genre channel : json) (lineup : gmap Z json) :
  filed lineup -> filed (snd (add_channel genre channel lineup)).
Proof.
  intros Hm. unfold add_channel.
  destruct (subscript genre (u "name")) as [name|]; [|exact Hm]. cbn [rbind].
  destruct channel as [| | | | |d]; try exact Hm. cbn [setitem rbind].
  destruct (subscript (JObj (set_field (u "genre") name d)) (u "siriusChannelNo"))
    as [number|] eqn:En; [|exact Hm]. cbn [rbind].
  destruct (py_int number) as [n|] eqn:Ei; [|exact Hm]. cbn [rbind snd].
  intros k ch Hk. destruct (decide (n = k)) as [->|Hne].
  - rewrite lookup_insert_eq in Hk. injection Hk as <-. split.
    + now exists number.
    + exists name. cbn [subscript]. now rewrite assoc_set_field.
  - rewrite lookup_insert_ne in Hk by assumption. now apply Hm.
Qed.

Lemma add_genre_filed (genre : json) (lineup : gmap Z json) :
  filed lineup -> filed (snd (add_genre genre lineup)).
Proof.
  intros Hm. unfold add_genre.
  destruct (let+ channels := _ in _) as [channels|]; [|exact Hm].
  apply each_filed; [|exact Hm]. intros x m. apply add_channel_filed.
Qed.

Lemma add_category_filed (category : json) (lineup : gmap Z json) :
  filed lineup -> filed (snd (add_category category lineup)).
Proof.
  intros Hm. unfold add_category.
  destruct (let+ genres := _ in _) as [genres|]; [|exact Hm].
  apply each_filed; [|exact Hm]. intros x m. apply add_genre_filed.
Qed.

(** X21: However [_parse_lineup] ends, every channel that [self.lineup] holds
    then is filed under the integer that [int] makes of its own
    [siriusChannelNo], and has a [genre]. *)
Theorem parse_lineup_filed (lineup : json) (n : Z) (channel : json) :
  snd (_parse_lineup lineup) !! n = Some channel ->
  (exists number,
      subscript channel (u "siriusChannelNo") = Ok number
      /\ py_int number = Ok n)
  /\ exists name, subscript channel (u "genre") = Ok name.
Proof.
  revert n channel.
  change (filed (snd (_parse_lineup lineup))). unfold _parse_lineup.
  assert (Hempty : filed ∅) by (intros n ch H; now rewrite lookup_empty in H).
  destruct (let+ response := _ in _) as [categories|]; [|exact Hempty].
  apply each_filed; [|exact Hempty]. intros x m. apply add_category_filed.
Qed.

(** X22: The code wraps a single genre that comes as an object, not as a list,
    but not a single channel.  The loop over the channels then runs over
    the keys of that object, which are strings, and its first turn
    raises: [KeyError] from the right side of the assignment when the
    genre has no name, [TypeError] from the assignment to a string when
    it has one.  Where this happens in the first category the line-up is
    left empty. *)
Theorem parse_lineup_single_channel
    (lineup response inner category genre : json) (rest : list json)
    (k : str) (v : json) (fields : list (list N * json)) :
  subscript lineup (u "lineup-response") = Ok response ->
  subscript response (u "lineup") = Ok inner ->
  subscript inner (u "categories") = Ok (JArr (category :: rest)) ->
  subscript category (u "genres") = Ok genre ->
  is_dict genre = true ->
  subscript genre (u "channels") = Ok (JObj ((k, v) :: fields)) ->
  _parse_lineup lineup
  = (Raise match subscript genre (u "name") with
           | Ok _ => TypeError
           | Raise _ => KeyError
           end, ∅)
  /\ forall e, subscript genre (u "name") = Raise e -> e = KeyError.
Proof.
  intros Hr Hi Hc Hg Hd Hch. split.
  - unfold _parse_lineup.
    rewrite Hr. cbn [rbind]. rewrite Hi. cbn [rbind]. rewrite Hc.
    cbn [rbind iterate each]. unfold add_category. rewrite Hg. cbn [rbind].
    rewrite Hd. cbn [iterate each]. unfold add_genre. rewrite Hch.
    cbn [rbind iterate map each fst]. unfold add_channel.
    destruct genre as [ | | | | |d]; try discriminate.
    cbn [subscript]. destruct (assoc _ d); reflexivity.
  - destruct genre as [ | | | | |d]; try discriminate. cbn [subscript].
    destruct (assoc _ d); intros e H; [discriminate | now injection H as <-].
Qed.

End Gateway.

(** * The client on concrete inputs *)

#[local] Existing Instance primitives.

Arguments world : clear implicits.

(** An upstream that answers from two scripts, one for the JSON end
    points and one for the resources, whatever the request. *)
Record script : Type := {
  json_answers : list (result json);
  get_answers : list (result response);
}.

Definition script_json (s : script) (_ : request) : script * result json :=
  match json_answers s with
  | a :: rest => ({| json_answers := rest; get_answers := get_answers s |}, a)
  | [] => (s, Raise (RequestException "no answer"))
  end.

Definition script_get (s : script) (_ : request) : script * result response :=
  match get_answers s with
  | a :: rest => ({| json_answers := json_answers s; get_answers := rest |}, a)
  | [] => (s, Raise (RequestException "no answer"))
  end.

(** Stand-ins for the parsers of mpegutils: the first byte of a block
    tells the PID of its one packet (3 for audio, 4 for metadata), an
    elementary stream is one packet, and a metadata payload is the title
    in UTF-8. *)
Definition sample_transport (b : bytes) : list pes_packet :=
  match b with
  | x03 :: r => [{| pid := 768; payload := Some r |}]
  | x04 :: r => [{| pid := 1024; payload := Some r |}]
  | _ => []
  end.

Definition sample_pes (b : bytes) : list (list byte) := [b].

Definition sample_metadata (b : bytes) : option (str * str * str) :=
  match b, decode b with
  | _ :: _, Ok title => Some (title, u "Artist", u "Album")
  | _, _ => None
  end.

Definition no_metadata (b : bytes) : option (str * str * str) := None.

Definition ascii_bytes (s : string) : bytes := map byte_of (u s).

Definition unhex (s : string) : bytes :=
  match fromhex (u s) with
  | Ok b => b
  | Raise _ => []
  end.

Definition sample_config : list (list N * option (list N)) :=
  [(u "AuthenticationBaseUrl", Some (u "https://auth.test"));
   (u "TokenBaseUrl", Some (u "https://token.test"))].

Definition sample_channel : channel :=
  {| channelKey := u "hits1"; name := u "Hits 1"; genre := u "Pop" |}.

Definition sample_key : bytes := unhex "d07244d49bee4b251b257453f7b5d223".

Definition sample_token : str * str := (u "https://cdn.test/", u "abc123_def").

(** A Sirius object after a login, with the token cache given. *)
Definition logged_in (cache : gmap (list N) (list N * list N)) : sirius :=
  {| config := sample_config;
     lineup := {[ 2%Z := sample_channel ]};
     token_cache := cache;
     username := Some (u "user@example.com");
     password := Some (u "hunter2");
     key := Some sample_key;
     session_id := Some (JStr (u "session-1")) |}.

(** A Sirius object before any login. *)
Definition fresh : sirius :=
  {| config := sample_config;
     lineup := {[ 2%Z := sample_channel ]};
     token_cache := ∅;
     username := None; password := None; key := None; session_id := None |}.

Definition start (s : sirius) (answers : script) : world script :=
  {| sx := s; up := answers; sent := []; now := 0; elapse := [];
     faults := []; trace := [] |}.

Definition challenge_doc : json :=
  JObj [(u "AuthenticationResponse",
         JObj [(u "authenticationChallenge",
                JStr (u "000102030405060708090a0b0c0d0e0f"));
               (u "salt", JStr (u "73616c7473616c74"));
               (u "iterationsCount", JInt 2)])].

Definition accepted_doc : json :=
  JObj [(u "AuthenticationResponse",
         JObj [(u "status", JInt 1); (u "sessionId", JStr (u "session-2"))])].

Definition refused_doc (code : Z) : json :=
  JObj [(u "AuthenticationResponse",
         JObj [(u "status", JInt 0);
               (u "messages", JObj [(u "code", JInt code)])])].

Definition expired_doc : json :=
  JObj [(u "tokenResponse", JObj [(u "status", JInt 0)])].

Definition token_doc : json :=
  JObj [(u "tokenResponse",
         JObj [(u "tokenData",
                JStr (u "0484624d0eba366b94f04cf0c12bae73d014c3b95f31f9efb590b8341554652d0b522eb06eb830abafe0e44de82d1e56"))])].

Definition respond (status : Z) (body : string) (data : bytes) : result response :=
  Ok {| status_code := status; text := u body; content := data |}.


Definition request_url (r : request) : str :=
  match r with
  | POST url _ => url
  | GET url _ => url
  end.

Definition initiate_url : str := u "https://auth.test" ++ initiate_path.
Definition complete_url : str := u "https://auth.test" ++ complete_path.

(** ** The primitives against published vectors *)

Example sha256_abc :
  hexlify (SHA256.digest (ascii_bytes "abc"))
  = u "ba7816bf8f01cfea414140de5dae2223b00361a396177a9cb410ff61f20015ad".
Proof. vm_compute. reflexivity. Qed.

Example md5_abc :
  hexlify (MD5.digest (ascii_bytes "abc")) = u "900150983cd24fb0d6963f7d28e17f72".
Proof. vm_compute. reflexivity. Qed.

Example pbkdf2_password_salt :
  PBKDF2.derive (ascii_bytes "password") (ascii_bytes "salt") 2 16
  = Ok (unhex "ae4d0c95af6b46d32d0adff928f06dd0").
Proof. vm_compute. reflexivity. Qed.

Example aes128_fips197 :
  AES.cbc_encrypt (unhex "000102030405060708090a0b0c0d0e0f") zero_iv
    (unhex "00112233445566778899aabbccddeeff")
  = Ok (unhex "69c4e0d86a7b0430d8cdb78070b4c55a").
Proof. vm_compute. reflexivity. Qed.

Example aes128_cbc_round_trip :
  AES.cbc_decrypt (unhex "D0DB1CA3B300831A301AF9144FC6986A")
    (unhex "0f0e0d0c0b0a09080706050403020100")
    (unhex "b5d030dbdf64b4ff94d63a2c629639ae837290d9384fe95f3471a7ac575b102b")
  = Ok (unhex "00112233445566778899aabbccddeeff000102030405060708090a0b0c0d0e0f").
Proof. vm_compute. reflexivity. Qed.

(** ** The string operations on small inputs

    Each value is what the interpreter gives for the same input. *)

Definition CR : str := [13].
Definition LF : str := [10].

Example splitlines_keeps_inner_empty_line :
  splitlines (u "a" ++ LF ++ LF ++ u "b") = [u "a"; []; u "b"]
  /\ splitlines (u "a" ++ LF) = [u "a"]
  /\ splitlines LF = [[]]
  /\ splitlines [] = []
  /\ splitlines (u "a" ++ CR ++ LF ++ u "b" ++ CR) = [u "a"; u "b"].
Proof. vm_compute. auto. Qed.

Example strip_both_ends :
  strip (u "  seg 1.aac " ++ CR) = u "seg 1.aac" /\ strip (u "   ") = [].
Proof. vm_compute. auto. Qed.

Example slice_from_clamps :
  slice_from (-2) [1; 2; 3] = [2; 3]
  /\ slice_from (-10) [1; 2; 3] = [1; 2; 3]
  /\ slice_from 1 [1; 2; 3] = [2; 3]
  /\ slice_from 5 [1; 2; 3] = [].
Proof. vm_compute. auto. Qed.

Example fromhex_skips_blanks_between_bytes :
  fromhex (u "CA fe") = Ok [xca; xfe]
  /\ fromhex (u "c afe") = Raise ValueError
  /\ fromhex (u "caf") = Raise ValueError.
Proof. vm_compute. auto. Qed.

Example search_token_is_lazy_then_greedy :
  search_token (u "https://cdn.test/?token=abc123_def&x=1")
  = Some (u "https://cdn.test/", u "abc123_def")
  /\ search_token (u "?token=ab?token=cd") = Some (u "?token=ab", u "cd")
  /\ search_token (u "x?token=") = None.
Proof. vm_compute. auto. Qed.

(** ** [_filter_playlist] on concrete playlists *)

Definition sample_playlist : str :=
  u "#EXTM3U" ++ LF ++ u "a.aac" ++ LF ++ u " b.aac " ++ LF ++ u "c.aac" ++ LF.

Lemma filter_playlist_after_marker_witness :
  (exists pre post,
     spec_entries sample_playlist = pre ++ u "a.aac" :: post
     /\ ~ In (u "a.aac") pre
     /\ _filter_playlist sample_playlist (Some (u "a.aac")) 7 = Ok post)
  /\ _filter_playlist sample_playlist (Some []) 7
     = _filter_playlist sample_playlist None 7.
Proof.
  destruct (filter_playlist_after_marker sample_playlist (u "a.aac") 7)
    as [Hafter Hempty].
  split; [apply Hafter | exact Hempty].
  - vm_compute. intuition discriminate.
  - discriminate.
  - vm_compute. auto.
Defined.

(** The claim fails where the marker is the empty string, an entry that a
    line of blanks leaves behind: the window comes back, marker included.
    It fails too where the playlist has an empty line: nothing comes
    back. *)
Lemma filter_playlist_marker_counterexample :
  (In [] (spec_entries (u " " ++ LF ++ u "b.aac"))
   /\ _filter_playlist (u " " ++ LF ++ u "b.aac") (Some []) 0
      = Ok [[]; u "b.aac"])
  /\ (In (u "a.aac") (spec_entries (u "a.aac" ++ LF ++ LF ++ u "b.aac"))
      /\ _filter_playlist (u "a.aac" ++ LF ++ LF ++ u "b.aac") (Some (u "a.aac")) 0
         = Raise IndexError).
Proof. vm_compute. auto. Qed.

(** C5 on a playlist with an empty line: the text has the three entries
    [a.aac], the empty one and [b.aac], and no marker is given, yet no
    window comes back: [IndexError] is raised. *)
Theorem filter_playlist_window_empty_line :
  spec_entries (u "a.aac" ++ LF ++ LF ++ u "b.aac") = [u "a.aac"; []; u "b.aac"]
  /\ _filter_playlist (u "a.aac" ++ LF ++ LF ++ u "b.aac") None 0
     = Raise IndexError.
Proof. vm_compute. auto. Qed.

Lemma filter_playlist_empty_line_witness :
  _filter_playlist (u "a.aac" ++ LF ++ LF ++ u "b.aac") (Some (u "a.aac")) 2
  = Raise IndexError.
Proof.
  apply (filter_playlist_empty_line _ (Some (u "a.aac")) 2).
  vm_compute. auto.
Defined.

(** ** [login] on a concrete exchange

    The expected key and [authenticationData] below were computed apart,
    with [hashlib] and OpenSSL. *)

Definition login_world : world script :=
  start fresh {| json_answers := [Ok challenge_doc; Ok accepted_doc];
                 get_answers := [] |}.

Definition initiate_request : request :=
  POST (u "https://auth.test" ++ initiate_path) (auth_request (u "user@example.com")).

Definition authentication_data : str :=
  u "f25172e05c976a58e0d62be34af9ca228675a83e4d0a719c8d03b38998d34f8517bf2f1916a057e8989ba35b28add940".

Definition complete_request : request :=
  POST (u "https://auth.test" ++ complete_path)
    (auth_response (u "user@example.com") authentication_data).

(** The world once the challenge is answered and the key stored. *)
Definition challenged_world : world script :=
  with_sx (set_key sample_key)
    (answered (with_sx (set_credentials (u "user@example.com") (u "hunter2"))
                 login_world)
       initiate_request
       {| json_answers := [Ok accepted_doc]; get_answers := [] |}).

Lemma login_message_construction_witness :
  authenticate script_json (u "user@example.com") (u "hunter2") login_world
  = (Ok (u "https://auth.test", authentication_data), challenged_world)
  /\ key (sx challenged_world) = Some (unhex "d07244d49bee4b251b257453f7b5d223").
Proof.
  unshelve epose proof
           (login_message_construction script_json
              (u "user@example.com") (u "hunter2")
              (u "000102030405060708090a0b0c0d0e0f") (u "73616c7473616c74")
              (u "https://auth.test") (JInt 2) 2 challenge_doc
              (JObj [(u "authenticationChallenge",
                      JStr (u "000102030405060708090a0b0c0d0e0f"));
                     (u "salt", JStr (u "73616c7473616c74"));
                     (u "iterationsCount", JInt 2)])
              (unhex "000102030405060708090a0b0c0d0e0f") (unhex "73616c7473616c74")
              (ascii_bytes "hunter2") sample_key
              (unhex "f25172e05c976a58e0d62be34af9ca228675a83e4d0a719c8d03b38998d34f8517bf2f1916a057e8989ba35b28add940")
              {| json_answers := [Ok accepted_doc]; get_answers := [] |}
              login_world _ _ _ _ _ _ _ _ _ _ _ _ _) as H;
    try (vm_compute; reflexivity).
  cbv zeta in H. destruct H as (_ & _ & Hauth & Hkey & _). split.
  - exact Hauth.
  - exact Hkey.
Defined.

Lemma login_outcome_witness :
  login script_json (u "user@example.com") (u "hunter2") login_world
  = (Ok tt,
     with_sx (set_session_id (JStr (u "session-2")))
       (answered challenged_world complete_request
          {| json_answers := []; get_answers := [] |})).
Proof.
  refine (proj1
            (proj2 (proj2
                      (login_outcome script_json
                         (u "user@example.com") (u "hunter2")
                         (u "https://auth.test") authentication_data accepted_doc
                         (JObj [(u "status", JInt 1);
                                (u "sessionId", JStr (u "session-2"))])
                         (JInt 1)
                         {| json_answers := []; get_answers := [] |}
                         login_world challenged_world _ _ _ _))
               _ (JStr (u "session-2")) _));
    vm_compute; reflexivity.
Defined.

(** The two refusals: the challenge is answered, the completion is not
    accepted. *)
Definition refused_world (code : Z) : world script :=
  start fresh {| json_answers := [Ok challenge_doc; Ok (refused_doc code)];
                 get_answers := [] |}.

Example login_refused_401 :
  let r := login script_json (u "user@example.com") (u "hunter2")
             (refused_world 401) in
  fst r = Raise (SiriusException "Invalid password")
  /\ map request_url (sent (snd r)) = [initiate_url; complete_url]
  /\ session_id (sx (snd r)) = None.
Proof. vm_compute. auto. Qed.

Example login_refused_503 :
  let r := login script_json (u "user@example.com") (u "hunter2")
             (refused_world 503) in
  fst r = Raise (SiriusException "Unknown login error")
  /\ map request_url (sent (snd r)) = [initiate_url; complete_url]
  /\ session_id (sx (snd r)) = None.
Proof. vm_compute. auto. Qed.

(** ** [_get_token_resource] on concrete answers *)

Definition cached : gmap (list N) (list N * list N) :=
  {[ u "hits1" := sample_token ]}.

(** The token is cached and the resource is missing. *)
Definition missing_world : world script :=
  start (logged_in cached)
    {| json_answers := []; get_answers := [respond 404 "" []] |}.

(** The token is cached, the resource is refused once and then served. *)
Definition refused_once_world : world script :=
  start (logged_in cached)
    {| json_answers := [Ok token_doc];
       get_answers := [respond 500 "" []; respond 200 "seg1.aac" []] |}.

Definition segment_url : str := u "https://cdn.test/HLS_hits1_64k/seg1.aac".
Definition token_url : str :=
  u "https://token.test/en-us/json/v3/streaming/ump2/hits1/".

Lemma get_token_resource_by_status_witness :
  _get_token_resource script_json script_get 6 (u "hits1") (u "seg1.aac")
    missing_world
  = (Raise (SiriusException "Resource not found"),
     answered missing_world
       (resource_request (u "https://cdn.test/") (u "hits1") (u "seg1.aac")
          (u "abc123_def"))
       {| json_answers := []; get_answers := [] |}).
Proof.
  refine (proj1
            (proj1 (proj2
                      (get_token_resource_by_status script_json script_get 5
                         (u "hits1") (u "seg1.aac") (u "https://cdn.test/")
                         (u "abc123_def")
                         {| status_code := 404; text := []; content := [] |}
                         {| json_answers := []; get_answers := [] |}
                         missing_world missing_world _ _))
               _));
    vm_compute; reflexivity.
Defined.

(** Against C1: a 404 is raised at once, after the one request and with
    the cached token kept; a 500 is not passed on but answered with a
    new token and a second request, whose response is returned. *)
Lemma get_token_resource_counterexample :
  (let r := _get_token_resource script_json script_get 6 (u "hits1")
              (u "seg1.aac") missing_world in
   fst r = Raise (SiriusException "Resource not found")
   /\ map request_url (sent (snd r)) = [segment_url]
   /\ token_cache (sx (snd r)) !! u "hits1" = Some sample_token)
  /\ (let r := _get_token_resource script_json script_get 6 (u "hits1")
                 (u "seg1.aac") refused_once_world in
      fst r = respond 200 "seg1.aac" []
      /\ map request_url (sent (snd r)) = [segment_url; token_url; segment_url]).
Proof. vm_compute. auto. Qed.

(** ** [_channel_token] on concrete answers *)

(** The session has expired; the token end point says so twice, each
    login is accepted, and the third token request is served. *)
Definition expired_world : world script :=
  start (logged_in ∅)
    {| json_answers := [Ok expired_doc; Ok challenge_doc; Ok accepted_doc;
                        Ok expired_doc; Ok challenge_doc; Ok accepted_doc;
                        Ok token_doc];
       get_answers := [] |}.

(** Against C2: after the retry has failed too there is no error; the
    client logs in a second time, asks a third time and returns the
    token. *)
Lemma channel_token_counterexample :
  let r := _channel_token script_json 10 (u "hits1") false expired_world in
  fst r = Ok sample_token
  /\ map request_url (sent (snd r))
     = [token_url; initiate_url; complete_url;
        token_url; initiate_url; complete_url; token_url].
Proof. vm_compute. auto. Qed.

(** The worlds after the first and the second round. *)
Definition relogged_once : world script :=
  snd (login script_json (u "user@example.com") (u "hunter2")
         (answered expired_world
            (token_request (u "https://token.test") (u "hits1")
               (JStr (u "session-1")))
            {| json_answers := [Ok challenge_doc; Ok accepted_doc;
                                Ok expired_doc; Ok challenge_doc;
                                Ok accepted_doc; Ok token_doc];
               get_answers := [] |})).

Definition relogged_twice : world script :=
  snd (login script_json (u "user@example.com") (u "hunter2")
         (answered relogged_once
            (token_request (u "https://token.test") (u "hits1")
               (JStr (u "session-2")))
            {| json_answers := [Ok challenge_doc; Ok accepted_doc; Ok token_doc];
               get_answers := [] |})).

Lemma channel_token_relogins_witness :
  _channel_token script_json (2 + 3) (u "hits1") false expired_world
  = _channel_token script_json 3 (u "hits1") true relogged_twice
  /\ length (sent relogged_twice) = (length (sent expired_world) + 3 * 2)%nat.
Proof.
  apply (channel_token_relogins script_json 1 3 (u "hits1") false
           expired_world relogged_twice).
  - right. reflexivity.
  - apply relogins_S with (w1 := relogged_once).
    + exists (u "https://token.test"), (JStr (u "session-1")), expired_doc,
        {| json_answers := [Ok challenge_doc; Ok accepted_doc;
                            Ok expired_doc; Ok challenge_doc;
                            Ok accepted_doc; Ok token_doc];
           get_answers := [] |},
        (u "user@example.com"), (u "hunter2").
      do 6 (split; [vm_compute; reflexivity|]). vm_compute; reflexivity.
    + apply relogins_S with (w1 := relogged_twice); [|apply relogins_O].
      exists (u "https://token.test"), (JStr (u "session-2")), expired_doc,
        {| json_answers := [Ok challenge_doc; Ok accepted_doc; Ok token_doc];
           get_answers := [] |},
        (u "user@example.com"), (u "hunter2").
      do 6 (split; [vm_compute; reflexivity|]). vm_compute; reflexivity.
Defined.

(** ** [channel_metadata] on a first block without metadata *)

(** The block the service sends for [seg1.aac]: an IV and one encrypted
    block, which decrypts to a metadata packet that is no text. *)
Definition sealed_segment : bytes :=
  unhex "000102030405060708090a0b0c0d0e0f691ba8572a91cc2b879e6ee143bc3177".

Definition playing_world : world script :=
  start (logged_in cached)
    {| json_answers := [];
       get_answers := [respond 200 "seg1.aac" [];
                       respond 200 "" sealed_segment] |}.

Definition first_block : bytes := x04 :: repeat xff 15.

Definition after_first_block : world script :=
  snd (packet_generator_next script_json script_get 3 5 (u "hits1") 0
         new_generator playing_world).

Lemma channel_metadata_without_block_witness :
  channel_metadata script_json script_get sample_transport sample_pes
    sample_metadata 3 5 2 0 playing_world
  = (Raise TypeError, after_first_block).
Proof.
  apply (channel_metadata_without_block script_json script_get
           sample_transport sample_pes sample_metadata 3 5 2 0 sample_channel
           first_block {| playlist := []; entry := Some (u "seg1.aac") |}
           playing_world after_first_block).
  - vm_compute. reflexivity.
  - vm_compute. reflexivity.
  - intros pes data [<-|[]] _ Hdata es. injection Hdata as <-.
    intros [<-|[]]. reflexivity.
Defined.

(** A transport stream whose record on the metadata PID has no payload. *)
Definition unfilled_transport (b : bytes) : list pes_packet :=
  [{| pid := 768; payload := Some b |}; {| pid := 1024; payload := None |}].

(** The claim fails where a record on the metadata PID comes without a
    payload: the block has nothing that could be recognised, and the
    handler does not get as far as the absent result; it raises
    [KeyError] on the record. *)
Lemma channel_metadata_counterexample :
  omap payload
    (List.filter (fun pes => (pid pes =? METADATA_PID)%Z)
       (unfilled_transport first_block)) = []
  /\ channel_metadata script_json script_get unfilled_transport sample_pes
       sample_metadata 3 5 2 0 playing_world
     = (Raise KeyError, after_first_block).
Proof. vm_compute. auto. Qed.

(** ** [channel_stream] on concrete packets *)

Definition silence : bytes := repeat x00 METAINT.

Definition idle : script := {| json_answers := []; get_answers := [] |}.

(** One second after the first frame was stamped. *)
Definition second_frame_state : stream :=
  {| audio := []; track_title := []; new_meta := false; start_time := Some 0%Z |}.

Definition second_frame_world : world script :=
  {| sx := fresh; up := idle; sent := []; now := 1000; elapse := [];
     faults := []; trace := [] |}.

Definition third_frame_state : stream :=
  {| audio := []; track_title := []; new_meta := false;
     start_time := Some 4000%Z |}.

Definition third_frame_world : world script :=
  {| sx := fresh; up := idle; sent := []; now := 4000; elapse := [];
     faults := [];
     trace := [Wrote 1000 silence; Wrote 1000 [x00]; Slept 1000 3000] |}.

Lemma pacing_sleeps_after_write_witness :
  exists a m t2 sleeps t',
    trace third_frame_world
    = trace second_frame_world
      ++ [Wrote (now (tick second_frame_world)) a; Wrote t2 m] ++ sleeps
    /\ start_time third_frame_state = Some t'
    /\ (now (tick second_frame_world) <= t2 <= t')%Z
    /\ match start_time second_frame_state with
       | None => sleeps = []
       | Some t0 =>
           (t0 + FOUR_SECONDS <= t')%Z
           /\ exists t,
                (t2 <= t)%Z
                /\ ((t0 + FOUR_SECONDS <= t)%Z /\ sleeps = []
                    \/ (t < t0 + FOUR_SECONDS)%Z
                       /\ exists ts d,
                            sleeps = [Slept ts d] /\ (t <= ts)%Z /\ (0 <= d)%Z
                            /\ (ts + d = t0 + FOUR_SECONDS)%Z)
       end.
Proof.
  apply (pacing_sleeps_after_write no_metadata 768 silence second_frame_state
           third_frame_state second_frame_world third_frame_world).
  - apply Nat.leb_le. vm_cast_no_check (@eq_refl bool true).
  - vm_cast_no_check
      (@eq_refl _ (@Ok (flow stream) (Next third_frame_state), third_frame_world)).
Defined.

(** A connection on which every write and every reading of the clock
    takes one millisecond. *)
Definition brisk_world : world script :=
  {| sx := fresh; up := idle; sent := []; now := 0; elapse := repeat 1 20;
     faults := []; trace := [] |}.

(** Against C3: two frames' worth of audio arrive one after the other.
    The second frame is written 3 ms after the first, not 4 s less the
    3 ms spent, and the sleep of 3996 ms comes after that second write. *)
Lemma pacing_counterexample :
  trace (snd (for_each (fun x => es_step no_metadata (fst x) (snd x))
                [(768%Z, silence); (768%Z, silence)] initial_stream
                brisk_world))
  = [Wrote 1 silence; Wrote 2 [x00]; Wrote 4 silence; Wrote 5 [x00];
     Slept 7 3996].
Proof.
  vm_cast_no_check
    (@eq_refl _ [Wrote 1 silence; Wrote 2 [x00]; Wrote 4 silence; Wrote 5 [x00];
                 Slept 7 3996]).
Qed.

(** A title arrives, then a frame's worth of audio. *)
Definition titled_state : stream :=
  absorb sample_metadata 1024 (ascii_bytes "It's") initial_stream.

Definition titled_frame_state : stream :=
  {| audio := []; track_title := u "Artist - It's"; new_meta := false;
     start_time := Some 0%Z |}.

Definition titled_frame_world : world script :=
  snd (es_step sample_metadata 768 silence titled_state (start fresh idle)).

Definition titled_frame : bytes :=
  x02 :: ascii_bytes "StreamTitle='Artist - Its';" ++ repeat x00 5.

Lemma frame_metadata_witness :
  length silence = METAINT
  /\ silence = take METAINT (audio (absorb sample_metadata 768 silence titled_state))
  /\ (forall e, In e (@nil event) -> exists t d, e = Slept t d)
  /\ if title_changed sample_metadata
          ([(1024%Z, ascii_bytes "It's")] ++ [(768%Z, silence)])
          (track_title initial_stream) then
       exists text n,
         encode (stream_title
                   (track_title (absorb sample_metadata 768 silence titled_state)))
         = Ok text
         /\ titled_frame
            = n :: text ++ repeat x00 (16 * N.to_nat (Byte.to_N n) - length text)
         /\ Byte.to_N n = ceil_div (N.of_nat (length text)) 16
         /\ length titled_frame = (1 + 16 * N.to_nat (Byte.to_N n))%nat
     else titled_frame = [x00].
Proof.
  apply (frame_metadata sample_metadata initial_stream titled_state
           [(1024%Z, ascii_bytes "It's")] 768 silence
           (Ok (Next titled_frame_state)) (start fresh idle) titled_frame_world
           0 0 silence titled_frame []).
  - reflexivity.
  - apply quiet_cons; [|apply quiet_nil].
    apply Nat.ltb_lt. vm_cast_no_check (@eq_refl bool true).
  - vm_cast_no_check
      (@eq_refl _ (@Ok (flow stream) (Next titled_frame_state), titled_frame_world)).
  - vm_cast_no_check
      (@eq_refl _ [Wrote 0 silence; Wrote 0 titled_frame]).
Defined.

(** * Further properties on concrete inputs *)

(** ** [_filter_playlist] *)

Lemma filter_playlist_returns_tail_witness :
  exists pre l,
    _filter_playlist sample_playlist (Some (u "b.aac")) (-7) = Ok l
    /\ spec_entries sample_playlist = pre ++ l.
Proof.
  apply (filter_playlist_returns_tail sample_playlist (Some (u "b.aac")) (-7)).
  vm_compute. intuition discriminate.
Defined.

(** ** [login] and [_channel_token] *)

Lemma login_leaves_witness :
  let w := refused_world 401 in
  let w' := snd (login script_json (u "user@example.com") (u "hunter2") w) in
  config (sx w') = config (sx w)
  /\ lineup (sx w') = lineup (sx w)
  /\ token_cache (sx w') = token_cache (sx w)
  /\ username (sx w') = Some (u "user@example.com")
  /\ password (sx w') = Some (u "hunter2")
  /\ session_id (sx w') = session_id (sx w).
Proof.
  intros w w'.
  apply (login_leaves script_json (u "user@example.com") (u "hunter2")
           (Raise (SiriusException "Invalid password")) w w').
  vm_compute. reflexivity.
Defined.

Definition served_world : world script :=
  snd (_channel_token script_json 10 (u "hits1") false expired_world).

Lemma channel_token_cached_witness :
  token_cache (sx served_world) !! u "hits1" = Some sample_token
  /\ _channel_token script_json 1 (u "hits1") false served_world
     = (Ok sample_token, served_world).
Proof.
  destruct (channel_token_cached script_json 10 (u "hits1") false sample_token
              expired_world served_world) as [Hc Hn].
  - vm_compute. reflexivity.
  - split; [exact Hc | exact (Hn 0%nat)].
Defined.

(** A token of another channel stays where it is while the one for
    [hits1] is renewed. *)
Definition two_channels_world : world script :=
  start (logged_in {[ u "jazz" := (u "https://cdn.test/", u "0ff") ]})
    {| json_answers := [Ok token_doc]; get_answers := [] |}.

Lemma channel_token_frame_witness :
  let w' := snd (_channel_token script_json 4 (u "hits1") false two_channels_world) in
  config (sx w') = config (sx two_channels_world)
  /\ lineup (sx w') = lineup (sx two_channels_world)
  /\ token_cache (sx w') !! u "jazz" = Some (u "https://cdn.test/", u "0ff").
Proof.
  intros w'.
  destruct (channel_token_frame script_json 4 (u "hits1") false (Ok sample_token)
              two_channels_world w') as (Hc & Hl & Hk).
  - vm_compute. reflexivity.
  - split; [exact Hc|]. split; [exact Hl|].
    rewrite (Hk (u "jazz")) by discriminate. vm_compute. reflexivity.
Defined.

(** The response of a call that returned one. *)
Definition respond_ok_body (r : result response * world script) : response :=
  match fst r with
  | Ok resp => resp
  | Raise _ => {| status_code := 0; text := []; content := [] |}
  end.

(** The request is refused once, the token renewed and the request
    served. *)
Lemma get_token_resource_returns_200_witness :
  let r := _get_token_resource script_json script_get 6 (u "hits1")
             (u "seg1.aac") refused_once_world in
  fst r = respond 200 "seg1.aac" []
  /\ status_code (respond_ok_body r) = 200%Z
  /\ exists channel_url token u0,
       token_cache (sx (snd r)) !! u "hits1" = Some (channel_url, token)
       /\ last (sent (snd r))
          = Some (resource_request channel_url (u "hits1") (u "seg1.aac") token)
       /\ script_get u0
            (resource_request channel_url (u "hits1") (u "seg1.aac") token)
          = (up (snd r), Ok (respond_ok_body r)).
Proof.
  intros r. split; [vm_compute; reflexivity|].
  apply (get_token_resource_returns_200 script_json script_get 6 (u "hits1")
           (u "seg1.aac") (respond_ok_body r) refused_once_world (snd r)).
  vm_compute. reflexivity.
Defined.

(** ** [channel_metadata] *)

(** A block that decrypts to one metadata packet with a title. *)
Definition titled_segment : bytes :=
  unhex "000102030405060708090a0b0c0d0e0facfb5476b42c625b55d8b0de196f4487".

Definition titled_block : bytes := x04 :: ascii_bytes "Song of the day".

Definition titled_world : world script :=
  start (logged_in cached)
    {| json_answers := [];
       get_answers := [respond 200 "seg1.aac" [];
                       respond 200 "" titled_segment] |}.

Definition after_titled_block : world script :=
  snd (packet_generator_next script_json script_get 3 5 (u "hits1") 0
         new_generator titled_world).

Lemma channel_metadata_first_block_witness :
  channel_metadata script_json script_get sample_transport sample_pes
    sample_metadata 3 5 2 0 titled_world
  = (Ok (Some (NowPlaying sample_channel (u "Artist") (u "Song of the day")
                 (u "Album"))),
     after_titled_block).
Proof.
  apply (channel_metadata_first_block script_json script_get
           sample_transport sample_pes sample_metadata 3 5 2 0 sample_channel
           titled_block {| playlist := []; entry := Some (u "seg1.aac") |}
           (u "Song of the day") (u "Artist") (u "Album")
           titled_world after_titled_block).
  - vm_compute. reflexivity.
  - vm_compute. reflexivity.
  - intros pes [<-|[]] _. discriminate.
  - vm_compute. reflexivity.
Defined.

(** A parser that reports a packet on the metadata PID without a
    payload. *)
Definition bare_transport (b : bytes) : list pes_packet :=
  [{| pid := 768; payload := Some b |}; {| pid := 1024; payload := None |}].

Lemma channel_metadata_bare_packet_witness :
  channel_metadata script_json script_get bare_transport sample_pes
    sample_metadata 3 5 2 0 titled_world
  = (Raise KeyError, after_titled_block).
Proof.
  apply (channel_metadata_bare_packet script_json script_get
           bare_transport sample_pes sample_metadata 3 5 2 0 sample_channel
           titled_block {| playlist := []; entry := Some (u "seg1.aac") |}
           {| pid := 1024; payload := None |} titled_world after_titled_block).
  - vm_compute. reflexivity.
  - vm_compute. reflexivity.
  - right. left. reflexivity.
  - reflexivity.
  - reflexivity.
Defined.

(** ** [channel_stream] *)

(** A segment that carries one frame's worth of audio. *)
Definition frame_segment : bytes := x03 :: silence.

Definition first_frame_state : stream :=
  {| audio := []; track_title := []; new_meta := false; start_time := Some 0%Z |}.

Definition first_frame_world : world script :=
  {| sx := fresh; up := idle; sent := []; now := 0; elapse := [];
     faults := []; trace := [Wrote 0 silence; Wrote 0 [x00]] |}.

Lemma process_segment_frames_witness :
  exists new frames,
    trace first_frame_world = trace (start fresh idle) ++ new
    /\ written new = framed frames
    /\ Forall (fun f => length (fst f) = METAINT /\ icy_block (snd f)) frames
    /\ concat (map fst frames) ++ audio first_frame_state
       = audio initial_stream
         ++ concat (audio_payloads sample_transport sample_pes frame_segment).
Proof.
  apply (process_segment_frames sample_transport sample_pes no_metadata
           frame_segment initial_stream first_frame_state
           (start fresh idle) first_frame_world).
  vm_cast_no_check
    (@eq_refl _ (@Ok (flow stream) (Next first_frame_state), first_frame_world)).
Defined.

(** A title of 4100 letters. *)
Definition long_title : str := repeat 65 4100.

Definition long_title_state : stream :=
  {| audio := silence; track_title := long_title; new_meta := true;
     start_time := None |}.

Definition long_title_text : bytes :=
  ascii_bytes "StreamTitle='" ++ repeat x41 4100 ++ ascii_bytes "';".

Lemma es_step_title_too_long_witness :
  es_step no_metadata 0 [] long_title_state (start fresh idle)
  = (Raise ValueError, start fresh idle).
Proof.
  apply (es_step_title_too_long no_metadata 0 [] long_title_state long_title_text
           (start fresh idle)).
  - apply Nat.leb_le. vm_cast_no_check (@eq_refl bool true).
  - reflexivity.
  - vm_cast_no_check (@eq_refl _ (@Ok bytes long_title_text)).
  - apply Nat.ltb_lt. vm_cast_no_check (@eq_refl bool true).
Defined.

Lemma es_step_keeps_connection_errors_witness :
  ValueError <> ConnectionResetError /\ ValueError <> ConnectionAbortedError.
Proof.
  apply (es_step_keeps_connection_errors no_metadata 0 [] long_title_state
           ValueError (start fresh idle) (start fresh idle)).
  vm_cast_no_check
    (@eq_refl _ (@Raise (flow stream) ValueError, start fresh idle)).
Defined.

(** The second frame is written at once; the clock shows 3999 ms when
    the test reads it and 4001 ms when the sleep is worked out. *)
Definition late_world : world script :=
  {| sx := fresh; up := idle; sent := []; now := 0; elapse := [0; 0; 3999; 2];
     faults := []; trace := [] |}.

Definition late_world_after_audio : world script :=
  {| sx := fresh; up := idle; sent := []; now := 0; elapse := [0; 3999; 2];
     faults := []; trace := [Wrote 0 silence] |}.

Definition late_world_after_frame : world script :=
  {| sx := fresh; up := idle; sent := []; now := 0; elapse := [3999; 2];
     faults := []; trace := [Wrote 0 silence; Wrote 0 [x00]] |}.

Lemma es_step_clock_passes_mark_witness :
  es_step no_metadata 768 silence first_frame_state late_world
  = (Raise ValueError, tick (tick late_world_after_frame))
  /\ written (trace (tick (tick late_world_after_frame)))
     = written (trace late_world)
       ++ [take METAINT (audio (absorb no_metadata 768 silence first_frame_state));
           [x00]].
Proof.
  apply (es_step_clock_passes_mark no_metadata 768 silence first_frame_state
           [x00] 0 late_world late_world_after_audio late_world_after_frame).
  - apply Nat.leb_le. vm_cast_no_check (@eq_refl bool true).
  - reflexivity.
  - vm_cast_no_check (@eq_refl _ (@Ok unit tt, late_world_after_audio)).
  - vm_cast_no_check (@eq_refl _ (@Ok unit tt, late_world_after_frame)).
  - reflexivity.
  - vm_compute. split; reflexivity.
Defined.

(** The listener goes away when 100 bytes of the first frame have gone
    out. *)
Definition gone_world : world script :=
  {| sx := fresh; up := idle; sent := []; now := 0; elapse := [];
     faults := [Some (ConnectionResetError, 100%nat)]; trace := [] |}.

Definition after_gone : world script :=
  {| sx := fresh; up := idle; sent := []; now := 0; elapse := [];
     faults := []; trace := [Failed 0 (repeat x00 100)] |}.

Lemma es_step_connection_lost_witness :
  es_step no_metadata 768 silence initial_stream gone_world
  = (Ok Return, after_gone)
  /\ exists n,
       trace after_gone
       = trace gone_world
         ++ [Failed (now (tick gone_world))
               (take n
                  (take METAINT
                     (audio (absorb no_metadata 768 silence initial_stream))))].
Proof.
  destruct (es_step_connection_lost no_metadata 768 silence initial_stream
              [x00] ConnectionResetError gone_world) as [Haudio _].
  - apply Nat.leb_le. vm_cast_no_check (@eq_refl bool true).
  - reflexivity.
  - now left.
  - apply (Haudio after_gone).
    vm_cast_no_check
      (@eq_refl _ (@Raise unit ConnectionResetError, after_gone)).
Defined.

(** The buffer is full when the block with the title comes, and the
    listener goes away when ten bytes of the metadata block have gone
    out. *)
Definition full_buffer : stream :=
  {| audio := silence; track_title := []; new_meta := false;
     start_time := None |}.

Definition leaving_world : world script :=
  {| sx := sx titled_world; up := up titled_world; sent := []; now := 0;
     elapse := []; faults := [None; Some (ConnectionAbortedError, 10%nat)];
     trace := [] |}.

Definition after_leaving : world script :=
  snd (stream_loop script_json script_get sample_transport sample_pes
         sample_metadata 4 3 5 (u "hits1") 0 new_generator full_buffer
         leaving_world).

Lemma stream_loop_wire_witness :
  exists frames tail,
    wrote leaving_world after_leaving (framed frames ++ tail)
    /\ whole frames /\ cut_short tail.
Proof.
  apply (stream_loop_wire script_json script_get sample_transport sample_pes
           sample_metadata 4 3 5 (u "hits1") 0 new_generator full_buffer
           leaving_world after_leaving).
  vm_cast_no_check (@eq_refl _ (@Ok unit tt, after_leaving)).
Defined.

(** ** [packet_generator] *)

Definition after_playlist : world script :=
  snd (get_playlist script_json script_get 5 (u "hits1") titled_world).

Lemma generator_first_block_witness :
  packet_generator_next script_json script_get 3 5 (u "hits1") 0 new_generator
    titled_world
  = (Ok (Some (titled_block, {| playlist := []; entry := Some (u "seg1.aac") |})),
     after_titled_block).
Proof.
  apply (generator_first_block script_json script_get 2 5 (u "hits1") 0
           (u "seg1.aac") (u "seg1.aac") [] titled_block
           titled_world after_playlist after_titled_block).
  - discriminate.
  - vm_compute. reflexivity.
  - vm_compute. intuition discriminate.
  - vm_compute. reflexivity.
  - vm_compute. reflexivity.
Defined.

(** The playlist has moved on by two entries since [a.aac] was served
    and [b.aac] was queued. *)
Definition moved_playlist : str :=
  u "#EXTM3U" ++ LF ++ u "a.aac" ++ LF ++ u "b.aac" ++ LF ++ u "c.aac" ++ LF
    ++ u "d.aac" ++ LF.

Definition resuming_world : world script :=
  start (logged_in cached)
    {| json_answers := [];
       get_answers :=
         [Ok {| status_code := 200; text := moved_playlist; content := [] |};
          respond 200 "" titled_segment] |}.

Lemma generator_resumes_witness :
  packet_generator_next script_json script_get 1 5 (u "hits1") 0
    {| playlist := [u "b.aac"]; entry := Some (u "a.aac") |} resuming_world
  = (Ok (Some (titled_block,
               {| playlist := [u "c.aac"; u "d.aac"]; entry := Some (u "b.aac") |})),
     snd (get_segment script_json script_get 5 (u "hits1") (u "b.aac")
            (snd (get_playlist script_json script_get 5 (u "hits1")
                    resuming_world)))).
Proof.
  apply (generator_resumes script_json script_get 0 5 (u "hits1") 0
           moved_playlist (u "a.aac") (u "b.aac") [] [u "b.aac"]
           [u "c.aac"; u "d.aac"] [u "c.aac"; u "d.aac"] titled_block
           resuming_world
           (snd (get_playlist script_json script_get 5 (u "hits1") resuming_world))).
  - cbn. lia.
  - discriminate.
  - vm_compute. reflexivity.
  - vm_compute. intuition discriminate.
  - vm_compute. reflexivity.
  - intros [].
  - repeat constructor; cbn; intuition discriminate.
  - reflexivity.
  - vm_compute. reflexivity.
Defined.

(** The playlist holds nothing but its header, twice in a row. *)
Definition empty_playlist_world : world script :=
  start (logged_in cached)
    {| json_answers := [];
       get_answers := [respond 200 "#EXTM3U" []; respond 200 "#EXTM3U" []] |}.

Definition polled_once : world script :=
  slept 10000
    (snd (get_playlist script_json script_get 5 (u "hits1") empty_playlist_world)).

Definition polled_twice : world script :=
  slept 10000 (snd (get_playlist script_json script_get 5 (u "hits1") polled_once)).

Lemma generator_keeps_polling_witness :
  packet_generator_next script_json script_get 2 5 (u "hits1") 0
    {| playlist := []; entry := None |} empty_playlist_world
  = (Ok None, polled_twice)
  /\ exists sleeps,
       trace polled_twice = trace empty_playlist_world ++ sleeps
       /\ length sleeps = 2%nat
       /\ forall e, In e sleeps -> exists t, e = Slept t 10000.
Proof.
  apply (generator_keeps_polling script_json script_get 2 5 (u "hits1") 0 None
           empty_playlist_world polled_twice).
  apply polls_S
    with (P := u "#EXTM3U")
         (w1 := snd (get_playlist script_json script_get 5 (u "hits1")
                       empty_playlist_world));
    [vm_compute; reflexivity | vm_compute; reflexivity |].
  apply polls_S
    with (P := u "#EXTM3U")
         (w1 := snd (get_playlist script_json script_get 5 (u "hits1") polled_once));
    [vm_compute; reflexivity | vm_compute; reflexivity |].
  apply polls_O.
Defined.

(** ** [do_GET] *)

(** The answers of the interpreter on paths that are nearly routes: a
    final line feed is let through by [$], a final slash, a query, digits
    that are not ASCII and a line feed inside the path are not. *)
Example do_GET_on_near_routes :
  do_GET (u "/channel/12" ++ LF)
  = (channel_stream, [("channel_number"%string, u "12")])
  /\ do_GET (u "/channel/12/") = (file_not_found, [])
  /\ do_GET (u "/channel/12?x=1") = (file_not_found, [])
  /\ do_GET (u "/channel/" ++ [1633; 1634]) = (file_not_found, [])
  /\ do_GET (u "/static/a" ++ LF ++ u "b") = (file_not_found, [])
  /\ do_GET (u "/static/../settings.cfg")
     = (static_file, [("path"%string, u "../settings.cfg")])
  /\ do_GET (u "//") = (file_not_found, []).
Proof. vm_compute. repeat split. Qed.

Lemma routes_exclusive_witness :
  re_search (route 5) (u "/metadata/7/2")
  = Some [("channel_number"%string, u "7"); ("rewind"%string, u "2")]
  /\ 5%nat = 5%nat.
Proof.
  split; [vm_compute; reflexivity|].
  apply (routes_exclusive (u "/metadata/7/2") 5 5
           [("channel_number"%string, u "7"); ("rewind"%string, u "2")]
           [("channel_number"%string, u "7"); ("rewind"%string, u "2")]);
    solve [lia | vm_compute; reflexivity].
Defined.

Lemma do_GET_serves_witness :
  do_GET (u "/") = (index, [])
  /\ do_GET (u "/static/css/list.css")
     = (static_file, [("path"%string, u "css/list.css")])
  /\ do_GET (u "/channel/012")
     = (channel_stream, [("channel_number"%string, u "012")])
  /\ do_GET (u "/channel/012/3")
     = (channel_stream,
        [("channel_number"%string, u "012"); ("rewind"%string, u "3")])
  /\ do_GET (u "/metadata/012")
     = (channel_metadata_handler, [("channel_number"%string, u "012")])
  /\ do_GET (u "/metadata/012/3")
     = (channel_metadata_handler,
        [("channel_number"%string, u "012"); ("rewind"%string, u "3")]).
Proof.
  apply (do_GET_serves (u "css/list.css") (u "012") (u "3")).
  - discriminate.
  - vm_compute. intuition discriminate.
  - split; [discriminate | reflexivity].
  - split; [discriminate | reflexivity].
Defined.

(** ** [_parse_lineup] *)

(** A stand-in for [int] on a string: the value of a string of ASCII
    digits. *)
Definition decimal (s : str) : result Z :=
  match s with
  | [] => Raise ValueError
  | _ =>
      fold_left
        (fun acc c =>
           let+ n := acc in
           if accepts Digit c then Ok (10 * n + Z.of_N (c - 48))%Z
           else Raise ValueError)
        s (Ok 0%Z)
  end.

Definition hits_channel : list (list N * json) :=
  [(u "siriusChannelNo", JStr (u "2")); (u "name", JStr (u "Hits 1"));
   (u "channelKey", JStr (u "hits1"))].

Definition lineup_doc (channels : json) : json :=
  JObj [(u "lineup-response",
         JObj [(u "lineup",
                JObj [(u "categories",
                       JArr [JObj [(u "genres",
                                    JObj [(u "name", JStr (u "Pop"));
                                          (u "channels", channels)])]])])])].

Lemma parse_lineup_filed_witness :
  (exists number,
      subscript (JObj (hits_channel ++ [(u "genre", JStr (u "Pop"))]))
        (u "siriusChannelNo") = Ok number
      /\ py_int decimal number = Ok 2%Z)
  /\ exists name,
       subscript (JObj (hits_channel ++ [(u "genre", JStr (u "Pop"))])) (u "genre")
       = Ok name.
Proof.
  apply (parse_lineup_filed decimal (lineup_doc (JArr [JObj hits_channel])) 2).
  vm_compute. reflexivity.
Defined.

(** The same document with a genre that has no name. *)
Definition unnamed_genre : json := JObj [(u "channels", JObj hits_channel)].

Definition unnamed_doc : json :=
  JObj [(u "lineup-response",
         JObj [(u "lineup",
                JObj [(u "categories",
                       JArr [JObj [(u "genres", unnamed_genre)]])])])].

Lemma parse_lineup_single_channel_witness :
  _parse_lineup decimal (lineup_doc (JObj hits_channel)) = (Raise TypeError, ∅)
  /\ _parse_lineup decimal unnamed_doc = (Raise KeyError, ∅).
Proof.
  split.
  - apply (parse_lineup_single_channel decimal
             (lineup_doc (JObj hits_channel))
             (JObj [(u "lineup",
                     JObj [(u "categories",
                            JArr [JObj [(u "genres",
                                         JObj [(u "name", JStr (u "Pop"));
                                               (u "channels", JObj hits_channel)])]])])])
             (JObj [(u "categories",
                     JArr [JObj [(u "genres",
                                  JObj [(u "name", JStr (u "Pop"));
                                        (u "channels", JObj hits_channel)])]])])
             (JObj [(u "genres",
                     JObj [(u "name", JStr (u "Pop"));
                           (u "channels", JObj hits_channel)])])
             (JObj [(u "name", JStr (u "Pop")); (u "channels", JObj hits_channel)])
             []
             (u "siriusChannelNo") (JStr (u "2"))
             [(u "name", JStr (u "Hits 1")); (u "channelKey", JStr (u "hits1"))]);
      reflexivity.
  - apply (parse_lineup_single_channel decimal unnamed_doc
             (JObj [(u "lineup",
                     JObj [(u "categories",
                            JArr [JObj [(u "genres", unnamed_genre)]])])])
             (JObj [(u "categories", JArr [JObj [(u "genres", unnamed_genre)]])])
             (JObj [(u "genres", unnamed_genre)])
             unnamed_genre
             []
             (u "siriusChannelNo") (JStr (u "2"))
             [(u "name", JStr (u "Hits 1")); (u "channelKey", JStr (u "hits1"))]);
      reflexivity.
Defined.
